(** * rom_go_app: the rosbridge link, the robot registry and the browser bridge

    A shallow embedding of the Go packages [rosbridge] (client.go, types.go,
    protocol.go), [robot] (robot.go, manager.go) and [handlers]
    (ws_handler.go), followed by the properties the specification states
    about them.

    Conventions of the embedding:
    - Go [float64] is Rocq's primitive binary64 [float]; Go's [==] on floats
      is [PrimFloat.eqb] (IEEE: NaN differs from itself, +0 equals -0).
    - Go [int] is a [Z] with the 64-bit wrap-around written as [wrap64];
      [int8(v)] is [int8].
    - Go maps are [gmap]s, channels are references into a heap of buffers.
    - A method that holds one lock from entry to exit runs atomically; a
      method that blocks ([CallService]) is split into its atomic steps and
      interleaved by a schedule, and one that takes its lock several times
      ([publishCmdVelTick]) has a version with the other goroutines'
      actions between its critical sections.
    - A Go slice that the program encodes to JSON is nil or a sequence
      ([slice]): nil encodes as [null], an empty slice as [[]].
    - JSON text is not modelled: an inbound frame is the value
      [json.Unmarshal] decodes it to, [None] when decoding fails; an outbound
      frame is the structured value handed to [json.Marshal], or no bytes
      when [json.Marshal] refuses it. *)

From Stdlib Require Import ZArith Floats Lia.
From stdpp Require Import gmap strings list pretty.

(** ** Shared helpers *)

(** Go's [int] on a 64-bit platform. *)
Definition wrap64 (z : Z) : Z := ((z + 2 ^ 63) mod 2 ^ 64 - 2 ^ 63)%Z.

(** The conversion [int8(v)]: keeps the low eight bits, read as signed. *)
Definition int8 (z : Z) : Z := ((z + 128) mod 256 - 128)%Z.

(** [fmt.Sprintf("%d", n)]. *)
Definition Sprintf_d (n : Z) : string := pretty n.

(** Go errors: the ones the program builds with [fmt.Errorf], and the ones
    the websocket library returns from a failed write. *)
Inductive error :=
  | Errorf (msg : string)
  | WriteError (msg : string).

(** A Go function either returns or panics. *)
Inductive outcome (A : Type) :=
  | Returns (a : A)
  | Panics (msg : string).
Arguments Returns {A} a.
Arguments Panics {A} msg.

(** ** Package rosbridge *)
Module rosbridge.

(** *** types.go *)

Record Vector3 := { vX : float; vY : float; vZ : float }.

Record Quaternion := { qX : float; qY : float; qZ : float; qW : float }.

Definition zeroVector3 : Vector3 :=
  {| vX := PrimFloat.zero; vY := PrimFloat.zero; vZ := PrimFloat.zero |}.

Definition zeroQuaternion : Quaternion :=
  {| qX := PrimFloat.zero; qY := PrimFloat.zero; qZ := PrimFloat.zero;
     qW := PrimFloat.zero |}.

(** [TransformStamped]; of the header only [frame_id] is kept (the stamp is
    never read). *)
Record TransformStamped := {
  FrameID : string;
  ChildFrameID : string;
  Translation : Vector3;
  Rotation : Quaternion
}.

(** The zero value [TransformStamped{}]. *)
Definition zeroTransformStamped : TransformStamped :=
  {| FrameID := ""; ChildFrameID := "";
     Translation := zeroVector3; Rotation := zeroQuaternion |}.

Record TwistData := {
  LinearX : float; LinearY : float; LinearZ : float;
  AngularX : float; AngularY : float; AngularZ : float
}.

Definition zeroTwistData : TwistData :=
  {| LinearX := PrimFloat.zero; LinearY := PrimFloat.zero;
     LinearZ := PrimFloat.zero; AngularX := PrimFloat.zero;
     AngularY := PrimFloat.zero; AngularZ := PrimFloat.zero |}.

Record TFData := {
  MapOdomTx : float; MapOdomTy : float; MapOdomTz : float;
  MapOdomRx : float; MapOdomRy : float; MapOdomRz : float; MapOdomRw : float;
  BfpTx : float; BfpTy : float; BfpTz : float;
  BfpRx : float; BfpRy : float; BfpRz : float; BfpRw : float;
  BfpYaw : float
}.

Definition zeroTFData : TFData :=
  {| MapOdomTx := PrimFloat.zero; MapOdomTy := PrimFloat.zero;
     MapOdomTz := PrimFloat.zero; MapOdomRx := PrimFloat.zero;
     MapOdomRy := PrimFloat.zero; MapOdomRz := PrimFloat.zero;
     MapOdomRw := PrimFloat.zero;
     BfpTx := PrimFloat.zero; BfpTy := PrimFloat.zero; BfpTz := PrimFloat.zero;
     BfpRx := PrimFloat.zero; BfpRy := PrimFloat.zero; BfpRz := PrimFloat.zero;
     BfpRw := PrimFloat.zero; BfpYaw := PrimFloat.zero |}.

(** [MapData]: the simplified occupancy grid; [Data] holds [int8] cells. *)
Record MapData := {
  Width : Z; Height : Z; Resolution : float;
  OriginX : float; OriginY : float;
  Data : list Z
}.

Definition zeroMapData : MapData :=
  {| Width := 0; Height := 0; Resolution := PrimFloat.zero;
     OriginX := PrimFloat.zero; OriginY := PrimFloat.zero; Data := [] |}.

(** *** protocol.go: the outbound frames *)

(** The [msg] of a command publish: [{"linear": {x,y,z}, "angular": {x,y,z}}]. *)
Record TwistMsg := { linear : Vector3; angular : Vector3 }.

(** The bytes a helper of protocol.go returns: the JSON document it
    marshals, or no bytes at all. [SubscribeMsg], [UnsubscribeMsg] and
    [CallServiceMsg] marshal strings, which [json.Marshal] never refuses, so
    they are the documents themselves. [PublishJSON] is the document
    [{"op": "publish", "topic": ..., "msg": ...}]; [NoBytes] is the nil
    slice, which [WriteMessage] sends as an empty text frame. *)
Inductive Frame :=
  | SubscribeMsg (topic msgType : string)
  | UnsubscribeMsg (topic : string)
  | PublishJSON (topic : string) (data : TwistMsg)
  | CallServiceMsg (service args id : string)
  | NoBytes.

(** [json.Marshal] refuses a [float64] that is NaN or infinite. *)
Definition marshals (v : Vector3) : bool :=
  PrimFloat.is_finite (vX v) && PrimFloat.is_finite (vY v)
  && PrimFloat.is_finite (vZ v).

(** [PublishMsg]: [b, _ := json.Marshal(msg); return b]. The error is
    dropped, so a message that does not marshal gives the nil slice. *)
Definition PublishMsg (topic : string) (data : TwistMsg) : Frame :=
  if marshals (linear data) && marshals (angular data)
  then PublishJSON topic data
  else NoBytes.

Definition TypeTwist : string := "geometry_msgs/msg/Twist".

(** *** client.go: the link's state *)

(** The socket: the frames written so far and the error, if any, that the
    next [WriteMessage] returns. *)
Record Conn := { werr : option string; written : list Frame }.

(** A channel reference, as returned by [make(chan ...)]. *)
Abbreviation chanref := nat (only parsing).

(** [Client]. The callback fields [OnMap] and [OnTF] record whether the
    function value is non-nil; a call of the callback is an output of the
    parser. Fields no modelled method reads (host, port, the other topic
    names, the ticker, the stop channel) are left out. *)
Record Client := {
  conn : option Conn;
  ns : string;
  connected : bool;
  topicCmdVel : string;
  cmdVelEnabled : bool;
  desiredTwist : TwistData;
  lastTwist : TwistData;
  globalMapOdom : TransformStamped;
  OnMap : bool;
  OnTF : bool;
  svcPending : gmap string chanref
}.

(** [NewClient]: every field but the namespace is the zero value. *)
Definition NewClient (namespace : string) : Client :=
  {| conn := None; ns := namespace; connected := false;
     topicCmdVel := ""; cmdVelEnabled := false;
     desiredTwist := zeroTwistData; lastTwist := zeroTwistData;
     globalMapOdom := zeroTransformStamped;
     OnMap := false; OnTF := false; svcPending := ∅ |}.

Definition set_conn (k : option Conn) (c : Client) : Client :=
  {| conn := k; ns := ns c; connected := connected c;
     topicCmdVel := topicCmdVel c; cmdVelEnabled := cmdVelEnabled c;
     desiredTwist := desiredTwist c; lastTwist := lastTwist c;
     globalMapOdom := globalMapOdom c; OnMap := OnMap c; OnTF := OnTF c;
     svcPending := svcPending c |}.

Definition set_connected (b : bool) (c : Client) : Client :=
  {| conn := conn c; ns := ns c; connected := b;
     topicCmdVel := topicCmdVel c; cmdVelEnabled := cmdVelEnabled c;
     desiredTwist := desiredTwist c; lastTwist := lastTwist c;
     globalMapOdom := globalMapOdom c; OnMap := OnMap c; OnTF := OnTF c;
     svcPending := svcPending c |}.

Definition set_topicCmdVel (t : string) (c : Client) : Client :=
  {| conn := conn c; ns := ns c; connected := connected c;
     topicCmdVel := t; cmdVelEnabled := cmdVelEnabled c;
     desiredTwist := desiredTwist c; lastTwist := lastTwist c;
     globalMapOdom := globalMapOdom c; OnMap := OnMap c; OnTF := OnTF c;
     svcPending := svcPending c |}.

Definition set_cmdVelEnabled (b : bool) (c : Client) : Client :=
  {| conn := conn c; ns := ns c; connected := connected c;
     topicCmdVel := topicCmdVel c; cmdVelEnabled := b;
     desiredTwist := desiredTwist c; lastTwist := lastTwist c;
     globalMapOdom := globalMapOdom c; OnMap := OnMap c; OnTF := OnTF c;
     svcPending := svcPending c |}.

Definition set_desiredTwist (t : TwistData) (c : Client) : Client :=
  {| conn := conn c; ns := ns c; connected := connected c;
     topicCmdVel := topicCmdVel c; cmdVelEnabled := cmdVelEnabled c;
     desiredTwist := t; lastTwist := lastTwist c;
     globalMapOdom := globalMapOdom c; OnMap := OnMap c; OnTF := OnTF c;
     svcPending := svcPending c |}.

Definition set_lastTwist (t : TwistData) (c : Client) : Client :=
  {| conn := conn c; ns := ns c; connected := connected c;
     topicCmdVel := topicCmdVel c; cmdVelEnabled := cmdVelEnabled c;
     desiredTwist := desiredTwist c; lastTwist := t;
     globalMapOdom := globalMapOdom c; OnMap := OnMap c; OnTF := OnTF c;
     svcPending := svcPending c |}.

Definition set_globalMapOdom (t : TransformStamped) (c : Client) : Client :=
  {| conn := conn c; ns := ns c; connected := connected c;
     topicCmdVel := topicCmdVel c; cmdVelEnabled := cmdVelEnabled c;
     desiredTwist := desiredTwist c; lastTwist := lastTwist c;
     globalMapOdom := t; OnMap := OnMap c; OnTF := OnTF c;
     svcPending := svcPending c |}.

Definition set_callbacks (onMap onTF : bool) (c : Client) : Client :=
  {| conn := conn c; ns := ns c; connected := connected c;
     topicCmdVel := topicCmdVel c; cmdVelEnabled := cmdVelEnabled c;
     desiredTwist := desiredTwist c; lastTwist := lastTwist c;
     globalMapOdom := globalMapOdom c; OnMap := onMap; OnTF := onTF;
     svcPending := svcPending c |}.

Definition set_svcPending (p : gmap string chanref) (c : Client) : Client :=
  {| conn := conn c; ns := ns c; connected := connected c;
     topicCmdVel := topicCmdVel c; cmdVelEnabled := cmdVelEnabled c;
     desiredTwist := desiredTwist c; lastTwist := lastTwist c;
     globalMapOdom := globalMapOdom c; OnMap := OnMap c; OnTF := OnTF c;
     svcPending := p |}.

(** The frames the link has put on its socket. *)
Definition wire (c : Client) : list Frame :=
  match conn c with
  | Some k => written k
  | None => []
  end.

(** [Connect], once the dial has succeeded: installs the socket and marks the
    link connected; a no-op on a connected link. *)
Definition Connect (k : Conn) (c : Client) : Client :=
  if connected c then c else set_connected true (set_conn (Some k) c).

(** [send]: fails at once on a disconnected link, otherwise writes. *)
Definition send (data : Frame) (c : Client) : Client * option error :=
  if negb (connected c) then (c, Some (Errorf "not connected"))
  else match conn c with
       | None => (c, Some (Errorf "not connected"))
       | Some k =>
           match werr k with
           | Some e => (c, Some (WriteError e))
           | None =>
               (set_conn (Some {| werr := None; written := written k ++ [data] |}) c,
                None)
           end
       end.

(** *** cmd_vel publishing *)

Definition SetDesiredCmdVel (twist : TwistData) (c : Client) : Client :=
  set_desiredTwist twist c.

Definition SetCmdVelEnabled (enabled : bool) (c : Client) : Client :=
  set_cmdVelEnabled enabled c.

Definition SetCmdVelTopic (topic : string) (c : Client) : Client :=
  set_topicCmdVel (ns c +:+ topic) c.

Definition SubscribeCmdVel (topic : string) (c : Client) : Client :=
  let topic := if String.eqb topic "" then "/diff_controller/cmd_vel_unstamped"
               else topic in
  let c := set_topicCmdVel (ns c +:+ topic) c in
  fst (send (SubscribeMsg (topicCmdVel c) TypeTwist) c).

(** The test of [publishCmdVelTick] that skips the publish:
    [desired.LinearX == last.LinearX && desired.AngularZ == last.AngularZ &&
     desired.LinearY == last.LinearY]. *)
Definition twistUnchanged (desired last : TwistData) : bool :=
  PrimFloat.eqb (LinearX desired) (LinearX last)
  && PrimFloat.eqb (AngularZ desired) (AngularZ last)
  && PrimFloat.eqb (LinearY desired) (LinearY last).

(** The message of the publish frame built from the desired twist. *)
Definition cmdVelMsg (desired : TwistData) : TwistMsg :=
  {| linear := {| vX := LinearX desired; vY := LinearY desired;
                  vZ := PrimFloat.zero |};
     angular := {| vX := PrimFloat.zero; vY := PrimFloat.zero;
                   vZ := AngularZ desired |} |}.






(** [publishCmdVelTick] when no other goroutine touches the link during the
    tick. *)
Definition publishCmdVelTick (c : Client) : Client :=
  if negb (connected c) || negb (cmdVelEnabled c) then c
  else
    let desired := desiredTwist c in
    let last := lastTwist c in
    let topic := topicCmdVel c in
    if String.eqb topic "" then c
    else if twistUnchanged desired last then c
    else
      let c := fst (send (PublishMsg topic (cmdVelMsg desired)) c) in
      set_lastTwist desired c.

(** *** Message parsers *)

(** The struct [parseMap] decodes an occupancy grid into: [info.width],
    [info.height], [info.resolution], [info.origin.position.{x,y}] and
    [data] as Go [int]s. *)
Record GridMsg := {
  InfoWidth : Z; InfoHeight : Z; InfoResolution : float;
  InfoOriginX : float; InfoOriginY : float;
  GridData : list Z
}.

(** One turn of the cell loop: [if v > 127 { v -= 256 }; data[i] = int8(v)]. *)
Definition mapCell (v : Z) : Z :=
  int8 (if (127 <? v)%Z then wrap64 (v - 256) else v).

(** [parseMap]: [Some md] when [c.OnMap(md)] is called; nothing happens when
    no callback is set or the frame does not decode. *)
Definition parseMap (c : Client) (msg : option GridMsg) : option MapData :=
  if negb (OnMap c) then None
  else match msg with
       | None => None
       | Some grid =>
           Some {| Width := InfoWidth grid; Height := InfoHeight grid;
                   Resolution := InfoResolution grid;
                   OriginX := InfoOriginX grid; OriginY := InfoOriginY grid;
                   Data := mapCell <$> GridData grid |}
       end.

(** A decoded [tf2_msgs/TFMessage]: its [transforms]. *)
Definition TFMessage := list TransformStamped.

Section parseTF.

(** [math.Atan2], from Go's standard library. *)
Variable Atan2 : float → float → float.

(** The body of the loop over [tfMsg.Transforms]; the loop state is the
    client (for [globalMapOdom]), [tfData] and [emitTF]. *)
Definition tfStep (st : Client * TFData * bool) (t : TransformStamped)
    : Client * TFData * bool :=
  let '(c, tfData, emitTF) := st in
  let parent := FrameID t in
  let child := ChildFrameID t in
  if String.eqb parent "map" && String.eqb child "odom" then
    let c := set_globalMapOdom
               {| FrameID := ""; ChildFrameID := "";
                  Translation := Translation t; Rotation := Rotation t |} c in
    (c,
     {| MapOdomTx := vX (Translation t); MapOdomTy := vY (Translation t);
        MapOdomTz := vZ (Translation t);
        MapOdomRx := qX (Rotation t); MapOdomRy := qY (Rotation t);
        MapOdomRz := qZ (Rotation t); MapOdomRw := qW (Rotation t);
        BfpTx := BfpTx tfData; BfpTy := BfpTy tfData; BfpTz := BfpTz tfData;
        BfpRx := BfpRx tfData; BfpRy := BfpRy tfData; BfpRz := BfpRz tfData;
        BfpRw := BfpRw tfData; BfpYaw := BfpYaw tfData |},
     emitTF)
  else if String.eqb parent "odom" && String.eqb child "base_footprint" then
    let mo := globalMapOdom c in
    let r := Rotation t in
    (c,
     {| MapOdomTx := vX (Translation mo); MapOdomTy := vY (Translation mo);
        MapOdomTz := vZ (Translation mo);
        MapOdomRx := qX (Rotation mo); MapOdomRy := qY (Rotation mo);
        MapOdomRz := qZ (Rotation mo); MapOdomRw := qW (Rotation mo);
        BfpTx := vX (Translation t); BfpTy := vY (Translation t);
        BfpTz := vZ (Translation t);
        BfpRx := qX r; BfpRy := qY r; BfpRz := qZ r; BfpRw := qW r;
        BfpYaw := Atan2 (2 * (qW r * qZ r + qX r * qY r))%float
                        (1 - 2 * (qY r * qY r + qZ r * qZ r))%float |},
     true)
  else (c, tfData, emitTF).

(** [parseTF]: the client afterwards, and [Some tfData] when
    [c.OnTF(tfData)] is called. *)
Definition parseTF (c : Client) (msg : option TFMessage)
    : Client * option TFData :=
  if negb (OnTF c) then (c, None)
  else match msg with
       | None => (c, None)
       | Some tfMsg =>
           let '(c, tfData, emitTF) :=
             fold_left tfStep tfMsg (c, zeroTFData, false) in
           (c, if emitTF then Some tfData else None)
       end.

(** The read loop handing a sequence of TF frames to [parseTF], one after the
    other; the result lists, per frame, the event emitted (if any). *)
Fixpoint readTF (c : Client) (frames : list (option TFMessage))
    : Client * list (option TFData) :=
  match frames with
  | [] => (c, [])
  | f :: rest =>
      let '(c, ev) := parseTF c f in
      let '(c, evs) := readTF c rest in
      (c, ev :: evs)
  end.

End parseTF.

(** *** Service calls

    [CallService] blocks in its [select], so several activations and the read
    loop interleave. An activation is cut at the points where it can be
    pre-empted with an effect visible to the others:
    - [Enter]: lines [id := ...] to [c.svcPending[id] = ch] (the id is built
      from the clock, the channel is fresh, the entry is registered);
    - [DoSend]: [c.send(CallServiceMsg(fullService, args, id))];
    - [DoReceive] / [DoTimeout]: the two cases of the [select];
    - [DoDefer]: the deferred [delete(c.svcPending, id)], then the return.
    The read loop's [handleServiceResponse] is [Response] (the lookup under
    the lock) followed by [Deliver] (the send [ch <- raw], which waits while
    the one-slot buffer is full). [Elapse] lets time pass. *)

Definition RawMessage := string.

(** The pair [(json.RawMessage, error)] that [CallService] returns. *)
Definition result : Type := RawMessage + error.

Inductive pc :=
  | AtSend
  | AtSelect (deadline : Z)
  | AtDefer (r : result)
  | Returned (r : result).

Record Call := {
  callService : string;
  callArgs : string;
  callTimeout : Z;
  callID : string;
  callCh : chanref;
  callPC : pc
}.

Definition set_callPC (p : pc) (k : Call) : Call :=
  {| callService := callService k; callArgs := callArgs k;
     callTimeout := callTimeout k; callID := callID k; callCh := callCh k;
     callPC := p |}.

(** A link at run time: the client, the heap of response channels (each a
    buffer of capacity 1, named by allocation order), the activations of
    [CallService] by goroutine, the response the read loop is about to put
    into a channel, and the clock in nanoseconds. *)
Record Link := {
  client : Client;
  chans : list (list RawMessage);
  calls : list Call;
  reader : option (chanref * RawMessage);
  now : Z
}.

Definition newLink (c : Client) (t0 : Z) : Link :=
  {| client := c; chans := []; calls := []; reader := None; now := t0 |}.

Inductive label :=
  | Enter (service args : string) (timeout : Z)
  | DoSend (g : nat)
  | DoReceive (g : nat)
  | DoTimeout (g : nat)
  | DoDefer (g : nat)
  | Response (id : string) (raw : RawMessage)
  | Deliver
  | Elapse (d : Z).

(** [time.Now().UnixMilli()]. *)
Definition UnixMilli (t : Z) : Z := (t / 1000000)%Z.

(** [fmt.Sprintf("svc_%s_%d", service, time.Now().UnixMilli())]. *)
Definition correlationID (service : string) (t : Z) : string :=
  "svc_" +:+ service +:+ "_" +:+ Sprintf_d (UnixMilli t).

(** [fmt.Errorf("service call %s timed out", service)]. *)
Definition timeoutError (service : string) : error :=
  Errorf ("service call " +:+ service +:+ " timed out").

Definition step (a : label) (l : Link) : option Link :=
  match a with
  | Enter service args timeout =>
      let id := correlationID service (now l) in
      let ch := length (chans l) in
      Some {| client := set_svcPending (<[id := ch]> (svcPending (client l)))
                                       (client l);
              chans := chans l ++ [[]];
              calls := calls l ++
                [{| callService := service; callArgs := args;
                    callTimeout := timeout; callID := id; callCh := ch;
                    callPC := AtSend |}];
              reader := reader l; now := now l |}
  | DoSend g =>
      k ← calls l !! g;
      match callPC k with
      | AtSend =>
          let fullService := ns (client l) +:+ callService k in
          let '(c, err) :=
            send (CallServiceMsg fullService (callArgs k) (callID k))
                 (client l) in
          let p := match err with
                   | Some e => AtDefer (inr e)
                   | None => AtSelect (now l + callTimeout k)
                   end in
          Some {| client := c; chans := chans l;
                  calls := <[g := set_callPC p k]> (calls l);
                  reader := reader l; now := now l |}
      | _ => None
      end
  | DoReceive g =>
      k ← calls l !! g;
      match callPC k, chans l !! callCh k with
      | AtSelect _, Some (resp :: rest) =>
          Some {| client := client l;
                  chans := <[callCh k := rest]> (chans l);
                  calls := <[g := set_callPC (AtDefer (inl resp)) k]> (calls l);
                  reader := reader l; now := now l |}
      | _, _ => None
      end
  | DoTimeout g =>
      k ← calls l !! g;
      match callPC k with
      | AtSelect deadline =>
          if (deadline <=? now l)%Z then
            let r := inr (timeoutError (callService k)) in
            Some {| client := client l; chans := chans l;
                    calls := <[g := set_callPC (AtDefer r) k]> (calls l);
                    reader := reader l; now := now l |}
          else None
      | _ => None
      end
  | DoDefer g =>
      k ← calls l !! g;
      match callPC k with
      | AtDefer r =>
          Some {| client := set_svcPending
                              (delete (callID k) (svcPending (client l)))
                              (client l);
                  chans := chans l;
                  calls := <[g := set_callPC (Returned r) k]> (calls l);
                  reader := reader l; now := now l |}
      | _ => None
      end
  | Response id raw =>
      match reader l with
      | Some _ => None
      | None =>
          Some {| client := client l; chans := chans l; calls := calls l;
                  reader := (λ ch, (ch, raw)) <$> svcPending (client l) !! id;
                  now := now l |}
      end
  | Deliver =>
      '(ch, raw) ← reader l;
      buf ← chans l !! ch;
      if (length buf <? 1)%nat then
        Some {| client := client l;
                chans := <[ch := buf ++ [raw]]> (chans l);
                calls := calls l; reader := None; now := now l |}
      else None
  | Elapse d =>
      if (0 <=? d)%Z then
        Some {| client := client l; chans := chans l; calls := calls l;
                reader := reader l; now := (now l + d)%Z |}
      else None
  end.

(** A schedule is run step by step; [None] when a step is not enabled. *)
Fixpoint run (sched : list label) (l : Link) : option Link :=
  match sched with
  | [] => Some l
  | a :: rest => l' ← step a l; run rest l'
  end.

(** The call has registered its entry and not yet returned. *)
Definition inFlight (k : Call) : bool :=
  match callPC k with
  | Returned _ => false
  | _ => true
  end.



(** *** Predicates of the properties below *)

(** The link is connected over a socket whose writes succeed. *)
Definition linkUp (c : Client) : bool :=
  connected c &&
  match conn c with
  | Some k => match werr k with None => true | Some _ => false end
  | None => false
  end.

(** The three fields of a command that go on the wire are finite, so the
    command's message marshals. *)
Definition marshalsCmd (t : TwistData) : bool :=
  PrimFloat.is_finite (LinearX t) && PrimFloat.is_finite (LinearY t)
  && PrimFloat.is_finite (AngularZ t).

(** The two tests of [parseTF]'s loop: [parent == "map" && child == "odom"]
    and [parent == "odom" && child == "base_footprint"]. *)
Definition isMapOdom (t : TransformStamped) : bool :=
  String.eqb (FrameID t) "map" && String.eqb (ChildFrameID t) "odom".

Definition isOdomBfp (t : TransformStamped) : bool :=
  String.eqb (FrameID t) "odom" && String.eqb (ChildFrameID t) "base_footprint".

(** What [parseTF] stores for a map→odom transform [t]. *)
Definition stamp (t : TransformStamped) : TransformStamped :=
  {| FrameID := ""; ChildFrameID := "";
     Translation := Translation t; Rotation := Rotation t |}.

(** The map→odom transform seen last when [ts] is read from left to right
    ([cache] if there is none). *)
Fixpoint lastMapOdom (cache : TransformStamped) (ts : list TransformStamped)
    : TransformStamped :=
  match ts with
  | [] => cache
  | t :: rest => lastMapOdom (if isMapOdom t then stamp t else cache) rest
  end.

(** The same over a sequence of frames; an undecodable frame shows nothing. *)
Fixpoint observedAfter (cache : TransformStamped)
    (frames : list (option TFMessage)) : TransformStamped :=
  match frames with
  | [] => cache
  | f :: rest => observedAfter (lastMapOdom cache (default [] f)) rest
  end.

(** No frame carries a map→odom transform. *)
Definition neverObserved (frames : list (option TFMessage)) : bool :=
  forallb (λ f, forallb (λ t, negb (isMapOdom t)) (default [] f)) frames.

(** The map→odom half of a composite event, and of a cached transform. *)
Definition mapOdomHalf (tf : TFData) : Vector3 * Quaternion :=
  ({| vX := MapOdomTx tf; vY := MapOdomTy tf; vZ := MapOdomTz tf |},
   {| qX := MapOdomRx tf; qY := MapOdomRy tf; qZ := MapOdomRz tf;
      qW := MapOdomRw tf |}).

Definition transformOf (t : TransformStamped) : Vector3 * Quaternion :=
  (Translation t, Rotation t).



(** Every entry of the pending table was registered by a call in flight. *)
Definition owned (pending : gmap string nat) (cs : list Call) : Prop :=
  ∀ id ch, pending !! id = Some ch →
    ∃ g k, cs !! g = Some k ∧ callID k = id ∧ callCh k = ch ∧
           inFlight k = true.




End rosbridge.

(** ** Package robot *)
Module robot.

(** *** robot.go *)

(** [Robot]: identity, link and the caches the parsers fill. The frequency
    counters, the velocity history and the navigation points are left out. *)
Record Robot := {
  ID : string;
  Namespace : string;
  Name : string;
  IP : string;
  Port : Z;
  Connected : bool;
  Client : rosbridge.Client;
  Map : rosbridge.MapData;
  MapReceived : bool;
  TF : rosbridge.TFData;
  TFReceived : bool
}.

(** [NewRobot]: builds the link and sets its callbacks. *)
Definition NewRobot (id ns name ip : string) (port : Z) : Robot :=
  {| ID := id; Namespace := ns; Name := name; IP := ip; Port := port;
     Connected := false;
     Client := rosbridge.set_callbacks true true (rosbridge.NewClient ns);
     Map := rosbridge.zeroMapData; MapReceived := false;
     TF := rosbridge.zeroTFData; TFReceived := false |}.

(** The [client.OnMap] closure of [NewRobot]. *)
Definition onMap (m : rosbridge.MapData) (r : Robot) : Robot :=
  {| ID := ID r; Namespace := Namespace r; Name := Name r; IP := IP r;
     Port := Port r; Connected := Connected r; Client := Client r;
     Map := m; MapReceived := true;
     TF := TF r; TFReceived := TFReceived r |}.

(** An inbound publish on the map topic of the robot's link: [parseMap], and
    the callback it calls. *)
Definition receiveMap (msg : option rosbridge.GridMsg) (r : Robot) : Robot :=
  match rosbridge.parseMap (Client r) msg with
  | Some md => onMap md r
  | None => r
  end.

(** [GetMap]. *)
Definition GetMap (r : Robot) : rosbridge.MapData := Map r.

(** What [GetSnapshot] copies out of a robot (the link and the map are not
    copied). *)
Record Snapshot := {
  snapID : string; snapNamespace : string; snapName : string;
  snapIP : string; snapPort : Z; snapConnected : bool;
  snapMapReceived : bool; snapTF : rosbridge.TFData; snapTFReceived : bool
}.

Definition GetSnapshot (r : Robot) : Snapshot :=
  {| snapID := ID r; snapNamespace := Namespace r; snapName := Name r;
     snapIP := IP r; snapPort := Port r; snapConnected := Connected r;
     snapMapReceived := MapReceived r; snapTF := TF r;
     snapTFReceived := TFReceived r |}.

(** *** manager.go: the broadcast hub *)

(** The [Data interface{}] of a broadcast message. *)
Inductive Payload :=
  | NoData
  | MapPayload (md : rosbridge.MapData)
  | TFPayload (tf : rosbridge.TFData)
  | SnapshotPayload (s : Snapshot).

Record BroadcastMsg := {
  MsgType : string;
  RobotID : string;
  MsgData : Payload
}.

(** A buffered channel of broadcast messages. *)
Record Chan := { buf : list BroadcastMsg; cap : nat; closed : bool }.

Abbreviation chanref := nat (only parsing).

(** [Manager]. [heap] holds the channels made by [Subscribe], named by
    allocation order; [subscribers] is the set of registered ones. *)
Record Manager := {
  robots : gmap string Robot;
  currentID : string;
  nextID : Z;
  subscribers : gset chanref;
  heap : list Chan
}.

Definition NewManager : Manager :=
  {| robots := ∅; currentID := ""; nextID := 1;
     subscribers := ∅; heap := [] |}.

Definition set_robots (rs : gmap string Robot) (m : Manager) : Manager :=
  {| robots := rs; currentID := currentID m; nextID := nextID m;
     subscribers := subscribers m; heap := heap m |}.

Definition set_currentID (id : string) (m : Manager) : Manager :=
  {| robots := robots m; currentID := id; nextID := nextID m;
     subscribers := subscribers m; heap := heap m |}.

Definition set_nextID (n : Z) (m : Manager) : Manager :=
  {| robots := robots m; currentID := currentID m; nextID := n;
     subscribers := subscribers m; heap := heap m |}.

Definition set_hub (s : gset chanref) (h : list Chan) (m : Manager) : Manager :=
  {| robots := robots m; currentID := currentID m; nextID := nextID m;
     subscribers := s; heap := h |}.

(** [Subscribe]: [make(chan BroadcastMsg, 100)], registered. *)
Definition Subscribe (m : Manager) : chanref * Manager :=
  let ch := length (heap m) in
  (ch, set_hub ({[ch]} ∪ subscribers m)
               (heap m ++ [{| buf := []; cap := 100; closed := false |}]) m).

(** [Unsubscribe]: [delete(m.subscribers, ch)], then [close(ch)]. Closing a
    closed (or nil) channel panics. *)
Definition Unsubscribe (ch : chanref) (m : Manager) : outcome Manager :=
  let subs := subscribers m ∖ {[ch]} in
  match heap m !! ch with
  | None => Panics "close of nil channel"
  | Some c =>
      if closed c then Panics "close of closed channel"
      else Returns (set_hub subs
                      (<[ch := {| buf := buf c; cap := cap c; closed := true |}]>
                         (heap m)) m)
  end.

(** What [select { case ch <- msg: default: }] does to an open channel. *)
Definition deliver (msg : BroadcastMsg) (c : Chan) : Chan :=
  if (length (buf c) <? cap c)%nat
  then {| buf := buf c ++ [msg]; cap := cap c; closed := closed c |}
  else c.

(** The loop [for ch := range m.subscribers] of [Broadcast], visiting the
    channels in the order [order]. A send on a closed channel panics; a nil
    channel is never ready, so the [default] case runs. *)
Fixpoint broadcastTo (msg : BroadcastMsg) (order : list chanref)
    (h : list Chan) : outcome (list Chan) :=
  match order with
  | [] => Returns h
  | ch :: rest =>
      match h !! ch with
      | None => broadcastTo msg rest h
      | Some c =>
          if closed c then Panics "send on closed channel"
          else broadcastTo msg rest (<[ch := deliver msg c]> h)
      end
  end.

(** [Broadcast]. Go leaves the iteration order of a map open; the model
    visits the subscribers in the order of [elements]. *)
Definition Broadcast (msg : BroadcastMsg) (m : Manager) : outcome Manager :=
  match broadcastTo msg (elements (subscribers m)) (heap m) with
  | Returns h => Returns (set_hub (subscribers m) h m)
  | Panics e => Panics e
  end.

(** A subscriber takes the next message off its queue. *)
Definition receive (ch : chanref) (m : Manager)
    : option (BroadcastMsg * Manager) :=
  c ← heap m !! ch;
  match buf c with
  | [] => None
  | msg :: rest =>
      Some (msg, set_hub (subscribers m)
                   (<[ch := {| buf := rest; cap := cap c; closed := closed c |}]>
                      (heap m)) m)
  end.

(** *** manager.go: the registry *)

(** The duplicate check of [AddRobot]: some robot has this IP and port. *)
Definition duplicate (ip : string) (port : Z) (rs : gmap string Robot) : bool :=
  existsb (λ kr, String.eqb (IP kr.2) ip && (Port kr.2 =? port)%Z)
          (map_to_list rs).

(** [fmt.Errorf("robot at %s:%d already exists", ip, port)]. *)
Definition conflictError (ip : string) (port : Z) : error :=
  Errorf ("robot at " +:+ ip +:+ ":" +:+ Sprintf_d port +:+ " already exists").

(** [fmt.Errorf("robot %s not found", id)]. *)
Definition notFoundError (id : string) : error :=
  Errorf ("robot " +:+ id +:+ " not found").

(** [AddRobot]. The wrappers it puts around the callbacks of the new link
    call the robot's own callback and then [Broadcast]; the callback fields
    stay non-nil, which is all the parsers look at. *)
Definition AddRobot (ns name ip : string) (port : Z) (m : Manager)
    : outcome (Manager * (Robot + error)) :=
  if duplicate ip port (robots m) then Returns (m, inr (conflictError ip port))
  else
    let id := Sprintf_d (nextID m) in
    let m := set_nextID (wrap64 (nextID m + 1)) m in
    let r := NewRobot id ns name ip port in
    let m := set_robots (<[id := r]> (robots m)) m in
    let m := if String.eqb (currentID m) "" then set_currentID id m else m in
    match Broadcast {| MsgType := "robot_added"; RobotID := id;
                       MsgData := SnapshotPayload (GetSnapshot r) |} m with
    | Returns m => Returns (m, inl r)
    | Panics e => Panics e
    end.

(** The key the loop [for k := range m.robots { ...; break }] sees first.
    Go starts a map iteration at a random place: [seed] stands for that
    choice. [None] when the map is empty. *)
Definition rangeFirst (seed : nat) (rs : gmap string Robot) : option string :=
  let ks := (map_to_list rs).*1 in
  ks !! (seed `mod` length ks)%nat.

(** [RemoveRobot]. [r.StopConnection()] acts on the link of the robot that is
    deleted by the next statement, so it leaves no trace in the manager.
    [seed] fixes where the range loop over the remaining robots starts. *)
Definition RemoveRobot (seed : nat) (id : string) (m : Manager)
    : outcome (Manager * option error) :=
  match robots m !! id with
  | None => Returns (m, Some (notFoundError id))
  | Some _ =>
      let m := set_robots (delete id (robots m)) m in
      let m := if String.eqb (currentID m) id
               then set_currentID (default "" (rangeFirst seed (robots m))) m
               else m in
      match Broadcast {| MsgType := "robot_removed"; RobotID := id;
                         MsgData := NoData |} m with
      | Returns m => Returns (m, None)
      | Panics e => Panics e
      end
  end.

Definition SwitchRobot (id : string) (m : Manager)
    : outcome (Manager * option error) :=
  match robots m !! id with
  | None => Returns (m, Some (notFoundError id))
  | Some _ =>
      let m := set_currentID id m in
      match Broadcast {| MsgType := "robot_switched"; RobotID := id;
                         MsgData := NoData |} m with
      | Returns m => Returns (m, None)
      | Panics e => Panics e
      end
  end.

Definition GetCurrentRobot (m : Manager) : option Robot :=
  if String.eqb (currentID m) "" then None else robots m !! currentID m.

Definition GetCurrentRobotID (m : Manager) : string := currentID m.

Definition GetRobotCount (m : Manager) : nat := size (robots m).

(** The calls a client of the manager can make, and the states they lead to
    when they return. *)
Inductive op :=
  | OpAddRobot (ns name ip : string) (port : Z)
  | OpRemoveRobot (seed : nat) (id : string)
  | OpSwitchRobot (id : string)
  | OpSubscribe
  | OpUnsubscribe (ch : chanref).

Definition exec (o : op) (m : Manager) : outcome Manager :=
  match o with
  | OpAddRobot ns name ip port =>
      match AddRobot ns name ip port m with
      | Returns (m', _) => Returns m'
      | Panics e => Panics e
      end
  | OpRemoveRobot seed id =>
      match RemoveRobot seed id m with
      | Returns (m', _) => Returns m'
      | Panics e => Panics e
      end
  | OpSwitchRobot id =>
      match SwitchRobot id m with
      | Returns (m', _) => Returns m'
      | Panics e => Panics e
      end
  | OpSubscribe => Returns (Subscribe m).2
  | OpUnsubscribe ch => Unsubscribe ch m
  end.

Inductive reachable : Manager → Prop :=
  | reachable_new : reachable NewManager
  | reachable_exec m o m' :
      reachable m → exec o m = Returns m' → reachable m'.

(** A sequence of calls, stopping at the first panic. *)
Fixpoint execAll (os : list op) (m : Manager) : outcome Manager :=
  match os with
  | [] => Returns m
  | o :: rest =>
      match exec o m with
      | Returns m' => execAll rest m'
      | Panics e => Panics e
      end
  end.

(** *** Predicates of the properties below *)

(** Every registered queue exists and is open. *)
Definition hubOpen (m : Manager) : bool :=
  forallb (λ ch, match heap m !! ch with
                 | Some c => negb (closed c)
                 | None => false
                 end)
          (elements (subscribers m)).

(** No robot is registered under the empty id, the selection is empty
    exactly when no robot is registered, and a non-empty selection is the id
    of a registered robot. *)
Definition selectionOK (m : Manager) : Prop :=
  robots m !! "" = None ∧
  (currentID m = "" ↔ robots m = ∅) ∧
  (currentID m ≠ "" → is_Some (robots m !! currentID m)).

End robot.

(** ** Package handlers *)
Module handlers.

(** *** ws_handler.go: one browser connection *)

(** The state [WSHandler] sets up: the manager it subscribed to, its queue
    [bcast], the [done] channel, the [sync.Once] of [cleanup] and the
    browser socket. *)
Record Bridge := {
  manager : robot.Manager;
  bcast : robot.chanref;
  doneClosed : bool;
  closeOnce : bool;
  connClosed : bool
}.

(** The prologue of [WSHandler]: [bcast := s.Manager.Subscribe()],
    [done := make(chan struct{})], [var closeOnce sync.Once]. *)
Definition accept (m : robot.Manager) : Bridge :=
  let '(ch, m) := robot.Subscribe m in
  {| manager := m; bcast := ch; doneClosed := false; closeOnce := false;
     connClosed := false |}.

(** [cleanup]: under [closeOnce.Do], [close(done)],
    [s.Manager.Unsubscribe(bcast)], [conn.Close()]. *)
Definition cleanup (b : Bridge) : outcome Bridge :=
  if closeOnce b then Returns b
  else if doneClosed b then Panics "close of closed channel"
  else match robot.Unsubscribe (bcast b) (manager b) with
       | Returns m =>
           Returns {| manager := m; bcast := bcast b; doneClosed := true;
                      closeOnce := true; connClosed := true |}
       | Panics e => Panics e
       end.

(** Instants and durations in nanoseconds. [zeroTime] is the zero
    [time.Time] (1 January of year 1) counted from the Unix epoch. *)
Definition zeroTime : Z := (-62135596800 * 1000000000)%Z.
Definition maxDuration : Z := (2 ^ 63 - 1)%Z.
Definition minDuration : Z := (- 2 ^ 63)%Z.
Definition Millisecond : Z := 1000000%Z.

(** [t.Sub(u)]: the difference, saturated to the range of [Duration]. *)
Definition Sub (t u : Z) : Z := Z.max minDuration (Z.min maxDuration (t - u)).

(** What a turn of the writer's [select] can see: [done] closed, [bcast]
    closed, or a message; with a message come the reading of [time.Now()]
    in that turn and whether [conn.WriteJSON] succeeds. *)
Inductive pumpIn :=
  | Done
  | Closed
  | Msg (msg : robot.BroadcastMsg) (now : Z) (writeOK : bool).

(** The writer goroutine, from [lastMapSend] on: the messages it writes to
    the browser socket, each with the clock reading of its turn. *)
Fixpoint pump (lastMapSend : Z) (ins : list pumpIn)
    : list (robot.BroadcastMsg * Z) :=
  match ins with
  | [] => []
  | Done :: _ => []
  | Closed :: _ => []
  | Msg msg now writeOK :: rest =>
      if String.eqb (robot.MsgType msg) "map" then
        if (Sub now lastMapSend <? 500 * Millisecond)%Z then
          pump lastMapSend rest
        else if writeOK then (msg, now) :: pump now rest
        else []
      else if writeOK then (msg, now) :: pump lastMapSend rest
      else []
  end.

(** The writer goroutine as started: [var lastMapSend time.Time]. *)
Definition writer (ins : list pumpIn) : list (robot.BroadcastMsg * Z) :=
  pump zeroTime ins.

Definition isMap (msg : robot.BroadcastMsg) : bool :=
  String.eqb (robot.MsgType msg) "map".

(** The messages of the turns in [ins]. *)
Definition offered (ins : list pumpIn) : list robot.BroadcastMsg :=
  omap (λ i, match i with Msg msg _ _ => Some msg | _ => None end) ins.

(** The connection stays up over [ins]: neither channel is closed and every
    write succeeds. *)
Definition live (ins : list pumpIn) : bool :=
  forallb (λ i, match i with Msg _ _ ok => ok | _ => false end) ins.

(** *** Predicates of the properties below *)

Definition notMap (msg : robot.BroadcastMsg) : bool := negb (isMap msg).

(** A written map event whose clock reading lies in [w, w + 500ms). *)
Definition mapInWindow (w : Z) (x : robot.BroadcastMsg * Z) : bool :=
  isMap x.1 && (w <=? x.2)%Z && (x.2 <? w + 500 * Millisecond)%Z.

End handlers.

(** ** Package robot: navigation.go, and the navigation handlers *)
Module navigation.

(** *** types.go *)

Record NavigationPoint := {
  Name : string;
  ImageXPx : float; ImageYPx : float; ImageThetaDeg : float;
  WorldXM : float; WorldYM : float; WorldThetaRad : float
}.

Record WallObstacle := {
  ImageXPxStart : float; ImageYPxStart : float;
  ImageXPxEnd : float; ImageYPxEnd : float;
  WorldXMStart : float; WorldYMStart : float;
  WorldXMEnd : float; WorldYMEnd : float
}.

(** A Go slice: nil, or a sequence that may be empty. The two differ for
    whoever reads the robot's JSON ([GetSnapshot], [ListNavigationPoints]):
    nil is encoded as [null], an empty slice as [[]]. *)
Inductive slice (A : Type) :=
  | Nil
  | Slice (l : list A).
Arguments Nil {A}.
Arguments Slice {A} l.

(** The elements [range] visits. *)
Definition elems {A : Type} (s : slice A) : list A :=
  match s with
  | Nil => []
  | Slice l => l
  end.

(** [append(s, x)]: never nil. *)
Definition append {A : Type} (s : slice A) (x : A) : slice A :=
  Slice (elems s ++ [x]).

(** [len(s)]. *)
Definition len {A : Type} (s : slice A) : nat := length (elems s).

(** [json.Marshal] writes [null] for the slice. *)
Definition encodesNull {A : Type} (s : slice A) : bool :=
  match s with
  | Nil => true
  | Slice _ => false
  end.

(** The navigation fields of [Robot] ([robot.Robot] leaves them out). *)
Record Points := {
  Waypoints : slice NavigationPoint;
  ServicePoints : slice NavigationPoint;
  PatrolPoints : slice NavigationPoint;
  PathPoints : slice NavigationPoint;
  WallObstacles : slice WallObstacle
}.

(** The navigation fields as [NewRobot] leaves them: nil. *)
Definition noPoints : Points :=
  {| Waypoints := Nil; ServicePoints := Nil; PatrolPoints := Nil;
     PathPoints := Nil; WallObstacles := Nil |}.

Definition set_Waypoints (l : slice NavigationPoint) (rb : Points) : Points :=
  {| Waypoints := l; ServicePoints := ServicePoints rb;
     PatrolPoints := PatrolPoints rb; PathPoints := PathPoints rb;
     WallObstacles := WallObstacles rb |}.

Definition set_ServicePoints (l : slice NavigationPoint) (rb : Points)
    : Points :=
  {| Waypoints := Waypoints rb; ServicePoints := l;
     PatrolPoints := PatrolPoints rb; PathPoints := PathPoints rb;
     WallObstacles := WallObstacles rb |}.

Definition set_PatrolPoints (l : slice NavigationPoint) (rb : Points)
    : Points :=
  {| Waypoints := Waypoints rb; ServicePoints := ServicePoints rb;
     PatrolPoints := l; PathPoints := PathPoints rb;
     WallObstacles := WallObstacles rb |}.

Definition set_PathPoints (l : slice NavigationPoint) (rb : Points) : Points :=
  {| Waypoints := Waypoints rb; ServicePoints := ServicePoints rb;
     PatrolPoints := PatrolPoints rb; PathPoints := l;
     WallObstacles := WallObstacles rb |}.

Definition set_WallObstacles (l : slice WallObstacle) (rb : Points) : Points :=
  {| Waypoints := Waypoints rb; ServicePoints := ServicePoints rb;
     PatrolPoints := PatrolPoints rb; PathPoints := PathPoints rb;
     WallObstacles := l |}.

(** *** navigation.go *)

(** The loop of [validateAndCreate] that looks for a point named [name]. *)
Definition nameTaken (name : string) (existing : list NavigationPoint) : bool :=
  existsb (λ pt, String.eqb (Name pt) name) existing.

(** [validateAndCreate]: the new point, or the error. [pointType] is one of
    the words the [Add...] methods pass; for any other word [existing] stays
    the nil slice it is declared as. *)
Definition validateAndCreate (rb : Points) (pointType name : string)
    (x y theta : float) : NavigationPoint + error :=
  if String.eqb name "" then
    inr (Errorf (pointType +:+ " name cannot be empty"))
  else
    let existing :=
      if String.eqb pointType "waypoint" then Waypoints rb
      else if String.eqb pointType "servicepoint" then ServicePoints rb
      else if String.eqb pointType "patrolpoint" then PatrolPoints rb
      else if String.eqb pointType "pathpoint" then PathPoints rb
      else Nil in
    if nameTaken name (elems existing) then
      inr (Errorf ("duplicate " +:+ pointType +:+ " name: " +:+ name))
    else
      inl {| Name := name;
             ImageXPx := PrimFloat.zero; ImageYPx := PrimFloat.zero;
             ImageThetaDeg := PrimFloat.zero;
             WorldXM := x; WorldYM := y; WorldThetaRad := theta |}.

Definition AddWaypoint (name : string) (x y theta : float) (rb : Points)
    : Points * option error :=
  match validateAndCreate rb "waypoint" name x y theta with
  | inr err => (rb, Some err)
  | inl pt => (set_Waypoints (append (Waypoints rb) pt) rb, None)
  end.

Definition AddServicePoint (name : string) (x y theta : float) (rb : Points)
    : Points * option error :=
  match validateAndCreate rb "servicepoint" name x y theta with
  | inr err => (rb, Some err)
  | inl pt => (set_ServicePoints (append (ServicePoints rb) pt) rb, None)
  end.

Definition AddPatrolPoint (name : string) (x y theta : float) (rb : Points)
    : Points * option error :=
  match validateAndCreate rb "patrolpoint" name x y theta with
  | inr err => (rb, Some err)
  | inl pt => (set_PatrolPoints (append (PatrolPoints rb) pt) rb, None)
  end.

Definition AddPathPoint (name : string) (x y theta : float) (rb : Points)
    : Points * option error :=
  match validateAndCreate rb "pathpoint" name x y theta with
  | inr err => (rb, Some err)
  | inl pt => (set_PathPoints (append (PathPoints rb) pt) rb, None)
  end.

(** [AddWallObstacle]: the name is only checked, the wall does not keep it. *)
Definition AddWallObstacle (name : string) (x1 y1 x2 y2 : float) (rb : Points)
    : Points * option error :=
  if String.eqb name "" then
    (rb, Some (Errorf "wall obstacle name cannot be empty"))
  else
    let wall := {| ImageXPxStart := PrimFloat.zero;
                   ImageYPxStart := PrimFloat.zero;
                   ImageXPxEnd := PrimFloat.zero;
                   ImageYPxEnd := PrimFloat.zero;
                   WorldXMStart := x1; WorldYMStart := y1;
                   WorldXMEnd := x2; WorldYMEnd := y2 |} in
    (set_WallObstacles (append (WallObstacles rb) wall) rb, None).

Definition ClearWaypoints (rb : Points) : Points := set_Waypoints Nil rb.
Definition ClearServicePoints (rb : Points) : Points := set_ServicePoints Nil rb.
Definition ClearPatrolPoints (rb : Points) : Points := set_PatrolPoints Nil rb.
Definition ClearPathPoints (rb : Points) : Points := set_PathPoints Nil rb.

(** [ClearAllPoints]: the five fields are set to nil. *)
Definition ClearAllPoints (rb : Points) : Points := noPoints.

(** The loop of [removeByName]: the points whose name differs from [name],
    in order. *)
Fixpoint keepOthers (pts : list NavigationPoint) (name : string)
    : list NavigationPoint :=
  match pts with
  | [] => []
  | p :: rest =>
      if negb (String.eqb (Name p) name) then p :: keepOthers rest name
      else keepOthers rest name
  end.

(** [removeByName]: [result] is made by [make] and so is not nil, whatever
    [pts] is and whether or not a point is left out. *)
Definition removeByName (pts : slice NavigationPoint) (name : string)
    : slice NavigationPoint :=
  Slice (keepOthers (elems pts) name).

Definition DeletePoint (pointType name : string) (rb : Points) : Points :=
  if String.eqb pointType "waypoint" then
    set_Waypoints (removeByName (Waypoints rb) name) rb
  else if String.eqb pointType "service_point" then
    set_ServicePoints (removeByName (ServicePoints rb) name) rb
  else if String.eqb pointType "patrol_point" then
    set_PatrolPoints (removeByName (PatrolPoints rb) name) rb
  else if String.eqb pointType "path_point" then
    set_PathPoints (removeByName (PathPoints rb) name) rb
  else rb.

(** [GetCounts]. *)
Definition GetCounts (rb : Points) : nat * nat * nat * nat * nat :=
  (len (Waypoints rb), len (ServicePoints rb), len (PatrolPoints rb),
   len (PathPoints rb), len (WallObstacles rb)).

(** *** robot.go *)

(** [ImportPoints]: replaces one list wholesale, without any check. *)
Definition ImportPoints (pointType : string) (points : slice NavigationPoint)
    (walls : slice WallObstacle) (rb : Points) : Points :=
  if String.eqb pointType "waypoint" then set_Waypoints points rb
  else if String.eqb pointType "service_point" then set_ServicePoints points rb
  else if String.eqb pointType "patrol_point" then set_PatrolPoints points rb
  else if String.eqb pointType "path_point" then set_PathPoints points rb
  else if String.eqb pointType "wall" then set_WallObstacles walls rb
  else rb.

(** *** The navigation handlers, on the selected robot *)

(** What a handler answers: 200, or an error status with its message. *)
Inductive reply :=
  | OK
  | BadRequest (msg : string).

Definition errorText (e : error) : string :=
  match e with
  | Errorf msg => msg
  | WriteError msg => msg
  end.

(** [AddNavigationPoint]: [x], [y], [theta], [x2], [y2] are the form values
    after [strconv.ParseFloat] (0 when they do not parse). *)
Definition AddNavigationPoint (pointType name : string)
    (x y theta x2 y2 : float) (rb : Points) : Points * reply :=
  let dispatch (r : Points * option error) : Points * reply :=
    match r.2 with
    | Some err => (r.1, BadRequest (errorText err))
    | None => (r.1, OK)
    end in
  if String.eqb pointType "waypoint" then
    dispatch (AddWaypoint name x y theta rb)
  else if String.eqb pointType "service_point" then
    dispatch (AddServicePoint name x y theta rb)
  else if String.eqb pointType "patrol_point" then
    dispatch (AddPatrolPoint name x y theta rb)
  else if String.eqb pointType "path_point" then
    dispatch (AddPathPoint name x y theta rb)
  else if String.eqb pointType "wall" then
    dispatch (AddWallObstacle name x y x2 y2 rb)
  else (rb, BadRequest "invalid point type").

(** [DeleteNavPoint]. *)
Definition DeleteNavPoint (pointType name : string) (rb : Points)
    : Points * reply :=
  (DeletePoint pointType name rb, OK).

(** [ClearNavigationPoints]; clearing the walls also notifies the robot,
    which does not touch the lists. *)
Definition ClearNavigationPoints (pointType : string) (rb : Points)
    : Points * reply :=
  if String.eqb pointType "waypoint" then (ClearWaypoints rb, OK)
  else if String.eqb pointType "service_point" then (ClearServicePoints rb, OK)
  else if String.eqb pointType "patrol_point" then (ClearPatrolPoints rb, OK)
  else if String.eqb pointType "path_point" then (ClearPathPoints rb, OK)
  else if String.eqb pointType "wall" then (set_WallObstacles Nil rb, OK)
  else (rb, BadRequest "invalid point type").

(** A request to one of the three handlers. *)
Inductive request :=
  | Add (pointType name : string) (x y theta x2 y2 : float)
  | Delete (pointType name : string)
  | Clear (pointType : string).

Definition serve (q : request) (rb : Points) : Points * reply :=
  match q with
  | Add pointType name x y theta x2 y2 =>
      AddNavigationPoint pointType name x y theta x2 y2 rb
  | Delete pointType name => DeleteNavPoint pointType name rb
  | Clear pointType => ClearNavigationPoints pointType rb
  end.

(** The lists after a sequence of requests. *)
Definition serveAll (qs : list request) (rb : Points) : Points :=
  fold_left (λ rb q, (serve q rb).1) qs rb.

(** *** Predicates of the properties below *)

Definition names (pts : list NavigationPoint) : list string := Name <$> pts.

(** The names in a list are pairwise distinct and none is empty. *)
Definition wellNamed (pts : list NavigationPoint) : Prop :=
  NoDup (names pts) ∧ "" ∉ names pts.

Definition allWellNamed (rb : Points) : Prop :=
  wellNamed (elems (Waypoints rb)) ∧ wellNamed (elems (ServicePoints rb)) ∧
  wellNamed (elems (PatrolPoints rb)) ∧ wellNamed (elems (PathPoints rb)).

(** The four kinds of named points, the list each kind lives in, the method
    that adds to it and the word the handlers use for it. *)
Inductive slot := SWaypoint | SServicePoint | SPatrolPoint | SPathPoint.

Definition sliceOf (s : slot) (rb : Points) : slice NavigationPoint :=
  match s with
  | SWaypoint => Waypoints rb
  | SServicePoint => ServicePoints rb
  | SPatrolPoint => PatrolPoints rb
  | SPathPoint => PathPoints rb
  end.

(** The points of a kind. *)
Definition pointsOf (s : slot) (rb : Points) : list NavigationPoint :=
  elems (sliceOf s rb).

(** The robot with the slice of one kind replaced. *)
Definition set_sliceOf (s : slot) (l : slice NavigationPoint) (rb : Points)
    : Points :=
  match s with
  | SWaypoint => set_Waypoints l rb
  | SServicePoint => set_ServicePoints l rb
  | SPatrolPoint => set_PatrolPoints l rb
  | SPathPoint => set_PathPoints l rb
  end.

Definition addPoint (s : slot) (name : string) (x y theta : float)
    (rb : Points) : Points * option error :=
  match s with
  | SWaypoint => AddWaypoint name x y theta rb
  | SServicePoint => AddServicePoint name x y theta rb
  | SPatrolPoint => AddPatrolPoint name x y theta rb
  | SPathPoint => AddPathPoint name x y theta rb
  end.

Definition word (s : slot) : string :=
  match s with
  | SWaypoint => "waypoint"
  | SServicePoint => "service_point"
  | SPatrolPoint => "patrol_point"
  | SPathPoint => "path_point"
  end.

(** The point [validateAndCreate] builds. *)
Definition newPoint (name : string) (x y theta : float) : NavigationPoint :=
  {| Name := name;
     ImageXPx := PrimFloat.zero; ImageYPx := PrimFloat.zero;
     ImageThetaDeg := PrimFloat.zero;
     WorldXM := x; WorldYM := y; WorldThetaRad := theta |}.

End navigation.

(** ** Package robot: the velocity and frequency state of robot.go *)
Module telemetry.

(** The velocity fields of [Robot] ([robot.Robot] leaves them out). *)
Record Velocities := {
  Velocity : rosbridge.TwistData;
  VelocityHistory : list rosbridge.TwistData;
  MaxHistory : Z
}.

(** As [NewRobot] sets them: no sample yet, room for 100. *)
Definition newVelocities : Velocities :=
  {| Velocity := rosbridge.zeroTwistData; VelocityHistory := [];
     MaxHistory := 100 |}.

(** The [client.OnTwist] closure of [NewRobot]: the sample becomes the
    current velocity and is appended to the history, whose first element is
    dropped ([r.VelocityHistory[1:]]) when it has grown past [MaxHistory]. *)
Definition onTwist (t : rosbridge.TwistData) (r : Velocities) : Velocities :=
  let history := VelocityHistory r ++ [t] in
  {| Velocity := t;
     VelocityHistory :=
       if (MaxHistory r <? Z.of_nat (length history))%Z then drop 1 history
       else history;
     MaxHistory := MaxHistory r |}.

(** The samples [ts] arriving one after the other. *)
Definition onTwists (ts : list rosbridge.TwistData) (r : Velocities)
    : Velocities :=
  fold_left (λ r t, onTwist t r) ts r.

(** [GetVelocityHistory]: a copy of the history. *)
Definition GetVelocityHistory (r : Velocities) : list rosbridge.TwistData :=
  VelocityHistory r.

(** [time.Second], in nanoseconds. *)
Definition Second : Z := 1000000000%Z.

(** [measureHz], given the reading of [time.Now()]: the rate it returns and
    the instant it stores in [*last]. Instants are nanoseconds since the
    Unix epoch, the zero [time.Time] is [handlers.zeroTime]. *)
Definition measureHz (now last : Z) : Z * Z :=
  if (last =? handlers.zeroTime)%Z then (0%Z, now)
  else
    let elapsed := handlers.Sub now last in
    (if (0 <? elapsed)%Z then Z.quot Second elapsed else 0%Z, now).

(** One frequency counter of [Robot]: a pair such as [lastMapTime], [MapHz]. *)
Record Counter := { lastTime : Z; Hz : Z }.

(** The counter of a new robot. *)
Definition newCounter : Counter :=
  {| lastTime := handlers.zeroTime; Hz := 0 |}.

(** The statement [r.MapHz = r.measureHz(&r.lastMapTime)] of a sensor
    callback (and its siblings for TF, odometry and laser). *)
Definition sample (now : Z) (c : Counter) : Counter :=
  let '(hz, last) := measureHz now (lastTime c) in
  {| lastTime := last; Hz := hz |}.

(** Samples arriving at the instants [ts], in this order. *)
Definition samples (ts : list Z) (c : Counter) : Counter :=
  fold_left (λ c now, sample now c) ts c.

End telemetry.

(** ** Package rosbridge: subscriptions, routing and the life of a link *)
Module session.
Import rosbridge.

(** *** protocol.go: topic types *)

Definition TypeOccupancyGrid : string := "nav_msgs/msg/OccupancyGrid".
Definition TypeOdometry : string := "nav_msgs/msg/Odometry".
Definition TypeTFMessage : string := "tf2_msgs/msg/TFMessage".
Definition TypeLaserScan : string := "sensor_msgs/msg/LaserScan".

(** *** client.go: topic subscriptions *)

(** The topic-name fields of [Client] that [rosbridge.Client] leaves out
    ([topicCmdVel] is there). A link with its topic names is a pair. *)
Record Topics := {
  topicMap : string;
  topicTF : string;
  topicOdom : string;
  topicCtrlOdom : string;
  topicLaser : string;
  topicMapBfp : string
}.

(** The names on a link made by [NewClient]. *)
Definition noTopics : Topics :=
  {| topicMap := ""; topicTF := ""; topicOdom := ""; topicCtrlOdom := "";
     topicLaser := ""; topicMapBfp := "" |}.

Definition set_topicMap (s : string) (t : Topics) : Topics :=
  {| topicMap := s; topicTF := topicTF t; topicOdom := topicOdom t;
     topicCtrlOdom := topicCtrlOdom t; topicLaser := topicLaser t;
     topicMapBfp := topicMapBfp t |}.

Definition set_topicTF (s : string) (t : Topics) : Topics :=
  {| topicMap := topicMap t; topicTF := s; topicOdom := topicOdom t;
     topicCtrlOdom := topicCtrlOdom t; topicLaser := topicLaser t;
     topicMapBfp := topicMapBfp t |}.

Definition set_topicOdom (s : string) (t : Topics) : Topics :=
  {| topicMap := topicMap t; topicTF := topicTF t; topicOdom := s;
     topicCtrlOdom := topicCtrlOdom t; topicLaser := topicLaser t;
     topicMapBfp := topicMapBfp t |}.

Definition set_topicCtrlOdom (s : string) (t : Topics) : Topics :=
  {| topicMap := topicMap t; topicTF := topicTF t; topicOdom := topicOdom t;
     topicCtrlOdom := s; topicLaser := topicLaser t;
     topicMapBfp := topicMapBfp t |}.

Definition set_topicLaser (s : string) (t : Topics) : Topics :=
  {| topicMap := topicMap t; topicTF := topicTF t; topicOdom := topicOdom t;
     topicCtrlOdom := topicCtrlOdom t; topicLaser := s;
     topicMapBfp := topicMapBfp t |}.

Definition set_topicMapBfp (s : string) (t : Topics) : Topics :=
  {| topicMap := topicMap t; topicTF := topicTF t; topicOdom := topicOdom t;
     topicCtrlOdom := topicCtrlOdom t; topicLaser := topicLaser t;
     topicMapBfp := s |}.

(** The body the [Subscribe...] methods share: the default suffix when the
    argument is empty, the full name recorded, the subscribe frame sent
    (the result of [send] is dropped). *)
Definition subscribe (suffix msgType : string)
    (record : string → Topics → Topics) (topic : string)
    (ct : Client * Topics) : Client * Topics :=
  let topic := if String.eqb topic "" then suffix else topic in
  let full := ns ct.1 +:+ topic in
  ((send (SubscribeMsg full msgType) ct.1).1, record full ct.2).

Definition SubscribeMap : string → Client * Topics → Client * Topics :=
  subscribe "/map" TypeOccupancyGrid set_topicMap.

Definition SubscribeTF : string → Client * Topics → Client * Topics :=
  subscribe "/tf" TypeTFMessage set_topicTF.

Definition SubscribeOdom : string → Client * Topics → Client * Topics :=
  subscribe "/odom" TypeOdometry set_topicOdom.

Definition SubscribeControllerOdom
    : string → Client * Topics → Client * Topics :=
  subscribe "/diff_controller/odom" TypeOdometry set_topicCtrlOdom.

Definition SubscribeLaser : string → Client * Topics → Client * Topics :=
  subscribe "/scan" TypeLaserScan set_topicLaser.

Definition SubscribeMapBfp : string → Client * Topics → Client * Topics :=
  subscribe "/map_bfp_publisher" "" set_topicMapBfp.

Definition SubscribeCmdVel (topic : string) (ct : Client * Topics)
    : Client * Topics :=
  (rosbridge.SubscribeCmdVel topic ct.1, ct.2).

Definition SubscribeAllTopics (ct : Client * Topics) : Client * Topics :=
  SubscribeCmdVel ""
    (SubscribeMapBfp ""
       (SubscribeLaser ""
          (SubscribeControllerOdom ""
             (SubscribeOdom "" (SubscribeTF "" (SubscribeMap "" ct)))))).

(** The slice [topics] of [UnsubscribeAll]. *)
Definition recorded (ct : Client * Topics) : list string :=
  [topicMap ct.2; topicCmdVel ct.1; topicTF ct.2; topicOdom ct.2;
   topicCtrlOdom ct.2; topicLaser ct.2; topicMapBfp ct.2].

Definition UnsubscribeAll (ct : Client * Topics) : Client * Topics :=
  (fold_left
     (λ c t, if negb (String.eqb t "") then (send (UnsubscribeMsg t) c).1
             else c)
     (recorded ct) ct.1,
   ct.2).

(** *** client.go: routing of inbound frames *)

(** The parser a publish frame is handed to. *)
Inductive parser :=
  | ParseMap
  | ParseTwist
  | ParseTF
  | ParseOdom (isController : bool)
  | ParseLaser
  | ParseMapBfp.

(** [handlePublish]: the [switch topic] over the recorded names, first
    match first; [None] when no case matches. *)
Definition handlePublish (topic : string) (ct : Client * Topics)
    : option parser :=
  if String.eqb topic (topicMap ct.2) then Some ParseMap
  else if String.eqb topic (topicCmdVel ct.1) then Some ParseTwist
  else if String.eqb topic (topicTF ct.2) then Some ParseTF
  else if String.eqb topic (topicOdom ct.2) then Some (ParseOdom false)
  else if String.eqb topic (topicCtrlOdom ct.2) then Some (ParseOdom true)
  else if String.eqb topic (topicLaser ct.2) then Some ParseLaser
  else if String.eqb topic (topicMapBfp ct.2) then Some ParseMapBfp
  else None.

(** The envelope [handleMessage] decodes ([msg] goes to the parser as is). *)
Record Envelope := { Op : string; Topic : string; ID : string }.

Inductive routed :=
  | ToParser (p : parser)
  | ToService (id : string)
  | Discarded.

(** [handleMessage]; [None] is a frame that does not decode. *)
Definition handleMessage (frame : option Envelope) (ct : Client * Topics)
    : routed :=
  match frame with
  | None => Discarded
  | Some e =>
      if String.eqb (Op e) "publish" then
        match handlePublish (Topic e) ct with
        | Some p => ToParser p
        | None => Discarded
        end
      else if String.eqb (Op e) "service_response" then ToService (ID e)
      else Discarded
  end.

(** *** client.go: connecting and disconnecting *)

(** What a method starts or signals. A callback is started under its nil
    guard: [GoOnConnected] stands for
    [if c.OnConnected != nil { go c.OnConnected() }]. [StopPublisher] is
    [disconnect]'s [cmdVelTicker.Stop()] with its non-blocking send on
    [stopCh]. *)
Inductive effect :=
  | GoReadLoop
  | GoCmdVelPublisher
  | GoOnConnected
  | GoOnDisconnected
  | GoScheduleReconnect
  | StopPublisher.

(** [conn.Close()]: every later write fails. *)
Definition closeConn (k : Conn) : Conn :=
  {| werr := Some "use of closed network connection"; written := written k |}.

(** [Connect]; [dial] is the outcome of [dialer.Dial]: the socket, or the
    text of the error [Connect] returns (dial, url and cause). *)
Definition Connect (dial : Conn + string) (c : Client)
    : Client * option error * list effect :=
  if connected c then (c, None, [])
  else match dial with
       | inr e => (c, Some (Errorf e), [GoScheduleReconnect])
       | inl k =>
           (set_connected true (set_conn (Some k) c), None,
            [GoReadLoop; GoCmdVelPublisher; GoOnConnected])
       end.

(** [Disconnect] (and the [disconnect] it wraps). *)
Definition Disconnect (c : Client) : Client * list effect :=
  if negb (connected c) then (c, [])
  else (set_conn (closeConn <$> conn c) (set_connected false c),
        [StopPublisher; GoOnDisconnected]).

(** The branch of [readLoop] taken when [ReadMessage] fails. *)
Definition readFailed (c : Client) : Client * list effect :=
  (set_connected false c,
   if connected c then [GoOnDisconnected; GoScheduleReconnect] else []).

(** [scheduleReconnect], once its three seconds are over. *)
Definition scheduleReconnect (dial : Conn + string) (c : Client)
    : Client * list effect :=
  if connected c then (c, [])
  else let '(c, _, effects) := Connect dial c in (c, effects).

(** [Robot.StopConnection]: [UnsubscribeAll], then [Disconnect]. *)
Definition StopConnection (ct : Client * Topics)
    : Client * Topics * list effect :=
  let ct := UnsubscribeAll ct in
  let '(c, effects) := Disconnect ct.1 in
  (c, ct.2, effects).

(** The link-side statements of the [OnConnected] closures:
    [SubscribeAllTopics()], [SetCmdVelEnabled(true)]. *)
Definition onConnected (ct : Client * Topics) : Client * Topics :=
  let ct := SubscribeAllTopics ct in
  (SetCmdVelEnabled true ct.1, ct.2).

(** *** Predicates of the properties below *)

(** The seven kinds of topic, with the method that subscribes to each, the
    field that records it, its default suffix and its message type. *)
Inductive kind :=
  | KMap | KCmdVel | KTF | KOdom | KCtrlOdom | KLaser | KMapBfp.

Definition subscribeTo (k : kind) : string → Client * Topics → Client * Topics :=
  match k with
  | KMap => SubscribeMap
  | KCmdVel => SubscribeCmdVel
  | KTF => SubscribeTF
  | KOdom => SubscribeOdom
  | KCtrlOdom => SubscribeControllerOdom
  | KLaser => SubscribeLaser
  | KMapBfp => SubscribeMapBfp
  end.

Definition topicOf (k : kind) (ct : Client * Topics) : string :=
  match k with
  | KMap => topicMap ct.2
  | KCmdVel => topicCmdVel ct.1
  | KTF => topicTF ct.2
  | KOdom => topicOdom ct.2
  | KCtrlOdom => topicCtrlOdom ct.2
  | KLaser => topicLaser ct.2
  | KMapBfp => topicMapBfp ct.2
  end.

Definition defaultSuffix (k : kind) : string :=
  match k with
  | KMap => "/map"
  | KCmdVel => "/diff_controller/cmd_vel_unstamped"
  | KTF => "/tf"
  | KOdom => "/odom"
  | KCtrlOdom => "/diff_controller/odom"
  | KLaser => "/scan"
  | KMapBfp => "/map_bfp_publisher"
  end.

Definition typeOf (k : kind) : string :=
  match k with
  | KMap => TypeOccupancyGrid
  | KCmdVel => TypeTwist
  | KTF => TypeTFMessage
  | KOdom | KCtrlOdom => TypeOdometry
  | KLaser => TypeLaserScan
  | KMapBfp => ""
  end.

Definition parserOf (k : kind) : parser :=
  match k with
  | KMap => ParseMap
  | KCmdVel => ParseTwist
  | KTF => ParseTF
  | KOdom => ParseOdom false
  | KCtrlOdom => ParseOdom true
  | KLaser => ParseLaser
  | KMapBfp => ParseMapBfp
  end.

(** The order in which [SubscribeAllTopics] subscribes. *)
Definition standard : list kind :=
  [KMap; KTF; KOdom; KCtrlOdom; KLaser; KMapBfp; KCmdVel].

Definition standardName (c : Client) (k : kind) : string :=
  ns c +:+ defaultSuffix k.

Definition subscribeFrame (c : Client) (k : kind) : Frame :=
  SubscribeMsg (standardName c k) (typeOf k).

Definition effect_eqb (a b : effect) : bool :=
  match a, b with
  | GoReadLoop, GoReadLoop
  | GoCmdVelPublisher, GoCmdVelPublisher
  | GoOnConnected, GoOnConnected
  | GoOnDisconnected, GoOnDisconnected
  | GoScheduleReconnect, GoScheduleReconnect
  | StopPublisher, StopPublisher => true
  | _, _ => false
  end.

(** How often [e] occurs in a trace. *)
Definition count (e : effect) (trace : list effect) : nat :=
  length (filter (λ x, effect_eqb e x = true) trace).

(** What happens to a link: a call of [Connect] or [Disconnect], a failed
    read of the read loop, a sleeping [scheduleReconnect] waking up. The
    second component of the state counts the [scheduleReconnect] goroutines
    that sleep; without one, none wakes up. *)
Inductive event :=
  | EvConnect (dial : Conn + string)
  | EvDisconnect
  | EvReadError
  | EvReconnect (dial : Conn + string).

Definition happen (e : event) (l : Client * nat)
    : Client * nat * list effect :=
  match e with
  | EvConnect dial =>
      let '(c, _, effects) := Connect dial l.1 in
      (c, l.2 + count GoScheduleReconnect effects, effects)
  | EvDisconnect =>
      let '(c, effects) := Disconnect l.1 in (c, l.2, effects)
  | EvReadError =>
      let '(c, effects) := readFailed l.1 in
      (c, l.2 + count GoScheduleReconnect effects, effects)
  | EvReconnect dial =>
      match l.2 with
      | O => (l, [])
      | S n =>
          let '(c, effects) := scheduleReconnect dial l.1 in
          (c, n + count GoScheduleReconnect effects, effects)
      end
  end.

Fixpoint play (es : list event) (l : Client * nat)
    : Client * nat * list effect :=
  match es with
  | [] => (l, [])
  | e :: rest =>
      let '(l, e1) := happen e l in
      let '(l, e2) := play rest l in
      (l, e1 ++ e2)
  end.

Definition isConnect (e : event) : bool :=
  match e with EvConnect _ => true | _ => false end.

Definition isDisconnect (e : event) : bool :=
  match e with EvDisconnect => true | _ => false end.

(** What the link does between two events. *)
Inductive use :=
  | USend (f : Frame)
  | UTick
  | USetDesiredCmdVel (t : TwistData)
  | USetCmdVelEnabled (b : bool)
  | USubscribe (k : kind) (suffix : string)
  | USubscribeAllTopics
  | UUnsubscribeAll.

Definition apply (u : use) (ct : Client * Topics) : Client * Topics :=
  match u with
  | USend f => ((send f ct.1).1, ct.2)
  | UTick => (publishCmdVelTick ct.1, ct.2)
  | USetDesiredCmdVel t => (SetDesiredCmdVel t ct.1, ct.2)
  | USetCmdVelEnabled b => (SetCmdVelEnabled b ct.1, ct.2)
  | USubscribe k suffix => subscribeTo k suffix ct
  | USubscribeAllTopics => SubscribeAllTopics ct
  | UUnsubscribeAll => UnsubscribeAll ct
  end.

Definition applyAll (us : list use) (ct : Client * Topics)
    : Client * Topics :=
  fold_left (λ ct u, apply u ct) us ct.

End session.

(** ** Package rosbridge: runs of [CallService] with responses *)
Module answers.
Import rosbridge.

(** *** Predicates of the properties below *)

(** The response call [k] is about to return or has returned. *)
Definition answer (k : Call) : option RawMessage :=
  match callPC k with
  | AtDefer (inl raw) | Returned (inl raw) => Some raw
  | _ => None
  end.

Definition returned (k : Call) : bool := negb (inFlight k).

(** The invariant of a run whose steps so far are [h]: the table is owned;
    call [g] waits on channel [g]; a response that sits in a channel, that
    the read loop is about to put into one, or that a call has taken out, was
    routed by a [Response] step carrying the id of that channel's call. *)
Record traced (h : list label) (l : Link) : Prop := {
  tr_owned : owned (svcPending (client l)) (calls l);
  tr_length : length (chans l) = length (calls l);
  tr_chan : ∀ g k, calls l !! g = Some k → callCh k = g;
  tr_buffer : ∀ g buf raw, chans l !! g = Some buf → raw ∈ buf →
    ∃ k, calls l !! g = Some k ∧ Response (callID k) raw ∈ h;
  tr_reader : ∀ ch raw, reader l = Some (ch, raw) →
    ∃ k, calls l !! ch = Some k ∧ Response (callID k) raw ∈ h;
  tr_answer : ∀ g k raw, calls l !! g = Some k → answer k = Some raw →
    Response (callID k) raw ∈ h
}.

(** One call from entry to return when the response comes in time, and
    when it comes after the call has given up. *)
Definition answeredRun (service args : string) (timeout : Z)
    (id : string) (raw : RawMessage) : list label :=
  [Enter service args timeout; DoSend 0; Response id raw; Deliver;
   DoReceive 0; DoDefer 0].


End answers.

(** ** Package robot: the manager as its callers see it *)
Module fleet.
Import robot.

(** [GetRobot]. *)
Definition GetRobot (id : string) (m : Manager) : option Robot :=
  robots m !! id.

(** [ClearAll]. [r.StopConnection()] acts on the links of the robots that
    the next statement drops; nothing is broadcast. *)
Definition ClearAll (m : Manager) : Manager :=
  set_currentID "" (set_robots ∅ m).

(** Every call on the manager: those of [robot.op], [ClearAll], a
    [Broadcast] (by a link's callback), a subscriber taking a message off its
    queue. *)
Inductive call :=
  | Registry (o : op)
  | CallClearAll
  | CallBroadcast (msg : BroadcastMsg)
  | CallReceive (ch : chanref).

Definition perform (c : call) (m : Manager) : outcome Manager :=
  match c with
  | Registry o => exec o m
  | CallClearAll => Returns (ClearAll m)
  | CallBroadcast msg => Broadcast msg m
  | CallReceive ch =>
      Returns (match receive ch m with
               | Some (_, m') => m'
               | None => m
               end)
  end.

(** A sequence of calls, stopping at the first panic. *)
Fixpoint performAll (cs : list call) (m : Manager) : outcome Manager :=
  match cs with
  | [] => Returns m
  | c :: rest =>
      match perform c m with
      | Returns m' => performAll rest m'
      | Panics e => Panics e
      end
  end.

(** A sequence of broadcasts. *)
Fixpoint broadcastAll (msgs : list BroadcastMsg) (m : Manager)
    : outcome Manager :=
  match msgs with
  | [] => Returns m
  | msg :: rest =>
      match Broadcast msg m with
      | Returns m' => broadcastAll rest m'
      | Panics e => Panics e
      end
  end.

(** *** Predicates of the properties below *)

(** Every robot is registered under its own id. *)
Definition keyed (m : Manager) : Prop :=
  ∀ id r, robots m !! id = Some r → ID r = id.

(** No two registered robots have the same address and port. *)
Definition endpointsUnique (m : Manager) : Prop :=
  ∀ id1 id2 r1 r2,
    robots m !! id1 = Some r1 → robots m !! id2 = Some r2 →
    IP r1 = IP r2 → Port r1 = Port r2 → id1 = id2.

(** The ids in use were printed from numbers below the counter. *)
Definition issued (m : Manager) : Prop :=
  (1 ≤ nextID m)%Z ∧
  ∀ id, is_Some (robots m !! id) →
    ∃ n, (1 ≤ n < nextID m)%Z ∧ id = Sprintf_d n.

(** The largest Go [int]. *)
Definition MaxInt : Z := (2 ^ 63 - 1)%Z.

End fleet.

(** ** Sample inputs *)
Module samples.
Import rosbridge robot.

Definition robot1 : Robot := NewRobot "1" "/r1" "alpha" "10.0.0.7" 9090.

Definition grid1 : GridMsg :=
  {| InfoWidth := 3; InfoHeight := 2; InfoResolution := 0.5%float;
     InfoOriginX := PrimFloat.zero; InfoOriginY := PrimFloat.zero;
     GridData := [0; 100; 255; -1; 200; 127]%Z |}.

(** A link as [OnConnected] leaves it: connected over a healthy socket,
    subscribed to the command topic, publishing enabled. *)
Definition upClient : rosbridge.Client :=
  SetCmdVelEnabled true
    (SubscribeCmdVel ""
       (Connect {| werr := None; written := [] |}
          (set_callbacks true true (NewClient "/r1")))).

Definition twist (lx az : float) : TwistData :=
  {| LinearX := lx; LinearY := PrimFloat.zero; LinearZ := PrimFloat.zero;
     AngularX := PrimFloat.zero; AngularY := PrimFloat.zero; AngularZ := az |}.


Definition transform (parent child : string) (x y : float) : TransformStamped :=
  {| FrameID := parent; ChildFrameID := child;
     Translation := {| vX := x; vY := y; vZ := PrimFloat.zero |};
     Rotation := {| qX := PrimFloat.zero; qY := PrimFloat.zero;
                    qZ := PrimFloat.zero; qW := 1%float |} |}.

(** A stand-in for [math.Atan2] on the sample frames. *)
Definition atan2 (y x : float) : float := PrimFloat.div y x.

Definition statusMsg (id : string) : BroadcastMsg :=
  {| MsgType := "status"; RobotID := id; MsgData := NoData |}.

(** A hub with two subscribers after 100 broadcasts, the second subscriber
    having taken one message off its queue: queue 0 is full, queue 1 is not. *)
Definition busyHub : Manager :=
  let m := (Subscribe (Subscribe NewManager).2).2 in
  let m := Nat.iter 100
             (λ m, match Broadcast (statusMsg "1") m with
                   | Returns m' => m'
                   | Panics _ => m
                   end) m in
  match receive 1 m with
  | Some (_, m') => m'
  | None => m
  end.

Definition mapMsg (id : string) : BroadcastMsg :=
  {| MsgType := "map"; RobotID := id; MsgData := MapPayload zeroMapData |}.

(** Clock readings in 2026, in nanoseconds since the Unix epoch. *)
Definition t0 : Z := 1793592000000000000%Z.
Definition ms (n : Z) : Z := (t0 + n * 1000000)%Z.

(** A map event, a second one 100ms later, a status event, a map event
    600ms after the first. *)
Definition turns : list handlers.pumpIn :=
  [handlers.Msg (mapMsg "1") (ms 0) true;
   handlers.Msg (mapMsg "1") (ms 100) true;
   handlers.Msg (statusMsg "1") (ms 150) true;
   handlers.Msg (mapMsg "1") (ms 600) true].

(** A fleet of two robots; robot 1 is the selection. *)
Definition fleet2 : Manager :=
  let m := busyHub in
  let m := match AddRobot "/r1" "alpha" "10.0.0.7" 9090 m with
           | Returns (m', _) => m'
           | Panics _ => m
           end in
  match AddRobot "/r2" "beta" "10.0.0.8" 9090 m with
  | Returns (m', _) => m'
  | Panics _ => m
  end.

(** Two robots are added, a browser subscribes, the selected robot is
    removed. *)
Definition session : list op :=
  [OpAddRobot "/r1" "alpha" "10.0.0.7" 9090;
   OpAddRobot "/r2" "beta" "10.0.0.8" 9090;
   OpSubscribe;
   OpRemoveRobot 5 "1"].

(** Ten and thirty seconds, in nanoseconds. *)
Definition sec10 : Z := 10000000000%Z.
Definition sec30 : Z := 30000000000%Z.



(** [RequestWhichMaps] (10s) and [SaveMap] (30s) enter [CallService] within
    the same millisecond; the first times out; then a response carrying the
    shared id arrives. *)
Definition sameMilli : list label :=
  [Enter "/which_maps" "which_maps" sec10;
   Elapse 400000;
   Enter "/which_maps" "save_map" sec30;
   DoSend 0; DoSend 1;
   Elapse sec10; DoTimeout 0; DoDefer 0;
   Response "svc_/which_maps_1793592000000" "{}"].


Definition nanTwist : TwistData := twist PrimFloat.nan 0.


(** A day of the manager: two robots, a browser that subscribes and reads
    one event, a removal, a reset, and a robot added again. *)
Definition day : list fleet.call :=
  [fleet.Registry (OpAddRobot "/r1" "alpha" "10.0.0.7" 9090);
   fleet.Registry OpSubscribe;
   fleet.Registry (OpAddRobot "/r2" "beta" "10.0.0.8" 9090);
   fleet.CallBroadcast (statusMsg "1");
   fleet.CallReceive 0;
   fleet.Registry (OpRemoveRobot 0 "1");
   fleet.CallClearAll;
   fleet.Registry (OpAddRobot "/r1" "alpha" "10.0.0.7" 9090)].

End samples.

(** * Properties *)

(** ** Integer conversions *)

Lemma int8_range (z : Z) : (-128 ≤ int8 z ≤ 127)%Z.
Proof.
  unfold int8. pose proof (Z.mod_pos_bound (z + 128) 256). lia.
Qed.

Lemma int8_id (z : Z) : (-128 ≤ z ≤ 127)%Z → int8 z = z.
Proof.
  intros Hz. unfold int8. rewrite Z.mod_small by lia. lia.
Qed.

Lemma int8_mod (z : Z) : (int8 z mod 256 = z mod 256)%Z.
Proof.
  unfold int8.
  replace ((z + 128) `mod` 256 - 128)%Z
    with ((z + 128) `mod` 256 + (-128))%Z by lia.
  rewrite Zplus_mod_idemp_l. f_equal. lia.
Qed.

Lemma wrap64_id (z : Z) : (- 2 ^ 63 ≤ z < 2 ^ 63)%Z → wrap64 z = z.
Proof.
  intros Hz. unfold wrap64. rewrite Z.mod_small by lia. lia.
Qed.

Lemma wrap64_mod256 (z : Z) : (wrap64 z mod 256 = z mod 256)%Z.
Proof.
  unfold wrap64.
  replace (2 ^ 64)%Z with (256 * 2 ^ 56)%Z by reflexivity.
  replace (2 ^ 63)%Z with (256 * 2 ^ 55)%Z by reflexivity.
  set (a := (z + 256 * 2 ^ 55)%Z).
  rewrite (Z.mod_eq a (256 * 2 ^ 56)) by lia.
  replace (a - 256 * 2 ^ 56 * (a `div` (256 * 2 ^ 56)) - 256 * 2 ^ 55)%Z
    with (z + (- 2 ^ 56 * (a `div` (256 * 2 ^ 56))) * 256)%Z by (unfold a; lia).
  apply Z_mod_plus_full.
Qed.

(** ** The occupancy grid parser *)
Module MapSpec.
Import rosbridge robot.

Lemma mapCell_range (v : Z) : (-128 ≤ mapCell v ≤ 127)%Z.
Proof. apply int8_range. Qed.

Lemma mapCell_mod (v : Z) : (mapCell v mod 256 = v mod 256)%Z.
Proof.
  unfold mapCell. rewrite int8_mod. destruct (127 <? v)%Z; [|done].
  rewrite wrap64_mod256.
  replace (v - 256)%Z with (v + (-1) * 256)%Z by lia.
  apply Z_mod_plus_full.
Qed.

Lemma mapCell_byte (v : Z) :
  (-128 ≤ v ≤ 383)%Z → mapCell v = if (127 <? v)%Z then (v - 256)%Z else v.
Proof.
  intros Hv. unfold mapCell. destruct (Z.ltb_spec 127 v).
  - rewrite wrap64_id by lia. apply int8_id. lia.
  - apply int8_id. lia.
Qed.

(** Without a map callback, or for a frame that does not decode, the cache
    is left as it is. *)
Lemma receiveMap_skipped (r : Robot) (msg : option GridMsg) :
  OnMap (Client r) = false ∨ msg = None → receiveMap msg r = r.
Proof.
  unfold receiveMap, parseMap. intros [->| ->]; [done|].
  by destruct (negb _).
Qed.

(** C10. A robot whose link has its map callback set (every robot made by
    [NewRobot]) caches, for a decoded occupancy grid, one cell per input
    cell; the cached cell lies in [-128, 127] and is congruent to the input
    modulo 256, and for an input in [-128, 383] (so for every signed or
    unsigned byte) it is [v - 256] when [v > 127] and [v] otherwise. *)
Theorem receiveMap_cells (r : Robot) (grid : GridMsg) :
  OnMap (Client r) = true →
  let cached := Data (GetMap (receiveMap (Some grid) r)) in
  length cached = length (GridData grid) ∧
  ∀ (i : nat) (v : Z), GridData grid !! i = Some v →
    ∃ s : Z, cached !! i = Some s ∧ (-128 ≤ s ≤ 127)%Z ∧
             (s mod 256 = v mod 256)%Z ∧
             ((-128 ≤ v ≤ 383)%Z →
              s = if (127 <? v)%Z then (v - 256)%Z else v).
Proof.
  intros Hcb. unfold receiveMap, parseMap, GetMap. rewrite Hcb. simpl. split.
  - apply length_fmap.
  - intros i v Hv. exists (mapCell v). rewrite list_lookup_fmap, Hv.
    repeat split; try apply mapCell_range.
    + apply mapCell_mod.
    + apply mapCell_byte.
Qed.

Lemma receiveMap_cells_witness :
  Data (GetMap (receiveMap (Some samples.grid1) samples.robot1))
    = [0; 100; -1; -1; -56; 127]%Z ∧
  ∃ s : Z,
    Data (GetMap (receiveMap (Some samples.grid1) samples.robot1)) !! 4%nat
      = Some s ∧
    (-128 ≤ s ≤ 127)%Z ∧ (s mod 256 = 200 mod 256)%Z ∧ s = (-56)%Z.
Proof.
  split; [reflexivity|].
  destruct (proj2 (receiveMap_cells samples.robot1 samples.grid1 eq_refl)
              4%nat 200%Z eq_refl) as (s & Hs & Hr & Hm & Hb).
  exists s. repeat split; try assumption; try lia.
  rewrite Hb by lia. reflexivity.
Defined.

End MapSpec.

(** ** The command publisher *)
Module CmdVelSpec.
Import rosbridge.









(** The frame of a command: the publish document when the three fields
    that go on the wire are finite, no bytes otherwise. *)
Lemma PublishMsg_cmdVelMsg (topic : string) (v : TwistData) :
  PublishMsg topic (cmdVelMsg v)
  = if marshalsCmd v then PublishJSON topic (cmdVelMsg v) else NoBytes.
Proof.
  unfold PublishMsg, marshals, marshalsCmd, cmdVelMsg. simpl.
  change (PrimFloat.is_finite PrimFloat.zero) with true.
  destruct (PrimFloat.is_finite (LinearX v)),
           (PrimFloat.is_finite (LinearY v)),
           (PrimFloat.is_finite (AngularZ v)); done.
Qed.




End CmdVelSpec.

(** ** The TF parser *)
Module TFSpec.
Import rosbridge.

Lemma Vector3_eta (v : Vector3) : {| vX := vX v; vY := vY v; vZ := vZ v |} = v.
Proof. by destruct v. Qed.

Lemma Quaternion_eta (q : Quaternion) :
  {| qX := qX q; qY := qY q; qZ := qZ q; qW := qW q |} = q.
Proof. by destruct q. Qed.

Lemma lastMapOdom_none cache ts :
  forallb (λ t, negb (isMapOdom t)) ts = true → lastMapOdom cache ts = cache.
Proof.
  induction ts as [|t ts IH]; simpl; [done|].
  intros [Ht Hts]%andb_prop. apply negb_true_iff in Ht. rewrite Ht. auto.
Qed.

Lemma observedAfter_never cache frames :
  neverObserved frames = true → observedAfter cache frames = cache.
Proof.
  revert cache. induction frames as [|f frames IH]; intros cache; simpl; [done|].
  intros [Hf Hfs]%andb_prop. rewrite lastMapOdom_none by done. auto.
Qed.

Lemma observedAfter_app cache fs1 fs2 :
  observedAfter cache (fs1 ++ fs2) = observedAfter (observedAfter cache fs1) fs2.
Proof.
  revert cache. induction fs1 as [|f fs1 IH]; intros cache; simpl; auto.
Qed.

Section parser.

Variable Atan2 : float → float → float.

(** The loop of [parseTF]: the callback flag is not touched, the cache ends
    as the last map→odom transform of the frame, [emitTF] is raised exactly
    by an odom→base_footprint transform, and once it is raised the
    map→odom half of [tfData] is the cache. *)
Lemma tfLoop (ts : list TransformStamped) (c : Client) (tf : TFData)
    (emit : bool) :
  (emit = true → mapOdomHalf tf = transformOf (globalMapOdom c)) →
  ∃ c' tf' emit',
    fold_left (tfStep Atan2) ts (c, tf, emit) = (c', tf', emit') ∧
    OnTF c' = OnTF c ∧
    globalMapOdom c' = lastMapOdom (globalMapOdom c) ts ∧
    emit' = emit || existsb isOdomBfp ts ∧
    (emit' = true → mapOdomHalf tf' = transformOf (globalMapOdom c')).
Proof.
  revert c tf emit. induction ts as [|t ts IH]; intros c tf emit Hinv.
  - exists c, tf, emit. simpl. rewrite orb_false_r. done.
  - simpl fold_left. fold (isMapOdom t). fold (isOdomBfp t).
    simpl lastMapOdom. simpl existsb.
    destruct (isMapOdom t) eqn:Hmo.
    + assert (Hbfp : isOdomBfp t = false).
      { unfold isMapOdom, isOdomBfp in *.
        destruct (String.eqb_spec (FrameID t) "map") as [->|]; [done|].
        done. }
      rewrite Hbfp. simpl orb.
      match goal with
      | |- context [fold_left _ ts (?c1, ?tf1, emit)] =>
          destruct (IH c1 tf1 emit) as (c' & tf' & emit' & Hf & Hcb & Hg & He & Hh)
      end.
      { intros _. unfold mapOdomHalf, transformOf. simpl.
        by rewrite Vector3_eta, Quaternion_eta. }
      exists c', tf', emit'. rewrite Hf. done.
    + destruct (isOdomBfp t) eqn:Hbfp.
      * rewrite orb_true_r.
        match goal with
        | |- context [fold_left _ ts (c, ?tf1, true)] =>
            destruct (IH c tf1 true) as (c' & tf' & emit' & Hf & Hcb & Hg & He & Hh)
        end.
        { intros _. unfold mapOdomHalf, transformOf. simpl.
          by rewrite Vector3_eta, Quaternion_eta. }
        exists c', tf', emit'. rewrite Hf. done.
      * destruct (IH c tf emit Hinv) as (c' & tf' & emit' & Hf & Hcb & Hg & He & Hh).
        exists c', tf', emit'. rewrite Hf. done.
Qed.

(** One frame through [parseTF] on a link with its TF callback set. *)
Lemma parseTF_frame (c : Client) (f : option TFMessage) :
  OnTF c = true →
  ∃ c' ev,
    parseTF Atan2 c f = (c', ev) ∧
    OnTF c' = true ∧
    globalMapOdom c' = lastMapOdom (globalMapOdom c) (default [] f) ∧
    match ev with
    | Some tf =>
        existsb isOdomBfp (default [] f) = true ∧
        mapOdomHalf tf = transformOf (globalMapOdom c')
    | None => existsb isOdomBfp (default [] f) = false
    end.
Proof.
  intros Hcb. unfold parseTF. rewrite Hcb. simpl negb. cbv iota.
  destruct f as [ts|]; simpl default.
  - destruct (tfLoop ts c zeroTFData false) as (c' & tf' & emit' & Hf & Hcb' & Hg & He & Hh);
      [done|].
    rewrite Hf. simpl in He. subst emit'.
    destruct (existsb isOdomBfp ts) eqn:Hex.
    + exists c', (Some tf'). rewrite Hcb'. repeat split; auto.
    + exists c', None. rewrite Hcb'. repeat split; auto.
  - exists c, None. done.
Qed.

(** A run of frames: the callback stays set and the cache follows the
    map→odom transforms observed. *)
Lemma readTF_frames (frames : list (option TFMessage)) (c : Client) :
  OnTF c = true →
  ∃ c' evs,
    readTF Atan2 c frames = (c', evs) ∧
    length evs = length frames ∧
    OnTF c' = true ∧
    globalMapOdom c' = observedAfter (globalMapOdom c) frames.
Proof.
  revert c. induction frames as [|f frames IH]; intros c Hcb.
  - exists c, []. done.
  - destruct (parseTF_frame c f Hcb) as (c1 & ev & Hp & Hcb1 & Hg1 & _).
    destruct (IH c1 Hcb1) as (c' & evs & Hr & Hlen & Hcb' & Hg').
    exists c', (ev :: evs). simpl. rewrite Hp, Hr. rewrite Hg', Hg1.
    repeat split; try done. simpl. by rewrite Hlen.
Qed.

Lemma readTF_app (fs1 fs2 : list (option TFMessage)) (c : Client) :
  readTF Atan2 c (fs1 ++ fs2) =
    let '(c1, evs1) := readTF Atan2 c fs1 in
    let '(c2, evs2) := readTF Atan2 c1 fs2 in
    (c2, evs1 ++ evs2).
Proof.
  revert c. induction fs1 as [|f fs1 IH]; intros c; simpl.
  - by destruct (readTF Atan2 c fs2).
  - destruct (parseTF Atan2 c f) as [c1 ev]. rewrite IH.
    destruct (readTF Atan2 c1 fs1) as [c2 evs1].
    by destruct (readTF Atan2 c2 fs2).
Qed.

(** Without a TF callback [parseTF] returns at once: nothing is emitted and
    nothing is cached. *)
Lemma parseTF_no_callback (c : Client) (f : option TFMessage) :
  OnTF c = false → parseTF Atan2 c f = (c, None).
Proof. intros Hcb. unfold parseTF. by rewrite Hcb. Qed.

(** C8. On a link with its TF callback set, a frame that carries an
    odom→base_footprint transform, read after any earlier frames, makes
    [parseTF] emit a composite event; the map→odom half of the event is the
    cached transform, which is the map→odom transform observed last over all
    frames so far (odom→base_footprint transforms in between do not change
    it), or the link's initial one if none was observed; on a link made by
    [NewClient] that initial transform is all zeros. *)
Theorem parseTF_composite (c : Client) (before : list (option TFMessage))
    (f : TFMessage) :
  OnTF c = true →
  existsb isOdomBfp f = true →
  ∃ c' evs tf,
    readTF Atan2 c (before ++ [Some f]) = (c', evs ++ [Some tf]) ∧
    length evs = length before ∧
    mapOdomHalf tf = transformOf (globalMapOdom c') ∧
    globalMapOdom c' = observedAfter (globalMapOdom c) (before ++ [Some f]) ∧
    (neverObserved (before ++ [Some f]) = true →
     globalMapOdom c = globalMapOdom (NewClient (ns c)) →
     mapOdomHalf tf = (zeroVector3, zeroQuaternion)).
Proof.
  intros Hcb Hbfp.
  destruct (readTF_frames before c Hcb) as (c1 & evs & Hr & Hlen & Hcb1 & Hg1).
  destruct (parseTF_frame c1 (Some f) Hcb1) as (c' & ev & Hp & Hcb' & Hg' & Hev).
  destruct ev as [tf|]; simpl in Hev; [|congruence].
  destruct Hev as [_ Hhalf].
  exists c', evs, tf. rewrite readTF_app, Hr. simpl. rewrite Hp.
  rewrite observedAfter_app. simpl. rewrite <- Hg1.
  repeat split; try done.
  intros Hnever Hzero. rewrite Hhalf, Hg'. simpl default. rewrite Hg1.
  change (lastMapOdom (observedAfter (globalMapOdom c) before) f)
    with (observedAfter (observedAfter (globalMapOdom c) before) [Some f]).
  rewrite <- observedAfter_app.
  rewrite observedAfter_never by done. rewrite Hzero. reflexivity.
Qed.

End parser.

Lemma parseTF_composite_witness :
  (∃ c' evs tf,
     readTF samples.atan2 samples.upClient
       ([Some [samples.transform "map" "odom" 2 3];
         Some [samples.transform "odom" "base_footprint" 1 1]] ++
        [Some [samples.transform "odom" "base_footprint" 4 5]])
       = (c', evs ++ [Some tf]) ∧
     length evs = 2%nat ∧
     mapOdomHalf tf = transformOf (samples.transform "map" "odom" 2 3)) ∧
  (∃ c' evs tf,
     readTF samples.atan2 samples.upClient
       ([] ++ [Some [samples.transform "odom" "base_footprint" 4 5]])
       = (c', evs ++ [Some tf]) ∧
     mapOdomHalf tf = (zeroVector3, zeroQuaternion)).
Proof.
  split.
  - destruct (parseTF_composite samples.atan2 samples.upClient
                [Some [samples.transform "map" "odom" 2 3];
                 Some [samples.transform "odom" "base_footprint" 1 1]]
                [samples.transform "odom" "base_footprint" 4 5]
                eq_refl eq_refl) as (c' & evs & tf & Hr & Hlen & Hh & Hg & _).
    exists c', evs, tf. repeat split; [exact Hr|exact Hlen|].
    rewrite Hh, Hg. reflexivity.
  - destruct (parseTF_composite samples.atan2 samples.upClient []
                [samples.transform "odom" "base_footprint" 4 5]
                eq_refl eq_refl) as (c' & evs & tf & Hr & _ & _ & _ & Hz).
    exists c', evs, tf. split; [exact Hr|]. apply Hz; reflexivity.
Defined.

End TFSpec.

(** ** The broadcast hub *)
Module HubSpec.
Import robot.

Lemma hubOpen_spec (m : Manager) :
  hubOpen m = true ↔
  ∀ ch, ch ∈ subscribers m → ∃ c, heap m !! ch = Some c ∧ closed c = false.
Proof.
  unfold hubOpen. rewrite forallb_forall. split.
  - intros H ch Hch.
    assert (Hin : In ch (elements (subscribers m))).
    { apply list_elem_of_In, elem_of_elements, Hch. }
    specialize (H ch Hin). revert H.
    destruct (heap m !! ch) as [c|]; intros H; [|done].
    exists c. split; [done|]. by apply negb_true_iff.
  - intros H ch Hch%list_elem_of_In%elem_of_elements.
    destruct (H ch Hch) as (c & -> & ->). done.
Qed.

Lemma closed_deliver (msg : BroadcastMsg) (c : Chan) :
  closed (deliver msg c) = closed c.
Proof. unfold deliver. by destruct (_ <? _)%nat. Qed.

(** The range loop over distinct open queues: it returns, and every queue in
    the order gets [deliver], the others are left alone. *)
Lemma broadcastTo_spec (msg : BroadcastMsg) (order : list chanref) :
  NoDup order →
  ∀ h : list Chan,
    (∀ ch, ch ∈ order → ∃ c, h !! ch = Some c ∧ closed c = false) →
    ∃ h', broadcastTo msg order h = Returns h' ∧
          length h' = length h ∧
          ∀ ch c, h !! ch = Some c →
            h' !! ch = Some (if bool_decide (ch ∈ order)
                             then deliver msg c else c).
Proof.
  induction 1 as [|ch rest Hnotin Hnd IH]; intros h Hopen.
  - exists h. split; [done|]. split; [done|]. intros ch c Hc.
    rewrite bool_decide_eq_false_2; [done|]. apply not_elem_of_nil.
  - destruct (Hopen ch) as (c & Hc & Hcl); [left|].
    simpl. rewrite Hc, Hcl.
    destruct (IH (<[ch := deliver msg c]> h)) as (h' & Hb & Hlen & Hpt).
    { intros ch' Hch'. assert (ch ≠ ch') by (intros ->; done).
      rewrite list_lookup_insert_ne by done. apply Hopen. by right. }
    exists h'. rewrite Hb, Hlen, length_insert. repeat split; try done.
    intros ch0 c0 Hc0. destruct (decide (ch0 = ch)) as [->|Hne].
    + assert (c0 = c) as -> by congruence.
      rewrite (Hpt ch (deliver msg c)).
      * rewrite bool_decide_eq_false_2 by done.
        rewrite bool_decide_eq_true_2 by left. done.
      * apply list_lookup_insert_eq. by eapply lookup_lt_Some.
    + rewrite (Hpt ch0 c0) by (by rewrite list_lookup_insert_ne).
      f_equal. destruct (decide (ch0 ∈ rest)).
      * rewrite !bool_decide_eq_true_2; [done|by right|done].
      * rewrite !bool_decide_eq_false_2; [done| |done].
        intros [?|?]%elem_of_cons; done.
Qed.

Lemma broadcastTo_perm (msg : BroadcastMsg) (m : Manager)
    (order : list chanref) :
  hubOpen m = true → order ≡ₚ elements (subscribers m) →
  ∃ h', broadcastTo msg order (heap m) = Returns h' ∧
        length h' = length (heap m) ∧
        ∀ ch c, heap m !! ch = Some c →
          h' !! ch = Some (if bool_decide (ch ∈ subscribers m)
                           then deliver msg c else c).
Proof.
  intros Hopen Hperm.
  destruct (broadcastTo_spec msg order) with (h := heap m)
    as (h' & Hb & Hlen & Hpt).
  - rewrite Hperm. apply NoDup_elements.
  - intros ch Hch. apply (proj1 (hubOpen_spec m) Hopen).
    rewrite Hperm in Hch. by apply elem_of_elements.
  - exists h'. repeat split; try done. intros ch c Hc.
    rewrite (Hpt ch c Hc).
    rewrite (bool_decide_ext (ch ∈ order) (ch ∈ subscribers m)); [done|].
    rewrite Hperm. apply elem_of_elements.
Qed.

(** Two heaps of the same length that agree wherever the first is defined. *)
Lemma heap_ext (h1 h2 : list Chan) :
  length h1 = length h2 →
  (∀ ch c, h1 !! ch = Some c → h2 !! ch = Some c) → h1 = h2.
Proof.
  intros Hlen Hpt. apply list_eq. intros i.
  destruct (h1 !! i) as [c|] eqn:Hi.
  - symmetry. by apply Hpt.
  - symmetry. apply lookup_ge_None. apply lookup_ge_None in Hi. lia.
Qed.

(** On an open hub [Broadcast] returns, and changes nothing but the heap. *)
Lemma Broadcast_returns (msg : BroadcastMsg) (m : Manager) :
  hubOpen m = true →
  ∃ h', Broadcast msg m = Returns (set_hub (subscribers m) h' m) ∧
        length h' = length (heap m) ∧
        ∀ ch c, heap m !! ch = Some c →
          h' !! ch = Some (if bool_decide (ch ∈ subscribers m)
                           then deliver msg c else c).
Proof.
  intros Hopen.
  destruct (broadcastTo_perm msg m (elements (subscribers m)) Hopen)
    as (h' & Hb & Hlen & Hpt); [done|].
  exists h'. unfold Broadcast. rewrite Hb. done.
Qed.

(** C4. On a hub whose registered queues are open, in whatever order the
    subscriber set is ranged over, [Broadcast] returns; a registered queue
    with free capacity gets the message appended, a registered queue that is
    full keeps its content (the message is dropped for it), a queue that is
    not registered is untouched; what one queue gets does not depend on the
    others. *)
Theorem Broadcast_delivers (msg : BroadcastMsg) (m : Manager)
    (order : list chanref) :
  hubOpen m = true →
  order ≡ₚ elements (subscribers m) →
  ∃ h',
    broadcastTo msg order (heap m) = Returns h' ∧
    Broadcast msg m = Returns (set_hub (subscribers m) h' m) ∧
    length h' = length (heap m) ∧
    ∀ ch c, heap m !! ch = Some c →
      (ch ∈ subscribers m → length (buf c) < cap c →
       h' !! ch = Some {| buf := buf c ++ [msg]; cap := cap c;
                          closed := closed c |}) ∧
      (ch ∈ subscribers m → cap c ≤ length (buf c) → h' !! ch = Some c) ∧
      (ch ∉ subscribers m → h' !! ch = Some c).
Proof.
  intros Hopen Hperm.
  destruct (broadcastTo_perm msg m order Hopen Hperm) as (h' & Hb & Hlen & Hpt).
  destruct (Broadcast_returns msg m Hopen) as (h2 & Hb2 & Hlen2 & Hpt2).
  assert (h2 = h') as ->.
  { apply heap_ext; [congruence|]. intros ch c Hc.
    assert (is_Some (heap m !! ch)) as [c0 Hc0].
    { apply lookup_lt_is_Some. rewrite <- Hlen2. by eapply lookup_lt_Some. }
    rewrite (Hpt2 ch c0 Hc0) in Hc. rewrite (Hpt ch c0 Hc0). done. }
  exists h'. repeat split; try done.
  - intros Hin Hfree. rewrite (Hpt ch c) by done.
    rewrite bool_decide_eq_true_2 by done. unfold deliver.
    by rewrite (proj2 (Nat.ltb_lt _ _) Hfree).
  - intros Hin Hfull. rewrite (Hpt ch c) by done.
    rewrite bool_decide_eq_true_2 by done. unfold deliver.
    by rewrite (proj2 (Nat.ltb_ge _ _) Hfull).
  - intros Hout. rewrite (Hpt ch c) by done.
    by rewrite bool_decide_eq_false_2.
Qed.

Lemma Broadcast_delivers_witness :
  ∃ h' c0 c1,
    broadcastTo (samples.statusMsg "2")
      (reverse (elements (subscribers samples.busyHub)))
      (heap samples.busyHub) = Returns h' ∧
    heap samples.busyHub !! 0 = Some c0 ∧ length (buf c0) = 100 ∧
    h' !! 0 = Some c0 ∧
    heap samples.busyHub !! 1 = Some c1 ∧ length (buf c1) = 99 ∧
    h' !! 1 = Some {| buf := buf c1 ++ [samples.statusMsg "2"];
                      cap := cap c1; closed := closed c1 |}.
Proof.
  destruct (Broadcast_delivers (samples.statusMsg "2") samples.busyHub
              (reverse (elements (subscribers samples.busyHub))))
    as (h' & Hb & _ & _ & Hpt).
  - vm_compute. reflexivity.
  - apply reverse_Permutation.
  - destruct (heap samples.busyHub !! 0) as [c0|] eqn:H0;
      [|vm_compute in H0; discriminate].
    destruct (heap samples.busyHub !! 1) as [c1|] eqn:H1;
      [|vm_compute in H1; discriminate].
    exists h', c0, c1.
    destruct (Hpt 0 c0 H0) as (_ & Hfull & _).
    destruct (Hpt 1 c1 H1) as (Hfree & _ & _).
    assert (Hs0 : 0 ∈ subscribers samples.busyHub).
    { apply (bool_decide_unpack _). vm_compute. exact I. }
    assert (Hs1 : 1 ∈ subscribers samples.busyHub).
    { apply (bool_decide_unpack _). vm_compute. exact I. }
    assert (Hl0 : length (buf c0) = 100 ∧ cap c0 = 100).
    { vm_compute in H0. injection H0 as <-. split; reflexivity. }
    assert (Hl1 : length (buf c1) = 99 ∧ cap c1 = 100).
    { vm_compute in H1. injection H1 as <-. split; reflexivity. }
    repeat split; try tauto.
    + apply Hfull; [exact Hs0|lia].
    + apply Hfree; [exact Hs1|lia].
Defined.

End HubSpec.

(** ** The browser bridge *)
Module BridgeSpec.
Import robot handlers.

(** *** Releasing the subscription *)

Lemma Unsubscribe_open (ch : nat) (m : Manager) (c : Chan) :
  heap m !! ch = Some c → closed c = false →
  Unsubscribe ch m =
    Returns (set_hub (subscribers m ∖ {[ch]})
               (<[ch := {| buf := buf c; cap := cap c; closed := true |}]>
                  (heap m)) m).
Proof. intros Hc Hcl. unfold Unsubscribe. by rewrite Hc, Hcl. Qed.

(** C5 as stated fails: a second [Unsubscribe] of the same queue is not a
    no-op, it panics in [close]. *)
Lemma Unsubscribe_twice_panics :
  ∃ m2,
    Unsubscribe (fst (Subscribe NewManager)) (snd (Subscribe NewManager))
      = Returns m2 ∧
    Unsubscribe (fst (Subscribe NewManager)) m2
      = Panics "close of closed channel".
Proof. eexists. split; reflexivity. Qed.

(** C5, as the code has it. [cleanup] of a connection that has not been
    cleaned up, whose queue is open, returns: the queue is deregistered and
    closed, the other queues and the registry are untouched; and [cleanup]
    run again, from either pump, is a no-op: its once-guard keeps
    [Unsubscribe] from running a second time, so the queue is deregistered
    and closed exactly once. *)
Theorem cleanup_once (b : Bridge) (c : Chan) :
  closeOnce b = false → doneClosed b = false →
  heap (manager b) !! bcast b = Some c → closed c = false →
  ∃ b1,
    cleanup b = Returns b1 ∧
    bcast b1 = bcast b ∧
    ¬ (bcast b ∈ subscribers (manager b1)) ∧
    heap (manager b1) !! bcast b
      = Some {| buf := buf c; cap := cap c; closed := true |} ∧
    (∀ ch, ch ≠ bcast b →
       (ch ∈ subscribers (manager b1) ↔ ch ∈ subscribers (manager b)) ∧
       heap (manager b1) !! ch = heap (manager b) !! ch) ∧
    robots (manager b1) = robots (manager b) ∧
    currentID (manager b1) = currentID (manager b) ∧
    cleanup b1 = Returns b1.
Proof.
  intros Honce Hdone Hc Hcl. unfold cleanup at 1. rewrite Honce, Hdone.
  rewrite (Unsubscribe_open _ _ c Hc Hcl). eexists. split; [reflexivity|].
  simpl. repeat split.
  - rewrite elem_of_difference, elem_of_singleton. tauto.
  - apply list_lookup_insert_eq. by eapply lookup_lt_Some.
  - rewrite elem_of_difference. tauto.
  - rewrite elem_of_difference, elem_of_singleton. tauto.
  - by apply list_lookup_insert_ne.
Qed.

Lemma cleanup_once_witness :
  ∃ b1,
    cleanup (accept samples.busyHub) = Returns b1 ∧
    ¬ (bcast (accept samples.busyHub) ∈ subscribers (manager b1)) ∧
    cleanup b1 = Returns b1.
Proof.
  destruct (cleanup_once (accept samples.busyHub)
              {| buf := []; cap := 100; closed := false |})
    as (b1 & Hb & _ & Hout & _ & _ & _ & _ & Hagain);
    [reflexivity|reflexivity|vm_compute; reflexivity|reflexivity|].
  exists b1. split; [exact Hb|]. split; [exact Hout|exact Hagain].
Defined.

(** *** The outbound pump *)

Lemma Sub_ge (t u : Z) :
  ¬ (Sub t u < 500 * Millisecond)%Z → (u + 500 * Millisecond ≤ t)%Z.
Proof.
  unfold Sub, minDuration, maxDuration, Millisecond.
  change (2 ^ 63)%Z with 9223372036854775808%Z. lia.
Qed.

(** Every map event the pump writes is at least 500ms after [lastMapSend]. *)
Lemma pump_after (ins : list pumpIn) (lastMapSend : Z) :
  Forall (λ x, isMap x.1 = true → (lastMapSend + 500 * Millisecond ≤ x.2)%Z)
         (pump lastMapSend ins).
Proof.
  revert lastMapSend.
  induction ins as [|[| |msg now ok] ins IH]; intros last; simpl;
    try apply Forall_nil_2.
  fold (isMap msg). destruct (isMap msg) eqn:Hm.
  - destruct (Z.ltb_spec (Sub now last) (500 * Millisecond)) as [|Hge];
      [apply IH|].
    destruct ok; [|apply Forall_nil_2].
    assert (last + 500 * Millisecond ≤ now)%Z by (apply Sub_ge; lia).
    apply Forall_cons. split; [done|].
    eapply Forall_impl; [apply (IH now)|].
    intros x Hx Hmap. specialize (Hx Hmap). unfold Millisecond in *. lia.
  - destruct ok; [|apply Forall_nil_2].
    apply Forall_cons. split; [|apply IH]. simpl. congruence.
Qed.

Lemma no_map_in_window (w : Z) (out : list (BroadcastMsg * Z)) :
  Forall (λ x, isMap x.1 = true → (w + 500 * Millisecond ≤ x.2)%Z) out →
  List.filter (mapInWindow w) out = [].
Proof.
  induction 1 as [|x out Hx _ IH]; simpl; [done|].
  rewrite IH. unfold mapInWindow. destruct (isMap x.1); [|done].
  specialize (Hx eq_refl). simpl.
  destruct (Z.ltb_spec x.2 (w + 500 * Millisecond)); [lia|].
  by rewrite andb_false_r.
Qed.

Lemma pump_window (ins : list pumpIn) (lastMapSend w : Z) :
  length (List.filter (mapInWindow w) (pump lastMapSend ins)) ≤ 1.
Proof.
  revert lastMapSend.
  induction ins as [|[| |msg now ok] ins IH]; intros last; simpl; try lia.
  fold (isMap msg). destruct (isMap msg) eqn:Hm.
  - destruct (Z.ltb_spec (Sub now last) (500 * Millisecond)) as [|Hge];
      [apply IH|].
    destruct ok; simpl; [|lia].
    destruct (mapInWindow w (msg, now)) eqn:Hin; [|apply IH].
    rewrite no_map_in_window; [simpl; lia|].
    eapply Forall_impl; [apply (pump_after ins now)|].
    intros x Hx Hmap. specialize (Hx Hmap).
    unfold mapInWindow in Hin. simpl in Hin.
    apply andb_prop in Hin as [[_ Hlo%Z.leb_le]%andb_prop _]. lia.
  - destruct ok; simpl; [|lia].
    unfold mapInWindow at 1. simpl. rewrite Hm. simpl. apply IH.
Qed.

Lemma pump_sublist (ins : list pumpIn) (lastMapSend : Z) :
  (pump lastMapSend ins).*1 `sublist_of` offered ins.
Proof.
  revert lastMapSend.
  induction ins as [|[| |msg now ok] ins IH]; intros last; simpl;
    try apply sublist_nil_l.
  unfold offered. simpl. fold (offered ins).
  destruct (String.eqb (MsgType msg) "map").
  - destruct (Sub now last <? 500 * Millisecond)%Z.
    + apply sublist_cons, IH.
    + destruct ok; [apply sublist_skip, IH|apply sublist_nil_l].
  - destruct ok; [apply sublist_skip, IH|apply sublist_nil_l].
Qed.

Lemma pump_passthrough (ins : list pumpIn) (lastMapSend : Z) :
  live ins = true →
  List.filter notMap (pump lastMapSend ins).*1 = List.filter notMap (offered ins).
Proof.
  revert lastMapSend.
  induction ins as [|[| |msg now ok] ins IH]; intros last; simpl; try done.
  intros [-> Hlive]%andb_prop. unfold offered. simpl. fold (offered ins).
  unfold notMap at 2. fold (isMap msg). destruct (isMap msg) eqn:Hm; simpl.
  - destruct (Sub now last <? 500 * Millisecond)%Z; simpl.
    + by apply IH.
    + unfold notMap at 1. rewrite Hm. simpl. by apply IH.
  - unfold notMap at 1. rewrite Hm. simpl. f_equal. by apply IH.
Qed.

(** The throttle lets a map event through as soon as 500ms have passed since
    the last one written; on a fresh writer, any map event read after the
    Unix epoch. *)
Lemma pump_map_due (msg : BroadcastMsg) (now lastMapSend : Z)
    (rest : list pumpIn) :
  isMap msg = true → (lastMapSend + 500 * Millisecond ≤ now)%Z →
  pump lastMapSend (Msg msg now true :: rest) = (msg, now) :: pump now rest.
Proof.
  intros Hm Hdue. simpl. fold (isMap msg). rewrite Hm.
  destruct (Z.ltb_spec (Sub now lastMapSend) (500 * Millisecond)) as [Hlt|];
    [|done].
  revert Hlt Hdue. unfold Sub, minDuration, maxDuration, Millisecond.
  change (2 ^ 63)%Z with 9223372036854775808%Z. lia.
Qed.

Lemma writer_first_map (msg : BroadcastMsg) (now : Z) (rest : list pumpIn) :
  isMap msg = true → (0 ≤ now)%Z →
  writer (Msg msg now true :: rest) = (msg, now) :: pump now rest.
Proof.
  intros Hm Hnow. apply pump_map_due; [done|].
  unfold zeroTime, Millisecond. lia.
Qed.

(** C9. Whatever the pump is offered, from any value of [lastMapSend]: no
    window of 500ms holds the clock readings of two map events it writes;
    what it writes is a subsequence of what the hub delivered to its queue
    (order kept, the map events in between dropped); and while the
    connection is up (no channel closed, every write succeeds) the events of
    every other kind are written all, in order. *)
Theorem writer_throttles_map (lastMapSend : Z) (ins : list pumpIn) :
  (∀ w : Z,
     length (List.filter (mapInWindow w) (pump lastMapSend ins)) ≤ 1) ∧
  (pump lastMapSend ins).*1 `sublist_of` offered ins ∧
  (live ins = true →
   List.filter notMap (pump lastMapSend ins).*1
     = List.filter notMap (offered ins)).
Proof.
  split; [|split].
  - intros w. apply pump_window.
  - apply pump_sublist.
  - apply pump_passthrough.
Qed.

Lemma writer_throttles_map_witness :
  (writer samples.turns).*1
    = [samples.mapMsg "1"; samples.statusMsg "1"; samples.mapMsg "1"] ∧
  length (List.filter (mapInWindow (samples.ms 0)) (writer samples.turns)) ≤ 1 ∧
  List.filter notMap (writer samples.turns).*1 = [samples.statusMsg "1"].
Proof.
  destruct (writer_throttles_map zeroTime samples.turns) as (Hw & _ & Hp).
  split; [reflexivity|]. split; [apply Hw|].
  unfold writer. rewrite Hp; reflexivity.
Defined.

End BridgeSpec.

(** ** The registry *)
Module RegistrySpec.
Import robot HubSpec.

(** *** Decimal ids *)

Lemma pretty_N_go_length (x : N) (s : string) :
  String.length s ≤ String.length (pretty_N_go x s).
Proof.
  revert s. induction (N.lt_wf_0 x) as [x _ IH]; intros s.
  destruct (decide (0 < x)%N) as [Hpos|Hz].
  - rewrite pretty_N_go_step by done.
    etrans; [|apply IH; by apply N.div_lt]. simpl. lia.
  - assert (x = 0%N) as -> by lia. by rewrite pretty_N_go_0.
Qed.

Lemma pretty_N_nonempty (x : N) : pretty x ≠ "".
Proof.
  unfold pretty, pretty_N. case_decide as Hx; [done|].
  rewrite pretty_N_go_step by lia. intros Hempty.
  pose proof (pretty_N_go_length (x `div` 10)
                (String (pretty_N_char (x `mod` 10)) "")) as Hlen.
  rewrite Hempty in Hlen. simpl in Hlen. lia.
Qed.

Lemma Sprintf_d_nonempty (n : Z) : Sprintf_d n ≠ "".
Proof.
  unfold Sprintf_d, pretty, pretty_Z. destruct n as [|p|p]; [done| |done].
  apply pretty_N_nonempty.
Qed.

(** *** The duplicate check *)

Lemma duplicate_true (ip : string) (port : Z) (rs : gmap string Robot) :
  duplicate ip port rs = true ↔
  ∃ id r, rs !! id = Some r ∧ IP r = ip ∧ Port r = port.
Proof.
  unfold duplicate. rewrite existsb_exists. split.
  - intros ([id r] & Hin & Hmatch). exists id, r.
    apply list_elem_of_In, elem_of_map_to_list in Hin.
    apply andb_prop in Hmatch as [Hip%String.eqb_eq Hport%Z.eqb_eq]. done.
  - intros (id & r & Hr & Hip & Hport). exists (id, r). split.
    + by apply list_elem_of_In, elem_of_map_to_list.
    + simpl. rewrite (proj2 (String.eqb_eq _ _) Hip).
      by rewrite (proj2 (Z.eqb_eq _ _) Hport).
Qed.

(** C6. When some registered robot has host [ip] and port [port],
    [AddRobot] with that pair returns the conflict error and the manager it
    returns is the one it was given: robot map, selection and id counter
    (and the hub) are unchanged. *)
Theorem AddRobot_duplicate (ns name ip : string) (port : Z) (m : Manager)
    (id : string) (r : Robot) :
  robots m !! id = Some r → IP r = ip → Port r = port →
  ∃ m',
    AddRobot ns name ip port m = Returns (m', inr (conflictError ip port)) ∧
    m' = m ∧
    robots m' = robots m ∧ currentID m' = currentID m ∧
    nextID m' = nextID m ∧ GetRobotCount m' = GetRobotCount m.
Proof.
  intros Hr Hip Hport. exists m. unfold AddRobot.
  rewrite (proj2 (duplicate_true ip port (robots m))) by eauto. done.
Qed.

Lemma AddRobot_duplicate_witness :
  ∃ m',
    AddRobot "/r9" "gamma" "10.0.0.8" 9090 samples.fleet2
      = Returns (m', inr (Errorf "robot at 10.0.0.8:9090 already exists")) ∧
    m' = samples.fleet2.
Proof.
  destruct (AddRobot_duplicate "/r9" "gamma" "10.0.0.8" 9090 samples.fleet2
              "2" (NewRobot "2" "/r2" "beta" "10.0.0.8" 9090))
    as (m' & Ha & Hm & _);
    [vm_compute; reflexivity|reflexivity|reflexivity|].
  exists m'. split; [exact Ha|exact Hm].
Defined.

(** *** The hub stays open *)

Lemma hubOpen_Broadcast (msg : BroadcastMsg) (m : Manager) :
  hubOpen m = true →
  ∃ m', Broadcast msg m = Returns m' ∧ hubOpen m' = true ∧
        robots m' = robots m ∧ currentID m' = currentID m ∧
        nextID m' = nextID m ∧ subscribers m' = subscribers m.
Proof.
  intros Hopen.
  destruct (Broadcast_returns msg m Hopen) as (h' & Hb & Hlen & Hpt).
  eexists. split; [exact Hb|]. repeat split; try done.
  apply hubOpen_spec. simpl. intros ch Hch.
  destruct (proj1 (hubOpen_spec m) Hopen ch Hch) as (c & Hc & Hcl).
  rewrite (Hpt ch c Hc). eexists. split; [done|].
  destruct (bool_decide _); [by rewrite closed_deliver|done].
Qed.

Lemma hubOpen_Subscribe (m : Manager) :
  hubOpen m = true → hubOpen (Subscribe m).2 = true.
Proof.
  intros Hopen. apply hubOpen_spec. simpl.
  intros ch [->%elem_of_singleton|Hch]%elem_of_union.
  - eexists. split; [apply list_lookup_middle; done|done].
  - destruct (proj1 (hubOpen_spec m) Hopen ch Hch) as (c & Hc & Hcl).
    exists c. split; [|done]. by apply lookup_app_l_Some.
Qed.

Lemma hubOpen_Unsubscribe (ch : nat) (m m' : Manager) :
  hubOpen m = true → Unsubscribe ch m = Returns m' → hubOpen m' = true.
Proof.
  intros Hopen. unfold Unsubscribe.
  destruct (heap m !! ch) as [c|]; [|done].
  destruct (closed c); [done|]. intros [= <-].
  apply hubOpen_spec. simpl.
  intros ch' [Hch' Hne%not_elem_of_singleton]%elem_of_difference.
  destruct (proj1 (hubOpen_spec m) Hopen ch' Hch') as (c' & Hc' & Hcl').
  exists c'. split; [|done]. by rewrite list_lookup_insert_ne.
Qed.

(** *** The first key of a range loop *)

Lemma rangeFirst_Some (seed : nat) (rs : gmap string Robot) (k : string) :
  rangeFirst seed rs = Some k → is_Some (rs !! k).
Proof.
  unfold rangeFirst. intros Hk%list_elem_of_lookup_2.
  apply list_elem_of_fmap in Hk as ([k' r] & -> & Hin).
  apply elem_of_map_to_list in Hin. eauto.
Qed.

Lemma rangeFirst_nonempty (seed : nat) (rs : gmap string Robot) :
  rs ≠ ∅ → is_Some (rangeFirst seed rs).
Proof.
  intros Hne. unfold rangeFirst. apply lookup_lt_is_Some.
  assert (length (map_to_list rs).*1 ≠ 0) as Hlen.
  { rewrite length_fmap. intros Hnil%nil_length_inv.
    by apply map_to_list_empty_iff in Hnil. }
  by apply Nat.mod_upper_bound.
Qed.

Lemma rangeFirst_empty (seed : nat) : rangeFirst seed ∅ = None.
Proof. unfold rangeFirst. by rewrite map_to_list_empty. Qed.

(** *** Removing a robot *)

Lemma RemoveRobot_found (seed : nat) (id : string) (m : Manager) (r : Robot) :
  hubOpen m = true → robots m !! id = Some r →
  ∃ m', RemoveRobot seed id m = Returns (m', None) ∧
        hubOpen m' = true ∧
        robots m' = delete id (robots m) ∧
        nextID m' = nextID m ∧
        currentID m' =
          (if String.eqb (currentID m) id
           then default "" (rangeFirst seed (delete id (robots m)))
           else currentID m).
Proof.
  intros Hopen Hr. unfold RemoveRobot. rewrite Hr.
  match goal with
  | |- context [Broadcast ?msg ?m1] =>
      destruct (hubOpen_Broadcast msg m1) as (m' & Hb & Ho & Hrs & Hcur & Hn & _)
  end.
  { by destruct (String.eqb _ _). }
  exists m'. rewrite Hb. split; [done|]. split; [done|].
  rewrite Hrs, Hcur, Hn. simpl. by destruct (String.eqb (currentID m) id).
Qed.

Lemma AddRobot_fresh (ns name ip : string) (port : Z) (m : Manager) :
  hubOpen m = true → duplicate ip port (robots m) = false →
  ∃ m', AddRobot ns name ip port m
          = Returns (m', inl (NewRobot (Sprintf_d (nextID m)) ns name ip port)) ∧
        hubOpen m' = true ∧
        robots m' = <[Sprintf_d (nextID m) :=
                        NewRobot (Sprintf_d (nextID m)) ns name ip port]>
                      (robots m) ∧
        nextID m' = wrap64 (nextID m + 1) ∧
        currentID m' =
          (if String.eqb (currentID m) "" then Sprintf_d (nextID m)
           else currentID m).
Proof.
  intros Hopen Hdup. unfold AddRobot. rewrite Hdup.
  match goal with
  | |- context [Broadcast ?msg ?m1] =>
      destruct (hubOpen_Broadcast msg m1) as (m' & Hb & Ho & Hrs & Hcur & Hn & _)
  end.
  { simpl. by destruct (String.eqb _ _). }
  exists m'. rewrite Hb. split; [done|]. split; [done|].
  rewrite Hrs, Hcur, Hn. simpl. by destruct (String.eqb (currentID m) "").
Qed.

Lemma SwitchRobot_found (id : string) (m : Manager) (r : Robot) :
  hubOpen m = true → robots m !! id = Some r →
  ∃ m', SwitchRobot id m = Returns (m', None) ∧
        hubOpen m' = true ∧ robots m' = robots m ∧
        nextID m' = nextID m ∧ currentID m' = id.
Proof.
  intros Hopen Hr. unfold SwitchRobot. rewrite Hr.
  match goal with
  | |- context [Broadcast ?msg ?m1] =>
      destruct (hubOpen_Broadcast msg m1) as (m' & Hb & Ho & Hrs & Hcur & Hn & _)
  end; [done|].
  exists m'. rewrite Hb. done.
Qed.

(** *** The selection invariant *)

Lemma selectionOK_exec (o : op) (m m' : Manager) :
  hubOpen m = true → selectionOK m → exec o m = Returns m' →
  hubOpen m' = true ∧ selectionOK m'.
Proof.
  intros Hopen (Hnokey & Hempty & Hsel) Hexec.
  destruct o as [ns name ip port|seed id|id| |ch]; simpl in Hexec.
  - (* AddRobot *)
    destruct (duplicate ip port (robots m)) eqn:Hdup.
    { unfold AddRobot in Hexec. rewrite Hdup in Hexec.
      injection Hexec as <-. done. }
    destruct (AddRobot_fresh ns name ip port m Hopen Hdup)
      as (m1 & Ha & Ho & Hrs & _ & Hcur).
    rewrite Ha in Hexec. injection Hexec as <-. split; [done|].
    pose proof (Sprintf_d_nonempty (nextID m)) as Hid.
    unfold selectionOK. rewrite Hrs, Hcur. split; [|split].
    + by rewrite lookup_insert_ne.
    + split.
      * destruct (String.eqb_spec (currentID m) ""); done.
      * intros Hins. by apply insert_non_empty in Hins.
    + destruct (String.eqb_spec (currentID m) "") as [_|Hne]; intros _.
      * rewrite lookup_insert_eq. eauto.
      * apply lookup_insert_is_Some'. right. by apply Hsel.
  - (* RemoveRobot *)
    destruct (robots m !! id) as [r|] eqn:Hr.
    2:{ unfold RemoveRobot in Hexec. rewrite Hr in Hexec.
        injection Hexec as <-. done. }
    destruct (RemoveRobot_found seed id m r Hopen Hr)
      as (m1 & Ha & Ho & Hrs & _ & Hcur).
    rewrite Ha in Hexec. injection Hexec as <-. split; [done|].
    assert (Hnokey' : delete id (robots m) !! "" = None).
    { apply lookup_delete_None. by right. }
    unfold selectionOK. rewrite Hrs, Hcur. split; [done|].
    destruct (String.eqb_spec (currentID m) id) as [Heq|Hne].
    + destruct (decide (delete id (robots m) = ∅)) as [Hnil|Hnn].
      * rewrite Hnil, rangeFirst_empty. simpl. done.
      * destruct (rangeFirst_nonempty seed _ Hnn) as [k Hk].
        rewrite Hk. simpl.
        destruct (rangeFirst_Some seed _ k Hk) as [rk Hrk].
        assert (k ≠ "") by congruence.
        split; [done|]. eauto.
    + assert (Hcurne : currentID m ≠ "").
      { intros Hz. apply Hempty in Hz. rewrite Hz in Hr.
        by rewrite lookup_empty in Hr. }
      destruct (Hsel Hcurne) as [rc Hrc].
      assert (Hin : delete id (robots m) !! currentID m = Some rc).
      { by rewrite lookup_delete_ne. }
      split; [|eauto]. split; [done|].
      intros Hnil. rewrite Hnil in Hin. by rewrite lookup_empty in Hin.
  - (* SwitchRobot *)
    destruct (robots m !! id) as [r|] eqn:Hr.
    2:{ unfold SwitchRobot in Hexec. rewrite Hr in Hexec.
        injection Hexec as <-. done. }
    destruct (SwitchRobot_found id m r Hopen Hr)
      as (m1 & Ha & Ho & Hrs & _ & Hcur).
    rewrite Ha in Hexec. injection Hexec as <-. split; [done|].
    assert (id ≠ "") by congruence.
    unfold selectionOK. rewrite Hrs, Hcur. split; [done|]. split; [|eauto].
    split; [done|]. intros Hnil. rewrite Hnil in Hr.
    by rewrite lookup_empty in Hr.
  - (* Subscribe *)
    injection Hexec as <-. split; [by apply hubOpen_Subscribe|done].
  - (* Unsubscribe *)
    split; [by eapply hubOpen_Unsubscribe|].
    unfold Unsubscribe in Hexec. destruct (heap m !! ch) as [c|]; [|done].
    destruct (closed c); [done|]. injection Hexec as <-. done.
Qed.

Lemma reachable_inv (m : Manager) :
  reachable m → hubOpen m = true ∧ selectionOK m.
Proof.
  induction 1 as [|m o m' _ [Hopen Hsel] Hexec].
  - split; [reflexivity|]. unfold selectionOK. simpl. repeat split; done.
  - by eapply selectionOK_exec.
Qed.

Lemma GetCurrentRobot_inv (m : Manager) :
  selectionOK m →
  (GetCurrentRobot m = None ↔ robots m = ∅) ∧
  (currentID m ≠ "" →
   ∃ r, robots m !! currentID m = Some r ∧ GetCurrentRobot m = Some r).
Proof.
  intros (_ & Hempty & Hsel). unfold GetCurrentRobot.
  destruct (String.eqb_spec (currentID m) "") as [Hz|Hnz].
  - split; [|done]. split; [intros _; by apply Hempty|done].
  - destruct (Hsel Hnz) as [r Hr]. rewrite Hr. split; [|eauto].
    split; [done|]. intros Hnil. by apply Hempty in Hnil.
Qed.

(** C7. [RemoveRobot] of an id that is not registered returns the not-found
    error and the manager unchanged. On a manager whose registered queues
    are open, [RemoveRobot] of a registered robot returns without error and
    deletes it; if it was the selection, the selection becomes the id of a
    remaining robot when one remains and empty otherwise; if it was not, the
    selection is kept. In every state reached from [NewManager] by
    [AddRobot], [RemoveRobot], [SwitchRobot] (and [Subscribe],
    [Unsubscribe]), [GetCurrentRobot] is empty exactly when no robot is
    registered, and a non-empty selection is the id of a registered robot,
    which [GetCurrentRobot] returns. *)
Theorem RemoveRobot_selection :
  (∀ m seed id,
     robots m !! id = None →
     RemoveRobot seed id m = Returns (m, Some (notFoundError id))) ∧
  (∀ m seed id,
     hubOpen m = true → is_Some (robots m !! id) →
     ∃ m',
       RemoveRobot seed id m = Returns (m', None) ∧
       robots m' = delete id (robots m) ∧
       (currentID m = id → robots m' = ∅ → currentID m' = "") ∧
       (currentID m = id → robots m' ≠ ∅ →
        is_Some (robots m' !! currentID m')) ∧
       (currentID m ≠ id → currentID m' = currentID m)) ∧
  (∀ m,
     reachable m →
     hubOpen m = true ∧
     (GetCurrentRobot m = None ↔ robots m = ∅) ∧
     (currentID m ≠ "" →
      ∃ r, robots m !! currentID m = Some r ∧ GetCurrentRobot m = Some r)).
Proof.
  split; [|split].
  - intros m seed id Hnone. unfold RemoveRobot. by rewrite Hnone.
  - intros m seed id Hopen [r Hr].
    destruct (RemoveRobot_found seed id m r Hopen Hr)
      as (m' & Ha & _ & Hrs & _ & Hcur).
    exists m'. split; [done|]. split; [done|]. rewrite Hcur, Hrs.
    repeat split.
    + intros -> Hnil. rewrite String.eqb_refl, Hnil, rangeFirst_empty. done.
    + intros -> Hnn. rewrite String.eqb_refl.
      destruct (rangeFirst_nonempty seed _ Hnn) as [k Hk]. rewrite Hk. simpl.
      by eapply rangeFirst_Some.
    + intros Hne. by destruct (String.eqb_spec (currentID m) id).
  - intros m Hreach. destruct (reachable_inv m Hreach) as [Hopen Hsel].
    split; [done|]. by apply GetCurrentRobot_inv.
Qed.

Lemma reachable_execAll (os : list op) (m m' : Manager) :
  reachable m → execAll os m = Returns m' → reachable m'.
Proof.
  revert m. induction os as [|o os IH]; intros m Hm; simpl.
  - by intros [= <-].
  - destruct (exec o m) as [m1|] eqn:Ho; [|done].
    apply IH. by eapply reachable_exec.
Qed.

Lemma RemoveRobot_selection_witness :
  (∃ m',
     RemoveRobot 0 "1" samples.fleet2 = Returns (m', None) ∧
     robots m' = delete "1" (robots samples.fleet2) ∧
     is_Some (robots m' !! currentID m')) ∧
  (∃ m r,
     execAll samples.session NewManager = Returns m ∧
     robots m !! currentID m = Some r ∧ GetCurrentRobot m = Some r ∧
     ID r = "2").
Proof.
  destruct RemoveRobot_selection as (_ & Hb & Hc). split.
  - destruct (Hb samples.fleet2 0 "1") as (m' & Hr & Hrs & _ & Hsel & _).
    + vm_compute. reflexivity.
    + exists (NewRobot "1" "/r1" "alpha" "10.0.0.7" 9090).
      vm_compute. reflexivity.
    + exists m'. split; [exact Hr|]. split; [exact Hrs|].
      apply Hsel; [reflexivity|]. rewrite Hrs.
      intros Hnil.
      assert (Hl : delete "1" (robots samples.fleet2) !! "2" = None)
        by (by rewrite Hnil).
      vm_compute in Hl. discriminate.
  - destruct (execAll samples.session NewManager) as [m|] eqn:Hm;
      [|vm_compute in Hm; discriminate].
    destruct (Hc m) as (_ & _ & Hsel).
    { eapply reachable_execAll; [apply reachable_new|exact Hm]. }
    assert (Hcur : currentID m = "2").
    { vm_compute in Hm. injection Hm as <-. reflexivity. }
    destruct Hsel as (r & Hr & Hg); [by rewrite Hcur|].
    exists m, r. repeat split; try done.
    rewrite Hcur in Hr. vm_compute in Hm. injection Hm as <-.
    vm_compute in Hr. injection Hr as <-. reflexivity.
Defined.

End RegistrySpec.

(** ** Service calls *)
Module ServiceSpec.
Import rosbridge.



Lemma svcPending_send (f : Frame) (c : Client) :
  svcPending (send f c).1 = svcPending c.
Proof.
  unfold send. destruct (negb (connected c)); [done|].
  destruct (conn c) as [k|]; [|done]. by destruct (werr k).
Qed.

Lemma owned_move (pending : gmap string nat) (cs : list Call) (g : nat)
    (k : Call) (p : pc) :
  owned pending cs → cs !! g = Some k →
  inFlight (set_callPC p k) = true →
  owned pending (<[g := set_callPC p k]> cs).
Proof.
  intros Hown Hk Hp id ch Hid.
  destruct (Hown id ch Hid) as (g0 & k0 & Hk0 & Hid0 & Hch0 & Hfl0).
  destruct (decide (g0 = g)) as [->|Hne].
  - exists g, (set_callPC p k). assert (k0 = k) as -> by congruence.
    split; [|done]. apply list_lookup_insert_eq. by eapply lookup_lt_Some.
  - exists g0, k0. split; [|done]. by rewrite list_lookup_insert_ne.
Qed.

Lemma owned_enter (pending : gmap string nat) (cs : list Call) (k : Call) :
  owned pending cs → inFlight k = true →
  owned (<[callID k := callCh k]> pending) (cs ++ [k]).
Proof.
  intros Hown Hfl id ch Hid.
  destruct (decide (callID k = id)) as [<-|Hne].
  - rewrite lookup_insert_eq in Hid. injection Hid as <-.
    exists (length cs), k. split; [|done]. by apply list_lookup_middle.
  - rewrite lookup_insert_ne in Hid by done.
    destruct (Hown id ch Hid) as (g0 & k0 & Hk0 & Hrest).
    exists g0, k0. split; [|done]. by apply lookup_app_l_Some.
Qed.

Lemma owned_defer (pending : gmap string nat) (cs : list Call) (g : nat)
    (k : Call) (p : pc) :
  owned pending cs → cs !! g = Some k →
  owned (delete (callID k) pending) (<[g := set_callPC p k]> cs).
Proof.
  intros Hown Hk id ch [Hne Hid]%lookup_delete_Some.
  destruct (Hown id ch Hid) as (g0 & k0 & Hk0 & Hid0 & Hch0 & Hfl0).
  exists g0, k0. split; [|done].
  rewrite list_lookup_insert_ne; [done|]. intros ->. congruence.
Qed.




(** *** Every call can return without an answer *)











(** C3 fails on the code. Two calls of the same service that enter
    [CallService] within one millisecond build the same correlation id; the
    later registration replaces the earlier one in the pending table; when
    the first call times out its deferred delete removes the entry of the
    second, which is still waiting; a response with that id is then routed
    to nobody. *)
Lemma CallService_id_collision :
  ∃ l k0 k1 deadline,
    run samples.sameMilli (newLink samples.upClient samples.t0) = Some l ∧
    calls l !! 0 = Some k0 ∧ calls l !! 1 = Some k1 ∧
    callID k0 = callID k1 ∧ callCh k0 ≠ callCh k1 ∧
    callPC k0 = Returned (inr (timeoutError "/which_maps")) ∧
    callPC k1 = AtSelect deadline ∧ (now l < deadline)%Z ∧
    svcPending (client l) !! callID k1 = None ∧
    reader l = None ∧ chans l !! callCh k1 = Some [].
Proof.
  eexists _, _, _, _. split; [vm_compute; reflexivity|].
  split; [vm_compute; reflexivity|]. split; [vm_compute; reflexivity|].
  repeat split; try (vm_compute; reflexivity).
  vm_compute. discriminate.
Qed.

End ServiceSpec.

(** ** Navigation points *)
Module NavigationSpec.
Import navigation.

Lemma nameTaken_spec (name : string) (pts : list NavigationPoint) :
  nameTaken name pts = true ↔ name ∈ names pts.
Proof.
  unfold nameTaken, names. rewrite existsb_exists, list_elem_of_fmap. split.
  - intros (pt & Hin & Heq%String.eqb_eq). exists pt.
    split; [done|]. by apply list_elem_of_In.
  - intros (pt & -> & Hin). exists pt. split; [by apply list_elem_of_In|].
    apply String.eqb_refl.
Qed.

Lemma nameTaken_false (name : string) (pts : list NavigationPoint) :
  nameTaken name pts = false ↔ name ∉ names pts.
Proof.
  rewrite <- nameTaken_spec. by destruct (nameTaken name pts).
Qed.

Lemma Points_eta (rb : Points) :
  {| Waypoints := Waypoints rb; ServicePoints := ServicePoints rb;
     PatrolPoints := PatrolPoints rb; PathPoints := PathPoints rb;
     WallObstacles := WallObstacles rb |} = rb.
Proof. by destruct rb. Qed.

(** What [addPoint] computes, by cases on the two checks. *)
Lemma addPoint_cases (s : slot) (name : string) (x y theta : float)
    (rb : Points) :
  addPoint s name x y theta rb =
    if String.eqb name "" then (rb, (addPoint s name x y theta rb).2)
    else if nameTaken name (pointsOf s rb)
         then (rb, (addPoint s name x y theta rb).2)
         else (set_sliceOf s (append (sliceOf s rb) (newPoint name x y theta)) rb,
               None).
Proof.
  destruct s; simpl;
    unfold AddWaypoint, AddServicePoint, AddPatrolPoint, AddPathPoint,
      validateAndCreate, pointsOf; simpl;
    destruct (String.eqb name ""); try done;
    match goal with
    | |- context [nameTaken name ?l] => destruct (nameTaken name l)
    end; done.
Qed.

Lemma addPoint_error (s : slot) (name : string) (x y theta : float)
    (rb : Points) :
  name = "" ∨ name ∈ names (pointsOf s rb) →
  is_Some (addPoint s name x y theta rb).2.
Proof.
  intros Hbad.
  destruct s; simpl;
    unfold AddWaypoint, AddServicePoint, AddPatrolPoint, AddPathPoint,
      validateAndCreate; simpl;
    (destruct (String.eqb_spec name "") as [|Hne]; [by eexists|]);
    (destruct Hbad as [|Hin%nameTaken_spec]; [done|]);
    unfold pointsOf in Hin; simpl in Hin; rewrite Hin; by eexists.
Qed.

(** Replacing the slice of one kind leaves the other kinds and the walls. *)
Lemma set_sliceOf_slots (s : slot) (l : slice NavigationPoint) (rb : Points) :
  sliceOf s (set_sliceOf s l rb) = l ∧
  (∀ s', s' ≠ s → sliceOf s' (set_sliceOf s l rb) = sliceOf s' rb) ∧
  WallObstacles (set_sliceOf s l rb) = WallObstacles rb.
Proof.
  destruct s; simpl; (split; [done|]); (split; [|done]); intros [] ?; done.
Qed.

Lemma set_sliceOf_same (s : slot) (rb : Points) :
  set_sliceOf s (sliceOf s rb) rb = rb.
Proof. by destruct s, rb. Qed.

Lemma set_sliceOf_inj (s : slot) (l : slice NavigationPoint) (rb : Points) :
  set_sliceOf s l rb = rb → l = sliceOf s rb.
Proof.
  intros H. apply (f_equal (sliceOf s)) in H.
  by rewrite (proj1 (set_sliceOf_slots s l rb)) in H.
Qed.

Lemma set_sliceOf_twice (s : slot) (l1 l2 : slice NavigationPoint)
    (rb : Points) :
  set_sliceOf s l2 (set_sliceOf s l1 rb) = set_sliceOf s l2 rb.
Proof. by destruct s. Qed.

(** X1. Adding a named point of one of the four kinds fails, leaving every
    list as it was, exactly when the name is empty or a point of the same
    kind already has it; otherwise the new point, carrying the name and the
    world coordinates given, is appended to the list of its kind, which is
    not nil afterwards, and the other four lists are untouched, nil or not.
    A name used by another kind does not matter. *)
Theorem addPoint_spec (s : slot) (name : string) (x y theta : float)
    (rb : Points) :
  (name = "" ∨ name ∈ names (pointsOf s rb) →
   ∃ err, addPoint s name x y theta rb = (rb, Some err)) ∧
  (name ≠ "" → name ∉ names (pointsOf s rb) →
   ∃ rb',
     addPoint s name x y theta rb = (rb', None) ∧
     pointsOf s rb' = pointsOf s rb ++ [newPoint name x y theta] ∧
     (∀ s', s' ≠ s → pointsOf s' rb' = pointsOf s' rb) ∧
     WallObstacles rb' = WallObstacles rb ∧
     sliceOf s rb' = Slice (pointsOf s rb ++ [newPoint name x y theta]) ∧
     (∀ s', s' ≠ s → sliceOf s' rb' = sliceOf s' rb)).
Proof.
  split.
  - intros Hbad. destruct (addPoint_error s name x y theta rb Hbad) as [e He].
    exists e. rewrite addPoint_cases, He.
    destruct (String.eqb_spec name "") as [|Hne]; [done|].
    destruct Hbad as [|Hin%nameTaken_spec]; [done|]. by rewrite Hin.
  - intros Hne Hfree%nameTaken_false. rewrite addPoint_cases.
    apply String.eqb_neq in Hne. rewrite Hne, Hfree.
    eexists. split; [reflexivity|].
    destruct (set_sliceOf_slots s
                (append (sliceOf s rb) (newPoint name x y theta)) rb)
      as (Hs & Ho & Hw).
    unfold pointsOf. rewrite Hs.
    split; [done|]. split; [intros s' Hs'; by rewrite Ho|].
    split; [done|]. split; [done|]. exact Ho.
Qed.

Lemma addPoint_spec_witness :
  ∃ rb1 rb2 err,
    addPoint SWaypoint "dock" 1 2 0 noPoints = (rb1, None) ∧
    names (elems (Waypoints rb1)) = ["dock"] ∧
    PatrolPoints rb1 = Nil ∧
    addPoint SPatrolPoint "dock" 3 4 0 rb1 = (rb2, None) ∧
    addPoint SWaypoint "dock" 5 6 0 rb2 = (rb2, Some err).
Proof.
  destruct (proj2 (addPoint_spec SWaypoint "dock" 1 2 0 noPoints))
    as (rb1 & H1 & Hp1 & Ho1 & _ & _ & Hn1); [done|apply not_elem_of_nil|].
  destruct (proj2 (addPoint_spec SPatrolPoint "dock" 3 4 0 rb1))
    as (rb2 & H2 & Hp2 & Ho2 & _); [done| |].
  { rewrite (Ho1 SPatrolPoint) by done. apply not_elem_of_nil. }
  destruct (proj1 (addPoint_spec SWaypoint "dock" 5 6 0 rb2)) as (err & H3).
  { right. rewrite (Ho2 SWaypoint), Hp1 by done. simpl. left. }
  exists rb1, rb2, err. repeat split; try done.
  - change (elems (Waypoints rb1)) with (pointsOf SWaypoint rb1).
    by rewrite Hp1.
  - exact (Hn1 SPatrolPoint ltac:(discriminate)).
Defined.

(** *** Deleting *)

Lemma keepOthers_filter (pts : list NavigationPoint) (name : string) :
  keepOthers pts name = filter (λ p, Name p ≠ name) pts.
Proof.
  induction pts as [|p pts IH]; [done|]. simpl.
  destruct (String.eqb_spec (Name p) name) as [Heq|Hne]; simpl.
  - by rewrite filter_cons_False by (intros ?; done).
  - by rewrite filter_cons_True, IH by done.
Qed.

Lemma keepOthers_absent (pts : list NavigationPoint) (name : string) :
  name ∉ names pts → keepOthers pts name = pts.
Proof.
  induction pts as [|p pts IH]; [done|]. simpl.
  intros Hnin. apply not_elem_of_cons in Hnin as [Hne Hrest].
  destruct (String.eqb_spec (Name p) name) as [Heq|_]; [done|]. simpl.
  by rewrite IH.
Qed.

Lemma keepOthers_app (l1 l2 : list NavigationPoint) (name : string) :
  keepOthers (l1 ++ l2) name = keepOthers l1 name ++ keepOthers l2 name.
Proof. by rewrite !keepOthers_filter, filter_app. Qed.

Lemma names_keepOthers (pts : list NavigationPoint) (name : string) :
  names (keepOthers pts name) = filter (λ n, n ≠ name) (names pts).
Proof.
  induction pts as [|p pts IH]; [done|]. simpl.
  destruct (String.eqb_spec (Name p) name) as [Heq|Hne]; simpl.
  - by rewrite filter_cons_False by (intros ?; done).
  - rewrite filter_cons_True by done. simpl. by rewrite <- IH.
Qed.

Lemma DeletePoint_word (s : slot) (name : string) (rb : Points) :
  DeletePoint (word s) name rb
  = set_sliceOf s (removeByName (sliceOf s rb) name) rb.
Proof. by destruct s. Qed.

Lemma DeletePoint_slot (s : slot) (name : string) (rb : Points) :
  sliceOf s (DeletePoint (word s) name rb)
  = Slice (keepOthers (pointsOf s rb) name) ∧
  (∀ s', s' ≠ s →
     sliceOf s' (DeletePoint (word s) name rb) = sliceOf s' rb) ∧
  WallObstacles (DeletePoint (word s) name rb) = WallObstacles rb.
Proof. rewrite DeletePoint_word. apply set_sliceOf_slots. Qed.

(** [DeletePoint] gives back the robot it was given exactly when the list
    of the kind was not nil and holds the points it is left with. *)
Lemma DeletePoint_same (s : slot) (name : string) (rb : Points)
    (pts : list NavigationPoint) :
  keepOthers (pointsOf s rb) name = pts →
  (DeletePoint (word s) name rb = rb ↔ sliceOf s rb = Slice pts).
Proof.
  intros Hpts. rewrite DeletePoint_word. unfold removeByName.
  change (elems (sliceOf s rb)) with (pointsOf s rb). rewrite Hpts. split.
  - intros H. symmetry. by apply set_sliceOf_inj.
  - intros <-. apply set_sliceOf_same.
Qed.

(** X2. [DeletePoint] with the word of a kind leaves in the list of that
    kind the points with another name, in their order, and nothing else;
    the other lists are untouched. The list it leaves is never nil: a list
    that was nil (as on a new robot, or after a clear) becomes the empty
    list, which the robot's JSON shows as [[]] where it showed [null]. So
    deleting a name no point has keeps the points, and changes nothing at
    all exactly when the list was not nil; and deleting the name just added
    by a successful [addPoint] gives back the points there were before, and
    the robot there was before exactly when the list was not nil. An unknown
    word (and "wall" is one) changes nothing. *)
Theorem DeletePoint_spec (s : slot) (name : string) (rb : Points) :
  sliceOf s (DeletePoint (word s) name rb)
    = Slice (filter (λ p, Name p ≠ name) (pointsOf s rb)) ∧
  encodesNull (sliceOf s (DeletePoint (word s) name rb)) = false ∧
  ¬ (name ∈ names (pointsOf s (DeletePoint (word s) name rb))) ∧
  (∀ s', s' ≠ s →
     sliceOf s' (DeletePoint (word s) name rb) = sliceOf s' rb) ∧
  WallObstacles (DeletePoint (word s) name rb) = WallObstacles rb ∧
  (name ∉ names (pointsOf s rb) →
   pointsOf s (DeletePoint (word s) name rb) = pointsOf s rb ∧
   (DeletePoint (word s) name rb = rb ↔ encodesNull (sliceOf s rb) = false)) ∧
  (∀ w, (∀ s', w ≠ word s') → DeletePoint w name rb = rb) ∧
  (∀ x y theta rb',
     addPoint s name x y theta rb = (rb', None) →
     sliceOf s (DeletePoint (word s) name rb') = Slice (pointsOf s rb) ∧
     (∀ s', s' ≠ s →
        sliceOf s' (DeletePoint (word s) name rb') = sliceOf s' rb) ∧
     WallObstacles (DeletePoint (word s) name rb') = WallObstacles rb ∧
     (DeletePoint (word s) name rb' = rb
      ↔ encodesNull (sliceOf s rb) = false)).
Proof.
  destruct (DeletePoint_slot s name rb) as (Hs & Ho & Hw).
  assert (Hnil : ∀ l : list NavigationPoint,
            sliceOf s rb = Slice l ↔
            encodesNull (sliceOf s rb) = false ∧ pointsOf s rb = l).
  { intros l. unfold pointsOf. destruct (sliceOf s rb) as [|l0]; simpl.
    - split; [done|]. by intros [? _].
    - split; [by intros [= ->]|]. by intros [_ ->]. }
  split; [by rewrite Hs, keepOthers_filter|].
  split; [by rewrite Hs|].
  split.
  { unfold pointsOf. rewrite Hs. simpl. rewrite names_keepOthers.
    intros [Hne _]%list_elem_of_filter. done. }
  split; [done|]. split; [done|]. split; [|split].
  - intros Hnin. pose proof (keepOthers_absent _ _ Hnin) as Hkeep.
    split; [unfold pointsOf at 1; by rewrite Hs|].
    rewrite (DeletePoint_same s name rb _ Hkeep), Hnil. tauto.
  - intros w Hw'. unfold DeletePoint.
    destruct (String.eqb_spec w "waypoint") as [->|_];
      [by destruct (Hw' SWaypoint)|].
    destruct (String.eqb_spec w "service_point") as [->|_];
      [by destruct (Hw' SServicePoint)|].
    destruct (String.eqb_spec w "patrol_point") as [->|_];
      [by destruct (Hw' SPatrolPoint)|].
    destruct (String.eqb_spec w "path_point") as [->|_];
      [by destruct (Hw' SPathPoint)|].
    done.
  - intros x y theta rb' Hadd.
    assert (Hne : name ≠ "").
    { intros Hbad. destruct (addPoint_error s name x y theta rb) as [e He];
        [by left|]. by rewrite Hadd in He. }
    assert (Htaken : name ∉ names (pointsOf s rb)).
    { intros Hbad. destruct (addPoint_error s name x y theta rb) as [e He];
        [by right|]. by rewrite Hadd in He. }
    rewrite addPoint_cases in Hadd.
    rewrite (proj2 (String.eqb_neq _ _) Hne) in Hadd.
    rewrite (proj2 (nameTaken_false _ _) Htaken) in Hadd.
    injection Hadd as <-.
    set (l := append (sliceOf s rb) (newPoint name x y theta)).
    destruct (set_sliceOf_slots s l rb) as (Ls & Lo & Lw).
    assert (Hkeep : keepOthers (elems l) name = pointsOf s rb).
    { unfold l, append. simpl. fold (pointsOf s rb).
      rewrite keepOthers_app, keepOthers_absent by done. simpl.
      by rewrite String.eqb_refl, app_nil_r. }
    rewrite DeletePoint_word, set_sliceOf_twice, Ls.
    unfold removeByName. rewrite Hkeep.
    destruct (set_sliceOf_slots s (Slice (pointsOf s rb)) rb)
      as (Ds & Do & Dw).
    split; [done|]. split; [done|]. split; [done|]. split.
    + intros H. apply set_sliceOf_inj in H.
      by destruct (proj1 (Hnil (pointsOf s rb)) (eq_sym H)).
    + intros H. rewrite <- (proj2 (Hnil (pointsOf s rb))) by done.
      apply set_sliceOf_same.
Qed.

(** On a new robot the path points are nil; adding a point and deleting it
    again leaves them empty, not nil. *)
Lemma DeletePoint_spec_witness :
  ∃ rb1,
    addPoint SPathPoint "gate" 1 2 0 noPoints = (rb1, None) ∧
    PathPoints (DeletePoint "path_point" "gate" rb1) = Slice [] ∧
    DeletePoint "path_point" "gate" rb1 ≠ noPoints ∧
    DeletePoint "wall" "gate" rb1 = rb1.
Proof.
  destruct (addPoint SPathPoint "gate" 1 2 0 noPoints) as [rb1 e] eqn:Hadd.
  assert (e = None) as -> by (vm_compute in Hadd; congruence).
  destruct (DeletePoint_spec SPathPoint "gate" noPoints)
    as (_ & _ & _ & _ & _ & _ & _ & Hround).
  destruct (DeletePoint_spec SPathPoint "gate" rb1)
    as (_ & _ & _ & _ & _ & _ & Hword & _).
  destruct (Hround 1%float 2%float 0%float rb1 Hadd) as (Hs & _ & _ & Hiff).
  exists rb1. split; [done|]. split; [exact Hs|]. split.
  - intros H. by apply Hiff in H.
  - apply Hword. intros []; discriminate.
Defined.

(** *** Names stay distinct *)

Lemma wellNamed_nil : wellNamed [].
Proof. split; [apply NoDup_nil_2|apply not_elem_of_nil]. Qed.

Lemma wellNamed_add (pts : list NavigationPoint) (name : string)
    (x y theta : float) :
  wellNamed pts → name ≠ "" → name ∉ names pts →
  wellNamed (pts ++ [newPoint name x y theta]).
Proof.
  intros [Hnd Hne] Hname Hfree. unfold wellNamed, names in *.
  rewrite fmap_app. simpl. split.
  - apply NoDup_app. split; [done|]. split; [|apply NoDup_singleton].
    intros n Hn ->%list_elem_of_singleton. done.
  - intros [?|Hin%list_elem_of_singleton]%elem_of_app; [done|].
    by apply Hname.
Qed.

Lemma wellNamed_remove (pts : slice NavigationPoint) (name : string) :
  wellNamed (elems pts) → wellNamed (elems (removeByName pts name)).
Proof.
  intros [Hnd Hne]. unfold wellNamed. simpl. rewrite names_keepOthers. split.
  - by apply NoDup_filter.
  - intros [_ Hin]%list_elem_of_filter. done.
Qed.

Lemma addPoint_wellNamed (s : slot) (name : string) (x y theta : float)
    (rb : Points) :
  allWellNamed rb → allWellNamed (addPoint s name x y theta rb).1.
Proof.
  intros Hall. rewrite addPoint_cases.
  destruct (String.eqb_spec name "") as [|Hne]; [done|].
  destruct (nameTaken name (pointsOf s rb)) eqn:Htaken; [done|].
  apply nameTaken_false in Htaken.
  destruct Hall as (H1 & H2 & H3 & H4).
  destruct s; simpl in *; unfold allWellNamed; simpl;
    refine (conj _ (conj _ (conj _ _))); try done; by apply wellNamed_add.
Qed.

Lemma AddWallObstacle_points (name : string) (x1 y1 x2 y2 : float)
    (rb : Points) (s : slot) :
  pointsOf s (AddWallObstacle name x1 y1 x2 y2 rb).1 = pointsOf s rb.
Proof.
  unfold AddWallObstacle. destruct (String.eqb name ""); by destruct s.
Qed.

Lemma allWellNamed_slots (rb rb' : Points) :
  (∀ s, pointsOf s rb' = pointsOf s rb) → allWellNamed rb → allWellNamed rb'.
Proof.
  intros Hsame (H1 & H2 & H3 & H4). unfold allWellNamed.
  pose proof (Hsame SWaypoint) as E1. pose proof (Hsame SServicePoint) as E2.
  pose proof (Hsame SPatrolPoint) as E3. pose proof (Hsame SPathPoint) as E4.
  unfold pointsOf in *. simpl in *. by rewrite E1, E2, E3, E4.
Qed.

Lemma serve_wellNamed (q : request) (rb : Points) :
  allWellNamed rb → allWellNamed (serve q rb).1.
Proof.
  intros Hall. destruct q as [w name x y theta x2 y2|w name|w]; simpl.
  - unfold AddNavigationPoint.
    destruct (String.eqb w "waypoint");
      [pose proof (addPoint_wellNamed SWaypoint name x y theta rb Hall) as H;
       simpl in H; by destruct (AddWaypoint name x y theta rb) as [? []]|].
    destruct (String.eqb w "service_point");
      [pose proof (addPoint_wellNamed SServicePoint name x y theta rb Hall) as H;
       simpl in H; by destruct (AddServicePoint name x y theta rb) as [? []]|].
    destruct (String.eqb w "patrol_point");
      [pose proof (addPoint_wellNamed SPatrolPoint name x y theta rb Hall) as H;
       simpl in H; by destruct (AddPatrolPoint name x y theta rb) as [? []]|].
    destruct (String.eqb w "path_point");
      [pose proof (addPoint_wellNamed SPathPoint name x y theta rb Hall) as H;
       simpl in H; by destruct (AddPathPoint name x y theta rb) as [? []]|].
    destruct (String.eqb w "wall"); [|done].
    assert (Hw : allWellNamed (AddWallObstacle name x y x2 y2 rb).1).
    { eapply allWellNamed_slots; [|done]. intros s.
      apply AddWallObstacle_points. }
    by destruct (AddWallObstacle name x y x2 y2 rb) as [? []].
  - destruct Hall as (H1 & H2 & H3 & H4). unfold DeletePoint.
    destruct (String.eqb w "waypoint");
      [refine (conj _ (conj _ (conj _ _))); try done;
       by apply wellNamed_remove|].
    destruct (String.eqb w "service_point");
      [refine (conj _ (conj _ (conj _ _))); try done;
       by apply wellNamed_remove|].
    destruct (String.eqb w "patrol_point");
      [refine (conj _ (conj _ (conj _ _))); try done;
       by apply wellNamed_remove|].
    destruct (String.eqb w "path_point");
      [refine (conj _ (conj _ (conj _ _))); try done;
       by apply wellNamed_remove|].
    done.
  - destruct Hall as (H1 & H2 & H3 & H4). unfold ClearNavigationPoints.
    destruct (String.eqb w "waypoint");
      [refine (conj _ (conj _ (conj _ _))); try done; apply wellNamed_nil|].
    destruct (String.eqb w "service_point");
      [refine (conj _ (conj _ (conj _ _))); try done; apply wellNamed_nil|].
    destruct (String.eqb w "patrol_point");
      [refine (conj _ (conj _ (conj _ _))); try done; apply wellNamed_nil|].
    destruct (String.eqb w "path_point");
      [refine (conj _ (conj _ (conj _ _))); try done; apply wellNamed_nil|].
    destruct (String.eqb w "wall"); done.
Qed.

(** X3. Whatever add, delete and clear requests the navigation handlers
    serve, in any order and with any type words and names, if the names in
    each of the four point lists were pairwise distinct and non-empty
    before, they are so afterwards; in particular they are for a robot that
    starts without points. (The import handler is not among these requests:
    it replaces a list unchecked.) *)
Theorem serveAll_wellNamed (qs : list request) (rb : Points) :
  allWellNamed rb → allWellNamed (serveAll qs rb).
Proof.
  revert rb. induction qs as [|q qs IH]; intros rb Hall; [done|].
  apply IH. by apply serve_wellNamed.
Qed.

Lemma serveAll_wellNamed_witness :
  allWellNamed
    (serveAll [Add "waypoint" "dock" 1 2 0 0 0;
               Add "waypoint" "dock" 3 4 0 0 0;
               Add "service_point" "dock" 3 4 0 0 0;
               Add "waypoint" "" 5 5 0 0 0;
               Delete "waypoint" "gate";
               Add "wall" "w1" 0 0 0 1 1;
               Clear "patrol_point"] noPoints) ∧
  names (elems
           (Waypoints
              (serveAll [Add "waypoint" "dock" 1 2 0 0 0;
                         Add "waypoint" "dock" 3 4 0 0 0;
                         Add "service_point" "dock" 3 4 0 0 0;
                         Add "waypoint" "" 5 5 0 0 0;
                         Delete "waypoint" "gate";
                         Add "wall" "w1" 0 0 0 1 1;
                         Clear "patrol_point"] noPoints))) = ["dock"].
Proof.
  split; [|reflexivity].
  apply serveAll_wellNamed.
  repeat split; try apply NoDup_nil_2; apply not_elem_of_nil.
Defined.

End NavigationSpec.

(** ** Velocity history and frequency counters *)
Module TelemetrySpec.
Import rosbridge telemetry.

Lemma onTwists_snoc (ts : list TwistData) (t : TwistData) (r : Velocities) :
  onTwists (ts ++ [t]) r = onTwist t (onTwists ts r).
Proof. unfold onTwists. by rewrite fold_left_app. Qed.

Lemma MaxHistory_onTwists (ts : list TwistData) (r : Velocities) :
  MaxHistory (onTwists ts r) = MaxHistory r.
Proof.
  induction ts as [|t ts IH] using rev_ind; [done|].
  by rewrite onTwists_snoc.
Qed.

(** X4. The velocity history is a sliding window: on a robot whose history
    is within [MaxHistory] (as after [NewRobot], with room for 100), after
    any run of velocity samples the history holds the most recent
    [MaxHistory] of all samples, oldest first (all of them while there are
    fewer), it never exceeds [MaxHistory], and the current velocity is the
    last sample. *)
Theorem onTwists_window (ts : list TwistData) (r : Velocities) :
  (0 ≤ MaxHistory r)%Z →
  (Z.of_nat (length (VelocityHistory r)) ≤ MaxHistory r)%Z →
  let all := VelocityHistory r ++ ts in
  GetVelocityHistory (onTwists ts r)
    = drop (length all - Z.to_nat (MaxHistory r)) all ∧
  (Z.of_nat (length (GetVelocityHistory (onTwists ts r))) ≤ MaxHistory r)%Z ∧
  Velocity (onTwists ts r) = default (Velocity r) (last ts).
Proof.
  intros Hmax Hlen. simpl. unfold GetVelocityHistory.
  induction ts as [|t ts IH] using rev_ind.
  - simpl. rewrite app_nil_r.
    replace (length (VelocityHistory r) - Z.to_nat (MaxHistory r)) with 0
      by lia.
    done.
  - destruct IH as (IHh & IHl & _). rewrite onTwists_snoc.
    rewrite last_snoc. simpl. split; [|split; [|done]].
    + rewrite MaxHistory_onTwists, IHh.
      set (n := length (VelocityHistory r ++ ts)) in *.
      set (M := Z.to_nat (MaxHistory r)) in *.
      rewrite app_assoc.
      rewrite <- (drop_app_le (VelocityHistory r ++ ts) [t]) by (unfold n; lia).
      rewrite (length_app (VelocityHistory r ++ ts) [t]). simpl.
      fold n.
      assert (Hd : length (drop (n - M) ((VelocityHistory r ++ ts) ++ [t]))
                   = n + 1 - (n - M)).
      { rewrite length_drop, length_app. simpl. fold n. lia. }
      rewrite Hd.
      destruct (Z.ltb_spec (MaxHistory r) (Z.of_nat (n + 1 - (n - M)))).
      * rewrite drop_drop. f_equal. lia.
      * f_equal. lia.
    + rewrite MaxHistory_onTwists.
      assert (Hl : length (VelocityHistory (onTwists ts r) ++ [t])
                   = S (length (VelocityHistory (onTwists ts r)))).
      { rewrite length_app. simpl. lia. }
      rewrite Hl.
      destruct (Z.ltb_spec (MaxHistory r)
                  (Z.of_nat (S (length (VelocityHistory (onTwists ts r)))))).
      * rewrite length_drop, Hl. lia.
      * rewrite Hl. lia.
Qed.

Lemma onTwists_window_witness :
  GetVelocityHistory
    (onTwists (samples.twist 1 0 :: replicate 100 (samples.twist 2 0))
       newVelocities)
    = replicate 100 (samples.twist 2 0) ∧
  Velocity
    (onTwists (samples.twist 1 0 :: replicate 100 (samples.twist 2 0))
       newVelocities)
    = samples.twist 2 0.
Proof.
  destruct (onTwists_window
              (samples.twist 1 0 :: replicate 100 (samples.twist 2 0))
              newVelocities) as (Hh & _ & Hv); [done|done|].
  split; [rewrite Hh|rewrite Hv]; reflexivity.
Defined.

(** *** Frequency counters *)

Lemma measureHz_last (now last : Z) : (measureHz now last).2 = now.
Proof. unfold measureHz. by destruct (last =? handlers.zeroTime)%Z. Qed.

Lemma measureHz_rate (now last : Z) :
  last ≠ handlers.zeroTime →
  (now - last ≤ 0 ∨ Second < now - last → (measureHz now last).1 = 0)%Z ∧
  (0 < now - last ≤ Second →
   (measureHz now last).1 = Second `div` (now - last) ∧
   1 ≤ (measureHz now last).1 ≤ Second)%Z.
Proof.
  intros Hlast. unfold measureHz.
  rewrite (proj2 (Z.eqb_neq _ _) Hlast). simpl.
  unfold handlers.Sub, handlers.minDuration, handlers.maxDuration, Second.
  change (2 ^ 63)%Z with 9223372036854775808%Z.
  set (e := (now - last)%Z). split.
  - intros [Hneg|Hslow].
    + rewrite (proj2 (Z.ltb_ge _ _)) by lia. done.
    + rewrite (proj2 (Z.ltb_lt _ _)) by lia.
      apply Z.quot_small. lia.
  - intros He.
    rewrite (proj2 (Z.ltb_lt _ _)) by lia.
    match goal with
    | |- context [Z.max ?lo (Z.min ?hi e)] =>
        replace (Z.max lo (Z.min hi e)) with e by lia
    end.
    rewrite Z.quot_div_nonneg by lia. split; [done|]. split.
    + apply Z.div_le_lower_bound; lia.
    + apply Z.div_le_upper_bound; nia.
Qed.

Lemma samples_app (ts1 ts2 : list Z) (c : Counter) :
  samples (ts1 ++ ts2) c = samples ts2 (samples ts1 c).
Proof. unfold samples. by rewrite fold_left_app. Qed.

Lemma lastTime_sample (now : Z) (c : Counter) : lastTime (sample now c) = now.
Proof.
  unfold sample. pose proof (measureHz_last now (lastTime c)) as H.
  by destruct (measureHz now (lastTime c)).
Qed.

Lemma Hz_sample (now : Z) (c : Counter) :
  Hz (sample now c) = (measureHz now (lastTime c)).1.
Proof. unfold sample. by destruct (measureHz now (lastTime c)). Qed.

(** X5. The rate a frequency counter shows depends only on the last two
    arrival instants [a] and [b]: it is 0 when [b] is not after [a] or more
    than one second after it, and otherwise one second divided by [b - a]
    (rounded down), a value between 1 and 10^9; the counter then remembers
    [b]. After the very first sample the rate is 0. *)
Theorem samples_rate (ts : list Z) (a b : Z) (c : Counter) :
  a ≠ handlers.zeroTime →
  lastTime (samples (ts ++ [a; b]) c) = b ∧
  ((b - a ≤ 0)%Z ∨ (Second < b - a)%Z → Hz (samples (ts ++ [a; b]) c) = 0%Z) ∧
  ((0 < b - a ≤ Second)%Z →
   Hz (samples (ts ++ [a; b]) c) = (Second `div` (b - a))%Z ∧
   (1 ≤ Hz (samples (ts ++ [a; b]) c) ≤ Second)%Z) ∧
  Hz (samples [a] newCounter) = 0%Z.
Proof.
  intros Ha. rewrite samples_app.
  change (samples [a; b] (samples ts c))
    with (sample b (sample a (samples ts c))).
  rewrite lastTime_sample, Hz_sample, lastTime_sample.
  destruct (measureHz_rate b a Ha) as [Hzero Hrate].
  repeat split; try done; by apply Hrate.
Qed.

Lemma samples_rate_witness :
  Hz (samples ([samples.ms 0] ++ [samples.ms 900; samples.ms 1000]) newCounter)
    = 10%Z ∧
  Hz (samples ([] ++ [samples.ms 0; samples.ms 1500]) newCounter) = 0%Z.
Proof.
  destruct (samples_rate [samples.ms 0] (samples.ms 900) (samples.ms 1000)
              newCounter) as (_ & _ & Hrate & _); [done|].
  destruct (samples_rate [] (samples.ms 0) (samples.ms 1500) newCounter)
    as (_ & Hzero & _ & _); [done|].
  split.
  - destruct Hrate as [-> _]; [|reflexivity]. vm_compute. split; congruence.
  - apply Hzero. right. vm_compute. reflexivity.
Defined.

End TelemetrySpec.

(** ** Subscriptions, routing and the life of a link *)
Module SessionSpec.
Import rosbridge session.

Lemma append_inj (p a b : string) : p +:+ a = p +:+ b → a = b.
Proof. induction p as [|x p IH]; simpl; intros H; [done|]. injection H; auto. Qed.

Lemma eqb_append (p a b : string) :
  String.eqb (p +:+ a) (p +:+ b) = String.eqb a b.
Proof.
  induction p as [|x p IH]; simpl; [done|]. by rewrite Ascii.eqb_refl.
Qed.

Lemma wire_send (f : Frame) (c : Client) :
  wire (send f c).1 = wire c ++ (if linkUp c then [f] else []).
Proof.
  unfold send, wire, linkUp. destruct (connected c); simpl.
  - destruct (conn c) as [k|] eqn:Hk; simpl; [|by rewrite Hk].
    destruct (werr k); simpl; [by rewrite Hk, app_nil_r|done].
  - by rewrite app_nil_r.
Qed.

Lemma linkUp_after_send (f : Frame) (c : Client) : linkUp (send f c).1 = linkUp c.
Proof.
  unfold send, linkUp. destruct (connected c) eqn:Hc; simpl; [|by rewrite Hc].
  destruct (conn c) as [k|] eqn:Hk; simpl; [|by rewrite Hc, Hk].
  destruct (werr k) eqn:He; simpl; rewrite Hc; [by rewrite Hk, He|done].
Qed.

Lemma ns_send (f : Frame) (c : Client) : ns (send f c).1 = ns c.
Proof.
  unfold send. destruct (negb (connected c)); [done|].
  destruct (conn c) as [k|]; [|done]. by destruct (werr k).
Qed.

Lemma topicCmdVel_send (f : Frame) (c : Client) :
  topicCmdVel (send f c).1 = topicCmdVel c.
Proof.
  unfold send. destruct (negb (connected c)); [done|].
  destruct (conn c) as [k|]; [|done]. by destruct (werr k).
Qed.

Lemma connected_send (f : Frame) (c : Client) :
  connected (send f c).1 = connected c.
Proof.
  unfold send. destruct (negb (connected c)); [done|].
  destruct (conn c) as [k|]; [|done]. by destruct (werr k).
Qed.

Lemma wire_set_topicCmdVel (s : string) (c : Client) :
  wire (set_topicCmdVel s c) = wire c.
Proof. done. Qed.

Lemma linkUp_set_topicCmdVel (s : string) (c : Client) :
  linkUp (set_topicCmdVel s c) = linkUp c.
Proof. done. Qed.

Lemma desiredTwist_send (f : Frame) (c : Client) :
  desiredTwist (send f c).1 = desiredTwist c.
Proof.
  unfold send. destruct (negb (connected c)); [done|].
  destruct (conn c) as [k|]; [|done]. by destruct (werr k).
Qed.

Lemma lastTwist_send (f : Frame) (c : Client) :
  lastTwist (send f c).1 = lastTwist c.
Proof.
  unfold send. destruct (negb (connected c)); [done|].
  destruct (conn c) as [k|]; [|done]. by destruct (werr k).
Qed.

Lemma send_down (f : Frame) (c : Client) :
  connected c = false → send f c = (c, Some (Errorf "not connected")).
Proof. intros H. unfold send. by rewrite H. Qed.

Lemma subscribeTo_link (k : kind) (suffix : string) (ct : Client * Topics) :
  let c' := (subscribeTo k suffix ct).1 in
  (ns c', linkUp c', connected c', desiredTwist c', lastTwist c')
  = (ns ct.1, linkUp ct.1, connected ct.1, desiredTwist ct.1, lastTwist ct.1).
Proof.
  destruct ct as [c t].
  destruct k; cbn [subscribeTo];
    unfold SubscribeMap, SubscribeTF, SubscribeOdom, SubscribeControllerOdom,
      SubscribeLaser, SubscribeMapBfp, SubscribeCmdVel,
      rosbridge.SubscribeCmdVel, subscribe; cbn [fst snd];
    by rewrite linkUp_after_send, ns_send, connected_send, desiredTwist_send,
      lastTwist_send.
Qed.

Lemma ns_subscribeTo (k : kind) (suffix : string) (ct : Client * Topics) :
  ns (subscribeTo k suffix ct).1 = ns ct.1.
Proof. pose proof (subscribeTo_link k suffix ct) as H. by injection H. Qed.

Lemma linkUp_subscribeTo (k : kind) (suffix : string) (ct : Client * Topics) :
  linkUp (subscribeTo k suffix ct).1 = linkUp ct.1.
Proof. pose proof (subscribeTo_link k suffix ct) as H. by injection H. Qed.

Lemma connected_subscribeTo (k : kind) (suffix : string)
    (ct : Client * Topics) :
  connected (subscribeTo k suffix ct).1 = connected ct.1.
Proof. pose proof (subscribeTo_link k suffix ct) as H. by injection H. Qed.

Lemma topicOf_subscribeTo (k : kind) (suffix : string) (ct : Client * Topics) :
  topicOf k (subscribeTo k suffix ct)
  = ns ct.1 +:+ (if String.eqb suffix "" then defaultSuffix k else suffix).
Proof.
  destruct ct as [c t].
  destruct k; cbn [subscribeTo topicOf defaultSuffix];
    unfold SubscribeMap, SubscribeTF, SubscribeOdom, SubscribeControllerOdom,
      SubscribeLaser, SubscribeMapBfp, SubscribeCmdVel,
      rosbridge.SubscribeCmdVel, subscribe; cbn [fst snd];
    rewrite ?topicCmdVel_send; done.
Qed.

Lemma topicOf_subscribeTo_ne (k k' : kind) (suffix : string)
    (ct : Client * Topics) :
  k' ≠ k → topicOf k' (subscribeTo k suffix ct) = topicOf k' ct.
Proof.
  intros Hk. destruct ct as [c t].
  destruct k; cbn [subscribeTo];
    unfold SubscribeMap, SubscribeTF, SubscribeOdom, SubscribeControllerOdom,
      SubscribeLaser, SubscribeMapBfp, SubscribeCmdVel,
      rosbridge.SubscribeCmdVel, subscribe; cbn [fst snd];
    destruct k'; cbn [topicOf fst snd]; rewrite ?topicCmdVel_send;
    done.
Qed.

Lemma wire_subscribeTo (k : kind) (suffix : string) (ct : Client * Topics) :
  wire (subscribeTo k suffix ct).1
  = wire ct.1
    ++ (if linkUp ct.1
        then [SubscribeMsg
                (ns ct.1
                 +:+ (if String.eqb suffix "" then defaultSuffix k else suffix))
                (typeOf k)]
        else []).
Proof.
  destruct ct as [c t].
  destruct k; cbn [subscribeTo defaultSuffix typeOf];
    unfold SubscribeMap, SubscribeTF, SubscribeOdom, SubscribeControllerOdom,
      SubscribeLaser, SubscribeMapBfp, SubscribeCmdVel,
      rosbridge.SubscribeCmdVel, subscribe; cbn [fst snd];
    by rewrite wire_send.
Qed.

(** X6. Each of the seven [Subscribe...] methods records under its own
    field the namespace followed by the given suffix, or by the method's
    default suffix when the argument is empty, and leaves the six other names
    alone. On a link that is up it writes exactly one subscribe frame with
    that name and the method's message type; on any other link it writes
    nothing, and the name is recorded all the same. *)
Theorem subscribeTo_records (k : kind) (suffix : string) (ct : Client * Topics) :
  let name :=
    ns ct.1 +:+ (if String.eqb suffix "" then defaultSuffix k else suffix) in
  let ct' := subscribeTo k suffix ct in
  topicOf k ct' = name ∧
  (∀ k', k' ≠ k → topicOf k' ct' = topicOf k' ct) ∧
  wire ct'.1
  = wire ct.1 ++ (if linkUp ct.1 then [SubscribeMsg name (typeOf k)] else []) ∧
  ns ct'.1 = ns ct.1 ∧
  linkUp ct'.1 = linkUp ct.1.
Proof.
  cbn zeta. split; [apply topicOf_subscribeTo|].
  split; [intros k' Hk'; by apply topicOf_subscribeTo_ne|].
  split; [apply wire_subscribeTo|].
  split; [apply ns_subscribeTo|apply linkUp_subscribeTo].
Qed.

Lemma SubscribeAllTopics_nested (ct : Client * Topics) :
  SubscribeAllTopics ct
  = subscribeTo KCmdVel ""
      (subscribeTo KMapBfp ""
         (subscribeTo KLaser ""
            (subscribeTo KCtrlOdom ""
               (subscribeTo KOdom ""
                  (subscribeTo KTF "" (subscribeTo KMap "" ct)))))).
Proof. done. Qed.

Lemma SubscribeAllTopics_names (ct : Client * Topics) (k : kind) :
  topicOf k (SubscribeAllTopics ct) = standardName ct.1 k.
Proof.
  rewrite SubscribeAllTopics_nested. unfold standardName.
  destruct k;
    rewrite ?topicOf_subscribeTo_ne by discriminate;
    rewrite topicOf_subscribeTo, ?ns_subscribeTo; done.
Qed.

Lemma handlePublish_standard (ct : Client * Topics) (p : string) :
  (∀ k, topicOf k ct = p +:+ defaultSuffix k) →
  (∀ k, handlePublish (p +:+ defaultSuffix k) ct = Some (parserOf k)) ∧
  (∀ topic, (∀ k, topic ≠ p +:+ defaultSuffix k) →
     handlePublish topic ct = None).
Proof.
  intros H. unfold handlePublish.
  pose proof (H KMap) as H1. pose proof (H KCmdVel) as H2.
  pose proof (H KTF) as H3. pose proof (H KOdom) as H4.
  pose proof (H KCtrlOdom) as H5. pose proof (H KLaser) as H6.
  pose proof (H KMapBfp) as H7.
  cbn [topicOf] in H1, H2, H3, H4, H5, H6, H7.
  rewrite H1, H2, H3, H4, H5, H6, H7. clear H H1 H2 H3 H4 H5 H6 H7. split.
  - intros k. rewrite !eqb_append. destruct k; vm_compute; reflexivity.
  - intros topic Hno.
    pose proof (Hno KMap) as N1. pose proof (Hno KCmdVel) as N2.
    pose proof (Hno KTF) as N3. pose proof (Hno KOdom) as N4.
    pose proof (Hno KCtrlOdom) as N5. pose proof (Hno KLaser) as N6.
    pose proof (Hno KMapBfp) as N7. clear Hno.
    apply String.eqb_neq in N1, N2, N3, N4, N5, N6, N7.
    by rewrite N1, N2, N3, N4, N5, N6, N7.
Qed.

Lemma SubscribeAllTopics_wire (ct : Client * Topics) :
  wire (SubscribeAllTopics ct).1
  = wire ct.1 ++ (if linkUp ct.1 then subscribeFrame ct.1 <$> standard else []).
Proof.
  rewrite SubscribeAllTopics_nested.
  rewrite !wire_subscribeTo, !linkUp_subscribeTo, !ns_subscribeTo.
  unfold subscribeFrame, standardName, standard.
  destruct (linkUp ct.1); cbn [fmap list_fmap String.eqb];
    rewrite <- ?app_assoc, ?app_nil_r; done.
Qed.

Lemma SubscribeAllTopics_link (ct : Client * Topics) :
  let c' := (SubscribeAllTopics ct).1 in
  ns c' = ns ct.1 ∧ linkUp c' = linkUp ct.1 ∧ connected c' = connected ct.1 ∧
  desiredTwist c' = desiredTwist ct.1 ∧ lastTwist c' = lastTwist ct.1.
Proof.
  assert (H : let c' := (SubscribeAllTopics ct).1 in
              (ns c', linkUp c', connected c', desiredTwist c', lastTwist c')
              = (ns ct.1, linkUp ct.1, connected ct.1, desiredTwist ct.1,
                 lastTwist ct.1)).
  { rewrite SubscribeAllTopics_nested. cbn zeta. by rewrite !subscribeTo_link. }
  cbn zeta in *. set (c' := (SubscribeAllTopics ct).1) in *. clearbody c'.
  by injection H.
Qed.

(** X7. After [SubscribeAllTopics] the seven recorded names are the
    namespace followed by the seven default suffixes; a publish frame whose
    topic is one of them is handed to the parser of that topic and to no
    other, a publish frame with any other topic is dropped, and a
    service response goes to the pending-call table whatever its topic. On a
    link that is up the call writes the seven subscribe frames in the order
    map, tf, odom, controller odom, laser, map-bfp, cmd_vel. *)
Theorem SubscribeAllTopics_routes (ct : Client * Topics) :
  let ct' := SubscribeAllTopics ct in
  (∀ k, topicOf k ct' = standardName ct.1 k) ∧
  (∀ k id, handleMessage
             (Some {| Op := "publish"; Topic := standardName ct.1 k;
                      ID := id |}) ct'
           = ToParser (parserOf k)) ∧
  (∀ topic id, (∀ k, topic ≠ standardName ct.1 k) →
     handleMessage (Some {| Op := "publish"; Topic := topic; ID := id |}) ct'
     = Discarded) ∧
  (∀ topic id,
     handleMessage
       (Some {| Op := "service_response"; Topic := topic; ID := id |}) ct'
     = ToService id) ∧
  wire ct'.1
  = wire ct.1 ++ (if linkUp ct.1 then subscribeFrame ct.1 <$> standard else []).
Proof.
  intros ct'.
  destruct (handlePublish_standard ct' (ns ct.1)
              (SubscribeAllTopics_names ct)) as [Hyes Hno].
  split; [apply SubscribeAllTopics_names|].
  split; [intros k id; unfold handleMessage; simpl;
          unfold standardName; by rewrite Hyes|].
  split; [intros topic id H; unfold handleMessage; simpl;
          by rewrite (Hno topic H)|].
  split; [done|]. apply SubscribeAllTopics_wire.
Qed.

Lemma unsubscribe_fold (l : list string) (c : Client) :
  let c' :=
    fold_left
      (λ c t, if negb (String.eqb t "") then (send (UnsubscribeMsg t) c).1
              else c) l c in
  wire c'
  = wire c
    ++ (if linkUp c then UnsubscribeMsg <$> filter (λ t, t ≠ "") l else []) ∧
  linkUp c' = linkUp c ∧
  topicCmdVel c' = topicCmdVel c ∧
  connected c' = connected c.
Proof.
  revert c. induction l as [|t l IH]; intros c; simpl.
  - split; [|done]. by destruct (linkUp c); rewrite app_nil_r.
  - destruct (String.eqb_spec t "") as [->|Ht]; simpl.
    + destruct (IH c) as (H1 & H2 & H3 & H4).
      rewrite filter_cons_False by (intros H; by apply H). done.
    + destruct (IH (send (UnsubscribeMsg t) c).1) as (H1 & H2 & H3 & H4).
      rewrite H1, H2, H3, H4.
      rewrite wire_send, linkUp_after_send, topicCmdVel_send, connected_send.
      rewrite filter_cons_True by done.
      split; [|done]. destruct (linkUp c); simpl; by rewrite <- app_assoc.
Qed.

(** X8. [UnsubscribeAll] writes, on a link that is up, one unsubscribe
    frame for each recorded name that is not empty, in the order map,
    cmd_vel, tf, odom, controller odom, laser, map-bfp, and nothing on any
    other link. It forgets no name: a publish frame that arrives afterwards
    is routed exactly as before. *)
Theorem UnsubscribeAll_frames (ct : Client * Topics) :
  let ct' := UnsubscribeAll ct in
  wire ct'.1
  = wire ct.1
    ++ (if linkUp ct.1
        then UnsubscribeMsg <$> filter (λ t, t ≠ "") (recorded ct) else []) ∧
  recorded ct' = recorded ct ∧
  (∀ topic, handlePublish topic ct' = handlePublish topic ct) ∧
  linkUp ct'.1 = linkUp ct.1.
Proof.
  destruct ct as [c t]. unfold UnsubscribeAll.
  destruct (unsubscribe_fold (recorded (c, t)) c) as (H1 & H2 & H3 & H4).
  simpl in *. split; [exact H1|]. split; [unfold recorded; simpl; by rewrite H3|].
  split; [|exact H2]. intros topic. unfold handlePublish. simpl. by rewrite H3.
Qed.

Lemma publishCmdVelTick_wire (c : Client) :
  wire (publishCmdVelTick c)
  = wire c
    ++ (if linkUp c && cmdVelEnabled c
           && negb (String.eqb (topicCmdVel c) "")
           && negb (twistUnchanged (desiredTwist c) (lastTwist c))
        then [PublishMsg (topicCmdVel c) (cmdVelMsg (desiredTwist c))]
        else []).
Proof.
  unfold publishCmdVelTick.
  destruct (connected c) eqn:Hc; simpl.
  - destruct (cmdVelEnabled c); simpl;
      [|by rewrite andb_false_r, app_nil_r].
    rewrite andb_true_r.
    destruct (String.eqb (topicCmdVel c) ""); simpl;
      [by rewrite andb_false_r, app_nil_r|].
    rewrite andb_true_r.
    destruct (twistUnchanged (desiredTwist c) (lastTwist c)); simpl;
      [by rewrite andb_false_r, app_nil_r|].
    rewrite andb_true_r.
    change (wire (set_lastTwist ?t ?x)) with (wire x). by rewrite wire_send.
  - unfold linkUp. rewrite Hc. simpl. by rewrite app_nil_r.
Qed.

Lemma tick_enabled (x : Client) :
  linkUp x = true →
  String.eqb (topicCmdVel x) "" = false →
  wire (publishCmdVelTick (SetCmdVelEnabled true x))
  = wire x
    ++ (if twistUnchanged (desiredTwist x) (lastTwist x) then []
        else [PublishMsg (topicCmdVel x) (cmdVelMsg (desiredTwist x))]).
Proof.
  intros Hup Hne. rewrite publishCmdVelTick_wire.
  change (wire (SetCmdVelEnabled true x)) with (wire x).
  change (linkUp (SetCmdVelEnabled true x)) with (linkUp x).
  change (topicCmdVel (SetCmdVelEnabled true x)) with (topicCmdVel x).
  change (cmdVelEnabled (SetCmdVelEnabled true x)) with true.
  change (desiredTwist (SetCmdVelEnabled true x)) with (desiredTwist x).
  change (lastTwist (SetCmdVelEnabled true x)) with (lastTwist x).
  rewrite Hup, Hne. simpl.
  by destruct (twistUnchanged (desiredTwist x) (lastTwist x)).
Qed.

Lemma Connect_dial_down (k : Conn) (c : Client) :
  connected c = false →
  Connect (inl k) c
  = (set_connected true (set_conn (Some k) c), None,
     [GoReadLoop; GoCmdVelPublisher; GoOnConnected]).
Proof. intros H. unfold Connect. by rewrite H. Qed.

Lemma standardName_nonempty (c : Client) (k : kind) :
  String.eqb (standardName c k) "" = false.
Proof.
  apply String.eqb_neq. unfold standardName.
  destruct (ns c); destruct k; discriminate.
Qed.

Lemma topicOf_KCmdVel (ct : Client * Topics) :
  topicCmdVel ct.1 = topicOf KCmdVel ct.
Proof. done. Qed.

Lemma onConnected_link (ct : Client * Topics) :
  (onConnected ct).1 = SetCmdVelEnabled true (SubscribeAllTopics ct).1.
Proof. done. Qed.

(** What the first tick after the connected callback puts on the socket. *)
Lemma tick_after_onConnected (ct : Client * Topics) :
  linkUp ct.1 = true →
  wire (publishCmdVelTick (onConnected ct).1)
  = wire ct.1 ++ (subscribeFrame ct.1 <$> standard)
    ++ (if twistUnchanged (desiredTwist ct.1) (lastTwist ct.1) then []
        else [PublishMsg (standardName ct.1 KCmdVel)
                (cmdVelMsg (desiredTwist ct.1))]).
Proof.
  intros Hup. rewrite onConnected_link.
  destruct (SubscribeAllTopics_link ct) as (Hns & Hlu & _ & Hd & Hl).
  pose proof (SubscribeAllTopics_names ct KCmdVel) as Hname.
  rewrite <- topicOf_KCmdVel in Hname.
  pose proof (SubscribeAllTopics_wire ct) as Hw.
  rewrite tick_enabled.
  - rewrite Hw, Hd, Hl, Hname, Hup. by rewrite <- app_assoc.
  - by rewrite Hlu.
  - rewrite Hname. apply standardName_nonempty.
Qed.

(** X9. The desired command outlives the link. A command stored by
    [SetDesiredCmdVel] while the link is down is not sent then; once
    [Connect] has succeeded and the connected callback has subscribed and
    enabled publishing, the first tick (with no other goroutine in its way)
    writes a frame for it, unless it equals the last command sent in the
    three fields that go on the wire. That frame is the publish document of
    the command on the default command topic when the three fields are
    finite, and an empty text frame when one of them is NaN or infinite. The
    new socket carries the seven subscribe frames and that frame, and
    nothing else. *)
Theorem command_survives_reconnect
    (t : TwistData) (k : Conn) (c : Client) (tp : Topics) :
  connected c = false →
  werr k = None →
  let c1 := SetDesiredCmdVel t c in
  let c2 := (Connect (inl k) c1).1.1 in
  let ct3 := onConnected (c2, tp) in
  wire c1 = wire c ∧
  wire (publishCmdVelTick ct3.1)
  = written k ++ (subscribeFrame c <$> standard)
    ++ (if twistUnchanged t (lastTwist c) then []
        else if marshalsCmd t
             then [PublishJSON (standardName c KCmdVel) (cmdVelMsg t)]
             else [NoBytes]).
Proof.
  intros Hc Hk. cbn zeta. split; [done|].
  rewrite Connect_dial_down by exact Hc. cbn [fst].
  rewrite tick_after_onConnected.
  - rewrite CmdVelSpec.PublishMsg_cmdVelMsg. cbn [fst].
    change (desiredTwist (set_connected true _)) with t.
    by destruct (marshalsCmd t).
  - unfold linkUp. simpl. by rewrite Hk.
Qed.

(** A desired command, a closed dial away from an open socket; and one
    that does not marshal. *)
Lemma command_survives_reconnect_witness :
  wire (publishCmdVelTick
          (onConnected
             ((Connect (inl {| werr := None; written := [] |})
                 (SetDesiredCmdVel (samples.twist 1 0) (NewClient "/r1"))).1.1,
              noTopics)).1)
  = (subscribeFrame (NewClient "/r1") <$> standard)
    ++ [PublishJSON "/r1/diff_controller/cmd_vel_unstamped"
          (cmdVelMsg (samples.twist 1 0))] ∧
  wire (publishCmdVelTick
          (onConnected
             ((Connect (inl {| werr := None; written := [] |})
                 (SetDesiredCmdVel samples.nanTwist (NewClient "/r1"))).1.1,
              noTopics)).1)
  = (subscribeFrame (NewClient "/r1") <$> standard) ++ [NoBytes].
Proof.
  split.
  - exact (proj2 (command_survives_reconnect (samples.twist 1 0)
                    {| werr := None; written := [] |} (NewClient "/r1")
                    noTopics eq_refl eq_refl)).
  - exact (proj2 (command_survives_reconnect samples.nanTwist
                    {| werr := None; written := [] |} (NewClient "/r1")
                    noTopics eq_refl eq_refl)).
Defined.

Lemma linkUp_down (c : Client) : connected c = false → linkUp c = false.
Proof. intros H. unfold linkUp. by rewrite H. Qed.

Lemma connected_tick (c : Client) :
  connected (publishCmdVelTick c) = connected c.
Proof.
  unfold publishCmdVelTick.
  destruct (negb (connected c) || negb (cmdVelEnabled c)); [done|].
  destruct (String.eqb (topicCmdVel c) ""); [done|].
  destruct (twistUnchanged (desiredTwist c) (lastTwist c)); [done|].
  change (connected (set_lastTwist ?t ?x)) with (connected x).
  apply connected_send.
Qed.

Lemma apply_down (u : use) (ct : Client * Topics) :
  connected ct.1 = false →
  wire (apply u ct).1 = wire ct.1 ∧ connected (apply u ct).1 = false.
Proof.
  intros Hc. pose proof (linkUp_down _ Hc) as Hup.
  destruct u as [f| |t|b|k suffix| |]; cbn [apply fst snd].
  - by rewrite wire_send, connected_send, Hup, app_nil_r.
  - rewrite publishCmdVelTick_wire, connected_tick, Hup. simpl.
    by rewrite app_nil_r.
  - done.
  - done.
  - rewrite wire_subscribeTo, Hup, app_nil_r.
    by rewrite connected_subscribeTo.
  - rewrite SubscribeAllTopics_wire, Hup, app_nil_r.
    destruct (SubscribeAllTopics_link ct) as (_ & _ & H & _). by rewrite H.
  - destruct (unsubscribe_fold (recorded ct) ct.1) as (H1 & _ & _ & H4).
    unfold UnsubscribeAll. cbn [fst].
    by rewrite H1, H4, Hup, app_nil_r.
Qed.

(** X10. Nothing is written, and nothing is kept for later, while the link
    is down: whatever is done with a disconnected link (sending, ticking,
    setting the command, subscribing, unsubscribing), its socket carries
    what it carried before, the link stays down, and the socket installed by
    the next successful [Connect] starts with what that socket holds, not
    with the frames that were refused. *)
Theorem down_writes_nothing
    (us : list use) (ct : Client * Topics) (k : Conn) :
  connected ct.1 = false →
  let ct' := applyAll us ct in
  wire ct'.1 = wire ct.1 ∧
  connected ct'.1 = false ∧
  wire (Connect (inl k) ct'.1).1.1 = written k.
Proof.
  intros Hc. cbn zeta.
  assert (H : wire (applyAll us ct).1 = wire ct.1
              ∧ connected (applyAll us ct).1 = false).
  { revert ct Hc. induction us as [|u us IH]; intros ct Hc; [done|].
    unfold applyAll. simpl. destruct (apply_down u ct Hc) as [Hw Hd].
    destruct (IH (apply u ct) Hd) as [Hw' Hd']. unfold applyAll in Hw', Hd'.
    by rewrite Hw', Hd', Hw. }
  destruct H as [Hw Hd]. split; [done|]. split; [done|].
  by rewrite Connect_dial_down.
Qed.

(** A fresh link that is used before it is connected. *)
Lemma down_writes_nothing_witness :
  let ct' :=
    applyAll [USubscribeAllTopics; USend (UnsubscribeMsg "/r1/map"); UTick]
      (NewClient "/r1", noTopics) in
  wire ct'.1 = [] ∧
  connected ct'.1 = false ∧
  wire (Connect (inl {| werr := None; written := [] |}) ct'.1).1.1 = [].
Proof.
  exact (down_writes_nothing
           [USubscribeAllTopics; USend (UnsubscribeMsg "/r1/map"); UTick]
           (NewClient "/r1", noTopics) {| werr := None; written := [] |}
           eq_refl).
Defined.

Lemma count_app (e : effect) (a b : list effect) :
  count e (a ++ b) = count e a + count e b.
Proof. unfold count. by rewrite filter_app, length_app. Qed.

Lemma happen_balance (e : event) (l : Client * nat) :
  let trace := (happen e l).2 in
  count GoOnConnected trace + Nat.b2n (connected l.1)
  = count GoOnDisconnected trace + Nat.b2n (connected (happen e l).1.1) ∧
  count GoReadLoop trace = count GoOnConnected trace ∧
  count GoCmdVelPublisher trace = count GoOnConnected trace ∧
  count StopPublisher trace <= count GoOnDisconnected trace ∧
  (isDisconnect e = false → count StopPublisher trace = 0).
Proof.
  destruct l as [c n]. destruct c as [? ? up ? ? ? ? ? ? ? ?].
  destruct e as [[k|err]| | |[k|err]]; try destruct n as [|n];
    destruct up; vm_compute;
    repeat split; intros; try lia; try discriminate; auto.
Qed.

Lemma play_cons (e : event) (es : list event) (l : Client * nat) :
  play (e :: es) l
  = ((play es (happen e l).1).1, (happen e l).2 ++ (play es (happen e l).1).2).
Proof.
  simpl. destruct (happen e l) as [l1 e1]. simpl.
  by destruct (play es l1) as [l2 e2].
Qed.

(** X11. Over every run of [Connect] calls, [Disconnect] calls, failed
    reads and reconnect wake-ups, with dials that succeed or fail at will,
    connected and disconnected callbacks stay in step with the link: the
    number of connected callbacks started, plus one if the link was up at the
    beginning, is the number of disconnected callbacks started, plus one if
    the link is up at the end. Each connected callback comes with exactly one
    new read loop and one new command publisher. *)
Theorem play_callbacks (es : list event) (l : Client * nat) :
  let trace := (play es l).2 in
  count GoOnConnected trace + Nat.b2n (connected l.1)
  = count GoOnDisconnected trace + Nat.b2n (connected (play es l).1.1) ∧
  count GoReadLoop trace = count GoOnConnected trace ∧
  count GoCmdVelPublisher trace = count GoOnConnected trace.
Proof.
  revert l. induction es as [|e es IH]; intros l; [done|].
  rewrite play_cons. cbn [fst snd]. cbn zeta. rewrite !count_app.
  destruct (happen_balance e l) as (H1 & H2 & H3 & _).
  destruct (IH (happen e l).1) as (I1 & I2 & I3). cbn zeta in *. lia.
Qed.

(** X12. Only [Disconnect] stops the command publisher. In a run with no
    [Disconnect] call no publisher is told to stop, while every successful
    dial starts a new one: the publishers started, plus one if the link was
    up at the beginning, are as many as the links lost to a failed read,
    plus one if the link is up at the end. So every reconnect after a failed
    read leaves the publisher of the lost link running beside the new one. *)
Theorem publishers_outlive_read_errors (es : list event) (l : Client * nat) :
  forallb (λ e, negb (isDisconnect e)) es = true →
  let trace := (play es l).2 in
  count StopPublisher trace = 0 ∧
  count GoCmdVelPublisher trace + Nat.b2n (connected l.1)
  = count GoOnDisconnected trace + Nat.b2n (connected (play es l).1.1).
Proof.
  revert l. induction es as [|e es IH]; intros l Hes; [done|].
  simpl in Hes. apply andb_prop in Hes as [He Hes].
  apply negb_true_iff in He.
  rewrite play_cons. cbn [fst snd]. cbn zeta. rewrite !count_app.
  destruct (happen_balance e l) as (H1 & _ & H3 & _ & H5).
  destruct (IH (happen e l).1 Hes) as (I1 & I2). cbn zeta in *.
  specialize (H5 He). lia.
Qed.

(** A link that is lost to a failed read and dialled again. *)
Lemma publishers_outlive_read_errors_witness :
  let trace :=
    (play [EvReadError; EvReconnect (inl {| werr := None; written := [] |})]
       (samples.upClient, 0)).2 in
  count StopPublisher trace = 0 ∧
  count GoCmdVelPublisher trace + 1 = count GoOnDisconnected trace + 1.
Proof.
  exact (publishers_outlive_read_errors
           [EvReadError; EvReconnect (inl {| werr := None; written := [] |})]
           (samples.upClient, 0) eq_refl).
Defined.

Lemma set_connected_false (c : Client) :
  connected c = false → set_connected false c = c.
Proof. intros H. destruct c. simpl in H. by subst. Qed.

Lemma play_down (es : list event) (c : Client) :
  connected c = false →
  forallb (λ e, negb (isConnect e)) es = true →
  play es (c, 0) = (c, 0, []).
Proof.
  intros Hc. induction es as [|e es IH]; intros Hes; [done|].
  simpl in Hes. apply andb_prop in Hes as [He Hes].
  rewrite play_cons.
  assert (Hh : happen e (c, 0) = (c, 0, [])).
  { destruct e as [dial| | |dial]; [done| | |done].
    - unfold happen, Disconnect. cbn [fst snd]. by rewrite Hc.
    - unfold happen, readFailed. cbn [fst snd].
      by rewrite Hc, (set_connected_false c Hc). }
  rewrite Hh. cbn [fst snd]. by rewrite (IH Hes).
Qed.

(** X13. [Disconnect] is final when no reconnect is pending: after it, no
    run of further [Disconnect] calls, failed reads and wake-ups brings the
    link up or starts anything; only a call of [Connect] does. It does not
    cancel a reconnect that is pending: when the link was lost to a failed
    read and [Disconnect] is called before the reconnect wakes up, the
    reconnect still dials, and a successful dial brings the link up again. *)
Theorem Disconnect_final (es : list event) (c : Client) (k : Conn) :
  connected c = true →
  forallb (λ e, negb (isConnect e)) es = true →
  play (EvDisconnect :: es) (c, 0)
  = ((Disconnect c).1, 0, [StopPublisher; GoOnDisconnected]) ∧
  connected (Disconnect c).1 = false ∧
  play [EvReadError; EvDisconnect; EvReconnect (inl k)] (c, 0)
  = (set_connected true (set_conn (Some k) c), 0,
     [GoOnDisconnected; GoScheduleReconnect;
      GoReadLoop; GoCmdVelPublisher; GoOnConnected]).
Proof.
  intros Hc Hes.
  assert (Hd : Disconnect c
               = (set_conn (closeConn <$> conn c) (set_connected false c),
                  [StopPublisher; GoOnDisconnected]))
    by (unfold Disconnect; by rewrite Hc).
  split; [|split].
  - rewrite play_cons. cbn [happen fst snd]. rewrite Hd. cbn [fst snd].
    by rewrite play_down.
  - by rewrite Hd.
  - simpl. unfold readFailed, Disconnect, scheduleReconnect, Connect.
    rewrite Hc. simpl. by destruct c.
Qed.

(** A connected link, stopped with nothing pending, and stopped in the
    retry window. *)
Lemma Disconnect_final_witness :
  connected
    (play [EvDisconnect; EvReadError; EvReconnect (inl {| werr := None; written := [] |})]
       (samples.upClient, 0)).1.1 = false ∧
  connected
    (play [EvReadError; EvDisconnect; EvReconnect (inl {| werr := None; written := [] |})]
       (samples.upClient, 0)).1.1 = true.
Proof.
  destruct (Disconnect_final
              [EvReadError; EvReconnect (inl {| werr := None; written := [] |})]
              samples.upClient {| werr := None; written := [] |}
              eq_refl eq_refl) as (H1 & H2 & H3).
  split; [rewrite H1; exact H2|by rewrite H3].
Defined.

End SessionSpec.

(** ** Service calls with responses *)
Module AnswerSpec.
Import rosbridge answers.

Lemma traced_mono (h h' : list label) (l : Link) :
  h ⊆ h' → traced h l → traced h' l.
Proof.
  intros Hsub [H1 H2 H3 H4 H5 H6]. split; try done.
  - intros g buf raw Hg Hraw. destruct (H4 g buf raw Hg Hraw) as (k & Hk & Hin).
    exists k. split; [done|]. by apply Hsub.
  - intros ch raw Hr. destruct (H5 ch raw Hr) as (k & Hk & Hin).
    exists k. split; [done|]. by apply Hsub.
  - intros g k raw Hk Ha. apply Hsub. by eapply H6.
Qed.

(** A call whose program counter moves keeps its id and its channel. *)
Lemma lookup_moved (cs : list Call) (g g' : nat) (k k' : Call) (p : pc) :
  cs !! g = Some k →
  <[g := set_callPC p k]> cs !! g' = Some k' →
  ∃ k0, cs !! g' = Some k0 ∧ callID k' = callID k0 ∧ callCh k' = callCh k0 ∧
        (g' = g → k0 = k ∧ k' = set_callPC p k) ∧ (g' ≠ g → k' = k0).
Proof.
  intros Hk Hk'. destruct (decide (g' = g)) as [->|Hne].
  - rewrite list_lookup_insert_eq in Hk' by (by eapply lookup_lt_Some).
    injection Hk' as <-. exists k. by repeat split.
  - rewrite list_lookup_insert_ne in Hk' by done. exists k'. by repeat split.
Qed.

(** Moving the program counter of call [g] to [p] keeps the invariant when
    the answer of the call is accounted for. *)
Lemma traced_move (h : list label) (l : Link) (g : nat) (k : Call) (p : pc)
    (c : Client) (cs : list (list RawMessage)) :
  traced h l → calls l !! g = Some k →
  owned (svcPending c) (<[g := set_callPC p k]> (calls l)) →
  length cs = length (chans l) →
  (∀ g' buf raw, cs !! g' = Some buf → raw ∈ buf →
     ∃ buf0, chans l !! g' = Some buf0 ∧ raw ∈ buf0) →
  (∀ raw, answer (set_callPC p k) = Some raw → Response (callID k) raw ∈ h) →
  traced h {| client := c; chans := cs;
              calls := <[g := set_callPC p k]> (calls l);
              reader := reader l; now := now l |}.
Proof.
  intros [H1 H2 H3 H4 H5 H6] Hk Hown Hlen Hbuf Hans. split; simpl.
  - done.
  - by rewrite length_insert, Hlen.
  - intros g' k' Hk'.
    destruct (lookup_moved _ _ _ _ _ _ Hk Hk') as (k0 & Hk0 & _ & Hch & _).
    rewrite Hch. by eapply H3.
  - intros g' buf raw Hg' Hraw.
    destruct (Hbuf g' buf raw Hg' Hraw) as (buf0 & Hb0 & Hr0).
    destruct (H4 g' buf0 raw Hb0 Hr0) as (k0 & Hk0 & Hin).
    destruct (decide (g' = g)) as [->|Hne].
    + exists (set_callPC p k). assert (k0 = k) as -> by congruence.
      split; [|done]. apply list_lookup_insert_eq. by eapply lookup_lt_Some.
    + exists k0. split; [|done]. by rewrite list_lookup_insert_ne.
  - intros ch raw Hr. destruct (H5 ch raw Hr) as (k0 & Hk0 & Hin).
    destruct (decide (ch = g)) as [->|Hne].
    + exists (set_callPC p k). assert (k0 = k) as -> by congruence.
      split; [|done]. apply list_lookup_insert_eq. by eapply lookup_lt_Some.
    + exists k0. split; [|done]. by rewrite list_lookup_insert_ne.
  - intros g' k' raw Hk' Ha.
    destruct (lookup_moved _ _ _ _ _ _ Hk Hk') as (k0 & Hk0 & Hid & _ & He & Hn).
    destruct (decide (g' = g)) as [->|Hne].
    + destruct (He eq_refl) as [-> ->]. by apply Hans.
    + rewrite (Hn Hne) in *. by eapply H6.
Qed.

Lemma step_traced (h : list label) (a : label) (l l' : Link) :
  traced h l → step a l = Some l' → traced (h ++ [a]) l'.
Proof.
  intros Htr Hstep.
  assert (Hsub : h ⊆ h ++ [a]) by (intros x Hx; apply elem_of_app; by left).
  destruct a as [service args timeout|g|g|g|g|id raw| |d]; simpl in Hstep.
  - (* Enter *)
    injection Hstep as <-. apply (traced_mono h); [done|].
    destruct Htr as [H1 H2 H3 H4 H5 H6]. split; simpl.
    + by apply (ServiceSpec.owned_enter _ _
                  {| callService := service; callArgs := args;
                     callTimeout := timeout;
                     callID := correlationID service (now l);
                     callCh := length (chans l); callPC := AtSend |}).
    + rewrite !length_app. simpl. lia.
    + intros g k Hk. apply lookup_app_Some in Hk as [Hk|[Hge Hk]].
      * by eapply H3.
      * apply list_lookup_singleton_Some in Hk as [Hz <-]. simpl. lia.
    + intros g buf raw Hg Hraw. apply lookup_app_Some in Hg as [Hg|[Hge Hg]].
      * destruct (H4 g buf raw Hg Hraw) as (k & Hk & Hin).
        exists k. split; [|done]. by apply lookup_app_l_Some.
      * apply list_lookup_singleton_Some in Hg as [_ <-].
        by apply elem_of_nil in Hraw.
    + intros ch raw Hr. destruct (H5 ch raw Hr) as (k & Hk & Hin).
      exists k. split; [|done]. by apply lookup_app_l_Some.
    + intros g k raw Hk Ha. apply lookup_app_Some in Hk as [Hk|[Hge Hk]].
      * by eapply H6.
      * apply list_lookup_singleton_Some in Hk as [_ <-]. done.
  - (* DoSend *)
    destruct (calls l !! g) as [k|] eqn:Hk; simpl in Hstep; [|done].
    destruct (callPC k) eqn:Hpc; try done.
    destruct (send _ (client l)) as [c err] eqn:Hs.
    injection Hstep as <-. apply (traced_mono h); [done|].
    pose proof (ServiceSpec.svcPending_send (CallServiceMsg (ns (client l) +:+ callService k)
                                   (callArgs k) (callID k)) (client l)) as Hsp.
    rewrite Hs in Hsp. simpl in Hsp.
    apply traced_move; try done.
    + rewrite Hsp. apply ServiceSpec.owned_move; [apply Htr|done|by destruct err].
    + intros g' buf raw Hg' Hraw. by exists buf.
    + intros raw. by destruct err.
  - (* DoReceive *)
    destruct (calls l !! g) as [k|] eqn:Hk; simpl in Hstep; [|done].
    destruct (callPC k) eqn:Hpc; try done.
    destruct (chans l !! callCh k) as [[|resp rest]|] eqn:Hb; try done.
    injection Hstep as <-. apply (traced_mono h); [done|].
    assert (Hch : callCh k = g) by (by eapply (tr_chan _ _ Htr)).
    apply traced_move; try done.
    + apply ServiceSpec.owned_move; [apply Htr|done|done].
    + by rewrite length_insert.
    + intros g' buf raw Hg' Hraw.
      destruct (decide (g' = callCh k)) as [->|Hne].
      * rewrite list_lookup_insert_eq in Hg' by (by eapply lookup_lt_Some).
        injection Hg' as <-. exists (resp :: rest). split; [done|].
        by apply elem_of_cons; right.
      * rewrite list_lookup_insert_ne in Hg' by done. by exists buf.
    + intros raw [= <-].
      destruct (tr_buffer _ _ Htr (callCh k) (resp :: rest) resp Hb)
        as (k0 & Hk0 & Hin); [by apply elem_of_cons; left|].
      rewrite Hch in Hk0. by assert (k0 = k) as -> by congruence.
  - (* DoTimeout *)
    destruct (calls l !! g) as [k|] eqn:Hk; simpl in Hstep; [|done].
    destruct (callPC k) eqn:Hpc; try done.
    destruct (_ <=? _)%Z; [|done]. injection Hstep as <-.
    apply (traced_mono h); [done|].
    apply traced_move; try done.
    + apply ServiceSpec.owned_move; [apply Htr|done|done].
    + intros g' buf raw Hg' Hraw. by exists buf.
  - (* DoDefer *)
    destruct (calls l !! g) as [k|] eqn:Hk; simpl in Hstep; [|done].
    destruct (callPC k) eqn:Hpc; try done. injection Hstep as <-.
    apply (traced_mono h); [done|].
    apply traced_move; try done.
    + simpl. apply ServiceSpec.owned_defer; [apply Htr|done].
    + intros g' buf raw Hg' Hraw. by exists buf.
    + intros raw Ha. apply (tr_answer _ _ Htr g k raw Hk).
      unfold answer in *. simpl in Ha. by rewrite Hpc.
  - (* Response *)
    destruct (reader l) eqn:Hr; [done|]. injection Hstep as <-.
    destruct Htr as [H1 H2 H3 H4 H5 H6]. split; simpl; try done.
    + intros g buf raw' Hg Hraw.
      destruct (H4 g buf raw' Hg Hraw) as (k & Hk & Hin).
      exists k. split; [done|]. by apply Hsub.
    + intros ch raw' Hch.
      destruct (svcPending (client l) !! id) as [ch0|] eqn:Hid; [|done].
      injection Hch as <- <-.
      destruct (H1 id ch0 Hid) as (g & k & Hk & Hkid & Hkch & _).
      rewrite (H3 g k Hk) in Hkch. subst g. exists k. split; [done|].
      rewrite Hkid. apply elem_of_app. right. by apply list_elem_of_singleton.
    + intros g k raw' Hk Ha. apply Hsub. by eapply H6.
  - (* Deliver *)
    destruct (reader l) as [[ch raw]|] eqn:Hr; simpl in Hstep; [|done].
    destruct (chans l !! ch) as [buf|] eqn:Hb; simpl in Hstep; [|done].
    destruct (_ <? _)%nat; [|done]. injection Hstep as <-.
    apply (traced_mono h); [done|].
    destruct Htr as [H1 H2 H3 H4 H5 H6]. split; simpl; try done.
    + by rewrite length_insert.
    + intros g buf' raw' Hg Hraw.
      destruct (decide (g = ch)) as [->|Hne].
      * rewrite list_lookup_insert_eq in Hg by (by eapply lookup_lt_Some).
        injection Hg as <-. apply elem_of_app in Hraw as [Hraw|Hraw].
        -- by eapply H4.
        -- apply list_elem_of_singleton in Hraw as ->. by apply H5.
      * rewrite list_lookup_insert_ne in Hg by done. by eapply H4.
  - (* Elapse *)
    destruct (0 <=? d)%Z; [|done]. injection Hstep as <-.
    apply (traced_mono h); [done|]. by destruct Htr.
Qed.

Lemma run_traced (h sched : list label) (l l' : Link) :
  traced h l → run sched l = Some l' → traced (h ++ sched) l'.
Proof.
  revert h l. induction sched as [|a sched IH]; intros h l Htr; simpl.
  - intros [= <-]. by rewrite app_nil_r.
  - destruct (step a l) as [l1|] eqn:Hstep; simpl; [|done]. intros Hrun.
    replace (h ++ a :: sched) with ((h ++ [a]) ++ sched)
      by (by rewrite <- app_assoc).
    eapply IH; [|done]. by eapply step_traced.
Qed.

Lemma traced_newLink (c : Client) (t0 : Z) :
  svcPending c = ∅ → traced [] (newLink c t0).
Proof.
  intros Hp. split; simpl; try done.
  intros id ch. rewrite Hp. by rewrite lookup_empty.
Qed.

(** X14. No call returns a response that was not addressed to it. In
    every run of a link that starts with an empty pending table, with any
    number of calls, any responses and any interleaving, a call that returns
    a response returns one that the read loop routed under that call's own
    correlation id. *)
Theorem CallService_own_response (c : Client) (t0 : Z) (sched : list label)
    (l : Link) (g : nat) (k : Call) (raw : RawMessage) :
  svcPending c = ∅ →
  run sched (newLink c t0) = Some l →
  calls l !! g = Some k →
  callPC k = Returned (inl raw) →
  Response (callID k) raw ∈ sched.
Proof.
  intros Hp Hrun Hk Hpc.
  pose proof (run_traced [] sched _ _ (traced_newLink c t0 Hp) Hrun) as Htr.
  simpl in Htr. apply (tr_answer _ _ Htr g k raw Hk).
  unfold answer. by rewrite Hpc.
Qed.

(** X15. The pending table never outlives its calls, answered or not. In
    every run of a link that starts with an empty table, every entry belongs
    to a call that has not returned, so once every call has returned the
    table is empty. *)
Theorem CallService_no_leak (c : Client) (t0 : Z) (sched : list label)
    (l : Link) :
  svcPending c = ∅ →
  run sched (newLink c t0) = Some l →
  owned (svcPending (client l)) (calls l) ∧
  (forallb returned (calls l) = true → svcPending (client l) = ∅).
Proof.
  intros Hp Hrun.
  pose proof (run_traced [] sched _ _ (traced_newLink c t0 Hp) Hrun) as Htr.
  split; [apply Htr|]. intros Hall. apply map_empty. intros id.
  destruct (svcPending (client l) !! id) as [ch|] eqn:Hid; [|done].
  destruct (tr_owned _ _ Htr id ch Hid) as (g0 & k0 & Hk0 & _ & _ & Hfl).
  rewrite forallb_forall in Hall.
  assert (Hin : In k0 (calls l))
    by (apply list_elem_of_In; by eapply list_elem_of_lookup_2).
  specialize (Hall k0 Hin). unfold returned in Hall. by rewrite Hfl in Hall.
Qed.

(** One call, answered in time. *)
Lemma CallService_own_response_witness :
  Response "svc_/which_maps_1793592000000" "maps"
  ∈ answeredRun "/which_maps" "which_maps" samples.sec10
      "svc_/which_maps_1793592000000" "maps".
Proof.
  destruct (run (answeredRun "/which_maps" "which_maps" samples.sec10
                   "svc_/which_maps_1793592000000" "maps")
              (newLink samples.upClient samples.t0))
    as [l|] eqn:Hrun; [|vm_compute in Hrun; discriminate].
  assert (Hk : calls l !! 0
               = Some {| callService := "/which_maps";
                         callArgs := "which_maps";
                         callTimeout := samples.sec10;
                         callID := "svc_/which_maps_1793592000000";
                         callCh := 0;
                         callPC := Returned (inl "maps") |})
    by (vm_compute in Hrun; injection Hrun as <-; reflexivity).
  exact (CallService_own_response samples.upClient samples.t0 _ l 0 _ "maps"
           eq_refl Hrun Hk eq_refl).
Defined.

(** The same call: its entry is gone when it has returned. *)
Lemma CallService_no_leak_witness :
  ∃ l,
    run (answeredRun "/which_maps" "which_maps" samples.sec10
           "svc_/which_maps_1793592000000" "maps")
      (newLink samples.upClient samples.t0) = Some l ∧
    forallb returned (calls l) = true ∧
    svcPending (client l) = ∅.
Proof.
  destruct (run (answeredRun "/which_maps" "which_maps" samples.sec10
                   "svc_/which_maps_1793592000000" "maps")
              (newLink samples.upClient samples.t0))
    as [l|] eqn:Hrun; [|vm_compute in Hrun; discriminate].
  exists l. split; [reflexivity|].
  assert (Hall : forallb returned (calls l) = true)
    by (vm_compute in Hrun; injection Hrun as <-; reflexivity).
  split; [exact Hall|].
  exact (proj2 (CallService_no_leak samples.upClient samples.t0 _ l eq_refl Hrun)
           Hall).
Defined.




End AnswerSpec.

(** ** The manager over all its calls *)
Module FleetSpec.
Import robot fleet.

Lemma hubOpen_receive (ch : nat) (m m' : Manager) (msg : BroadcastMsg) :
  hubOpen m = true → receive ch m = Some (msg, m') →
  hubOpen m' = true ∧ robots m' = robots m ∧ currentID m' = currentID m ∧
  nextID m' = nextID m.
Proof.
  intros Hopen Hrecv. unfold receive in Hrecv.
  destruct (heap m !! ch) as [c|] eqn:Hc; simpl in Hrecv; [|done].
  destruct (buf c) as [|x rest] eqn:Hbuf; [done|]. injection Hrecv as <- <-.
  split; [|done]. apply HubSpec.hubOpen_spec. intros ch' Hin. simpl in *.
  destruct (proj1 (HubSpec.hubOpen_spec m) Hopen ch' Hin) as (c' & Hc' & Hcl).
  destruct (decide (ch' = ch)) as [->|Hne].
  - rewrite list_lookup_insert_eq by (by eapply lookup_lt_Some).
    eexists. split; [done|]. simpl. congruence.
  - rewrite list_lookup_insert_ne by done. by exists c'.
Qed.

(** What a call that returns leaves of the registry. *)
Lemma perform_registry (c : call) (m m' : Manager) :
  hubOpen m = true → perform c m = Returns m' →
  hubOpen m' = true ∧
  ((robots m' = robots m ∧ nextID m' = nextID m) ∨
   (robots m' = ∅ ∧ nextID m' = nextID m) ∨
   (∃ id, robots m' = delete id (robots m) ∧ nextID m' = nextID m) ∨
   (∃ ns name ip port,
      duplicate ip port (robots m) = false ∧
      robots m' = <[Sprintf_d (nextID m) :=
                      NewRobot (Sprintf_d (nextID m)) ns name ip port]>
                    (robots m) ∧
      nextID m' = wrap64 (nextID m + 1))).
Proof.
  intros Hopen Hc. destruct c as [o| |msg|ch]; simpl in Hc.
  - destruct o as [ns name ip port|seed id|id| |ch]; simpl in Hc.
    + destruct (duplicate ip port (robots m)) eqn:Hdup.
      * unfold AddRobot in Hc. rewrite Hdup in Hc. injection Hc as <-.
        split; [done|]. by left.
      * destruct (RegistrySpec.AddRobot_fresh ns name ip port m Hopen Hdup)
          as (m1 & Hadd & Ho & Hr & Hn & _).
        rewrite Hadd in Hc. injection Hc as <-. split; [done|].
        right; right; right. by exists ns, name, ip, port.
    + destruct (robots m !! id) as [r|] eqn:Hr.
      * destruct (RegistrySpec.RemoveRobot_found seed id m r Hopen Hr)
          as (m1 & Hrm & Ho & Hrs & Hn & _).
        rewrite Hrm in Hc. injection Hc as <-. split; [done|].
        right; right; left. by exists id.
      * unfold RemoveRobot in Hc. rewrite Hr in Hc. injection Hc as <-.
        split; [done|]. by left.
    + destruct (robots m !! id) as [r|] eqn:Hr.
      * destruct (RegistrySpec.SwitchRobot_found id m r Hopen Hr)
          as (m1 & Hsw & Ho & Hrs & Hn & _).
        rewrite Hsw in Hc. injection Hc as <-. split; [done|]. by left.
      * unfold SwitchRobot in Hc. rewrite Hr in Hc. injection Hc as <-.
        split; [done|]. by left.
    + injection Hc as <-. split; [by apply RegistrySpec.hubOpen_Subscribe|].
      by left.
    + split; [by eapply RegistrySpec.hubOpen_Unsubscribe|]. left.
      unfold Unsubscribe in Hc. destruct (heap m !! ch) as [c|]; [|done].
      destruct (closed c); [done|]. by injection Hc as <-.
  - injection Hc as <-. split; [done|]. right; left. done.
  - destruct (RegistrySpec.hubOpen_Broadcast msg m Hopen)
      as (m1 & Hb & Ho & Hr & _ & Hn & _).
    rewrite Hb in Hc. injection Hc as <-. split; [done|]. by left.
  - injection Hc as <-. destruct (receive ch m) as [[msg m1]|] eqn:Hrecv.
    + destruct (hubOpen_receive ch m m1 msg Hopen Hrecv) as (Ho & Hr & _ & Hn).
      split; [done|]. by left.
    + split; [done|]. by left.
Qed.

Lemma selectionOK_perform (c : call) (m m' : Manager) :
  hubOpen m = true → selectionOK m → perform c m = Returns m' →
  selectionOK m'.
Proof.
  intros Hopen Hsel Hc. destruct c as [o| |msg|ch]; simpl in Hc.
  - by destruct (RegistrySpec.selectionOK_exec o m m' Hopen Hsel Hc).
  - injection Hc as <-. unfold selectionOK, ClearAll. simpl.
    split; [apply lookup_empty|]. split; [done|]. done.
  - destruct (RegistrySpec.hubOpen_Broadcast msg m Hopen)
      as (m1 & Hb & _ & Hr & Hcur & _).
    rewrite Hb in Hc. injection Hc as <-. unfold selectionOK in *.
    by rewrite Hr, Hcur.
  - injection Hc as <-. destruct (receive ch m) as [[msg m1]|] eqn:Hrecv;
      [|done].
    destruct (hubOpen_receive ch m m1 msg Hopen Hrecv) as (_ & Hr & Hcur & _).
    unfold selectionOK in *. by rewrite Hr, Hcur.
Qed.

Lemma keyed_perform (c : call) (m m' : Manager) :
  hubOpen m = true → keyed m ∧ endpointsUnique m →
  perform c m = Returns m' → keyed m' ∧ endpointsUnique m'.
Proof.
  intros Hopen [Hkey Huniq] Hc.
  destruct (perform_registry c m m' Hopen Hc)
    as (_ & [[Hr _]|[[Hr _]|[(id & Hr & _)|(ns & name & ip & port & Hdup & Hr & _)]]]);
    unfold keyed, endpointsUnique; rewrite Hr.
  - done.
  - split; intros *; by rewrite lookup_empty.
  - split.
    + intros id' r [_ H]%lookup_delete_Some. by eapply Hkey.
    + intros id1 id2 r1 r2 [_ H1]%lookup_delete_Some [_ H2]%lookup_delete_Some.
      by eapply Huniq.
  - assert (Hnew : ∀ id r, robots m !! id = Some r →
                     ¬ (IP r = ip ∧ Port r = port)).
    { intros id r Hid [Hip Hport].
      assert (duplicate ip port (robots m) = true)
        by (apply RegistrySpec.duplicate_true; by exists id, r).
      congruence. }
    split.
    + intros id r [[<- <-]|[_ H]]%lookup_insert_Some; [done|]. by eapply Hkey.
    + intros id1 id2 r1 r2
        [[<- <-]|[Hn1 H1]]%lookup_insert_Some
        [[<- <-]|[Hn2 H2]]%lookup_insert_Some Hip Hport; simpl in *.
      * done.
      * by destruct (Hnew id2 r2 H2).
      * by destruct (Hnew id1 r1 H1).
      * by eapply Huniq.
Qed.

Lemma wrap64_small (z : Z) : (1 ≤ z ≤ MaxInt)%Z → wrap64 z = z.
Proof.
  unfold wrap64, MaxInt. intros H.
  change (2 ^ 63)%Z with 9223372036854775808%Z in *.
  change (2 ^ 64)%Z with 18446744073709551616%Z.
  rewrite Z.mod_small; lia.
Qed.

Lemma issued_perform (c : call) (m m' : Manager) :
  hubOpen m = true → issued m → (nextID m < MaxInt)%Z →
  perform c m = Returns m' →
  issued m' ∧ (nextID m' ≤ nextID m + 1)%Z.
Proof.
  intros Hopen [Hpos Hids] Hmax Hc.
  destruct (perform_registry c m m' Hopen Hc)
    as (_ & [[Hr Hn]|[[Hr Hn]|[(id & Hr & Hn)|(ns & name & ip & port & _ & Hr & Hn)]]]);
    unfold issued; rewrite Hr, Hn.
  - split; [|lia]. done.
  - split; [|lia]. split; [done|]. intros id [r Hid].
    by rewrite lookup_empty in Hid.
  - split; [|lia]. split; [done|]. intros id' [r [_ Hid]%lookup_delete_Some].
    by apply Hids.
  - rewrite wrap64_small by lia. split; [|lia]. split; [lia|].
    intros id [r [[<- _]|[_ Hid]]%lookup_insert_Some].
    + exists (nextID m). split; [lia|done].
    + destruct (Hids id) as (n & Hn' & ->); [done|]. exists n. split; [lia|done].
Qed.

Lemma issued_fresh (m : Manager) :
  issued m → robots m !! Sprintf_d (nextID m) = None.
Proof.
  intros [_ Hids]. destruct (robots m !! _) as [r|] eqn:Hr; [|done].
  destruct (Hids (Sprintf_d (nextID m))) as (n & Hn & Heq); [done|].
  apply (inj pretty) in Heq. lia.
Qed.

(** The invariants of a run of calls. *)
Lemma performAll_inv (cs : list call) (m m' : Manager) :
  hubOpen m = true → selectionOK m → keyed m ∧ endpointsUnique m →
  performAll cs m = Returns m' →
  hubOpen m' = true ∧ selectionOK m' ∧ keyed m' ∧ endpointsUnique m'.
Proof.
  revert m. induction cs as [|c cs IH]; intros m Hopen Hsel Hkey; simpl.
  - intros [= <-]. by destruct Hkey.
  - destruct (perform c m) as [m1|] eqn:Hc; [|done]. intros Hrun.
    destruct (perform_registry c m m1 Hopen Hc) as [Ho _].
    apply (IH m1); try done.
    + exact (selectionOK_perform c m m1 Hopen Hsel Hc).
    + exact (keyed_perform c m m1 Hopen Hkey Hc).
Qed.

Lemma performAll_issued (cs : list call) (m m' : Manager) :
  hubOpen m = true → issued m →
  (nextID m + Z.of_nat (length cs) ≤ MaxInt)%Z →
  performAll cs m = Returns m' →
  hubOpen m' = true ∧ issued m' ∧
  (nextID m' ≤ nextID m + Z.of_nat (length cs))%Z.
Proof.
  revert m. induction cs as [|c cs IH]; intros m Hopen Hiss Hmax; simpl.
  - intros [= <-]. split; [done|]. split; [done|]. lia.
  - destruct (perform c m) as [m1|] eqn:Hc; [|done]. intros Hrun.
    simpl in Hmax.
    destruct (perform_registry c m m1 Hopen Hc) as [Ho _].
    destruct (issued_perform c m m1 Hopen Hiss) as [Hiss1 Hn1]; [lia|done|].
    destruct (IH m1 Ho Hiss1) as (Ho' & Hiss' & Hn'); [lia|done|].
    split; [done|]. split; [done|]. lia.
Qed.

Lemma NewManager_inv :
  hubOpen NewManager = true ∧ selectionOK NewManager ∧
  (keyed NewManager ∧ endpointsUnique NewManager) ∧ issued NewManager.
Proof.
  split; [done|]. split; [|split].
  - unfold selectionOK. simpl. split; [apply lookup_empty|]. done.
  - split.
    + intros id r Hr. simpl in Hr. by rewrite lookup_empty in Hr.
    + intros id1 id2 r1 r2 Hr. simpl in Hr. by rewrite lookup_empty in Hr.
  - split; [done|]. intros id [r Hr]. simpl in Hr. by rewrite lookup_empty in Hr.
Qed.

(** X17. Whatever calls are made on a manager (adding, removing and
    switching robots, clearing the registry, subscribing, unsubscribing,
    broadcasting, reading a queue), as long as none panics: every registered
    queue is open, every robot is registered under its own id, no two
    registered robots have the same address and port, and the selection is
    empty exactly when the registry is, otherwise the id of a registered
    robot. *)
Theorem performAll_registry (cs : list call) (m : Manager) :
  performAll cs NewManager = Returns m →
  hubOpen m = true ∧ keyed m ∧ endpointsUnique m ∧
  (GetCurrentRobot m = None ↔ robots m = ∅) ∧
  (currentID m ≠ "" →
   ∃ r, GetRobot (currentID m) m = Some r ∧ GetCurrentRobot m = Some r ∧
        ID r = currentID m).
Proof.
  intros Hrun.
  destruct NewManager_inv as (H1 & H2 & H3 & _).
  destruct (performAll_inv cs NewManager m H1 H2 H3 Hrun)
    as (Ho & Hsel & Hkey & Huniq).
  destruct (RegistrySpec.GetCurrentRobot_inv m Hsel) as [Hnone Hsome].
  split; [done|]. split; [done|]. split; [done|]. split; [done|].
  intros Hcur. destruct (Hsome Hcur) as (r & Hr & Hget).
  exists r. split; [done|]. split; [done|]. by apply Hkey.
Qed.

(** X18. An [AddRobot] whose address and port are not taken registers a
    robot under a new id: the decimal of the counter, which no registered
    robot has, after any run of fewer calls than the largest [int]. The call
    returns the robot, [GetRobot] on its id finds it, the robot count goes up
    by one, and every other id keeps its robot. Ids of removed robots are
    not given out again. *)
Theorem AddRobot_registers (cs : list call) (m : Manager)
    (ns name ip : string) (port : Z) :
  performAll cs NewManager = Returns m →
  (Z.of_nat (length cs) < MaxInt)%Z →
  duplicate ip port (robots m) = false →
  let r := NewRobot (Sprintf_d (nextID m)) ns name ip port in
  ∃ m',
    AddRobot ns name ip port m = Returns (m', inl r) ∧
    GetRobot (ID r) m = None ∧
    GetRobot (ID r) m' = Some r ∧
    GetRobotCount m' = S (GetRobotCount m) ∧
    (∀ id, id ≠ ID r → GetRobot id m' = GetRobot id m) ∧
    (∀ n, (1 ≤ n < nextID m)%Z → ID r ≠ Sprintf_d n).
Proof.
  intros Hrun Hlen Hdup r.
  destruct NewManager_inv as (H1 & _ & _ & H4).
  destruct (performAll_issued cs NewManager m H1 H4) as (Ho & Hiss & _);
    [simpl; lia|done|].
  destruct (RegistrySpec.AddRobot_fresh ns name ip port m Ho Hdup)
    as (m' & Hadd & _ & Hr & _).
  pose proof (issued_fresh m Hiss) as Hfresh.
  exists m'. split; [done|]. unfold GetRobot, GetRobotCount. rewrite Hr.
  simpl. split; [done|]. split; [apply lookup_insert_eq|].
  split; [by apply map_size_insert_None|].
  split; [intros id Hid; by apply lookup_insert_ne|].
  intros n Hn Heq. apply (inj pretty) in Heq. lia.
Qed.

(** Two robots, a reset, one robot again: registered under id 3. *)
Lemma performAll_registry_witness :
  ∃ m,
    performAll samples.day NewManager = Returns m ∧
    hubOpen m = true ∧ keyed m ∧ endpointsUnique m ∧ currentID m = "3".
Proof.
  destruct (performAll samples.day NewManager) as [m|] eqn:Hm;
    [|vm_compute in Hm; discriminate].
  destruct (performAll_registry samples.day m Hm) as (H1 & H2 & H3 & _).
  exists m. split; [reflexivity|]. split; [exact H1|]. split; [exact H2|].
  split; [exact H3|]. vm_compute in Hm. injection Hm as <-. reflexivity.
Defined.

(** After that day a robot at a new address gets id 4. *)
Lemma AddRobot_registers_witness :
  ∃ m m',
    performAll samples.day NewManager = Returns m ∧
    AddRobot "/r4" "delta" "10.0.0.9" 9090 m
    = Returns (m', inl (NewRobot "4" "/r4" "delta" "10.0.0.9" 9090)) ∧
    GetRobotCount m' = S (GetRobotCount m).
Proof.
  destruct (performAll samples.day NewManager) as [m|] eqn:Hm;
    [|vm_compute in Hm; discriminate].
  assert (Hdup : duplicate "10.0.0.9" 9090 (robots m) = false)
    by (vm_compute in Hm; injection Hm as <-; vm_compute; reflexivity).
  assert (Hn : nextID m = 4%Z)
    by (vm_compute in Hm; injection Hm as <-; reflexivity).
  destruct (AddRobot_registers samples.day m "/r4" "delta" "10.0.0.9" 9090
              Hm eq_refl Hdup) as (m' & Hadd & _ & _ & Hcount & _).
  exists m, m'. split; [reflexivity|]. split; [|exact Hcount].
  rewrite Hadd. by rewrite Hn.
Defined.

Lemma deliver_take (msg : BroadcastMsg) (rest : list BroadcastMsg) (c : Chan) :
  buf (deliver msg c)
    ++ take (cap c - length (buf (deliver msg c))) rest
  = buf c ++ take (cap c - length (buf c)) (msg :: rest) ∧
  cap (deliver msg c) = cap c.
Proof.
  unfold deliver. destruct (length (buf c) <? cap c)%nat eqn:Hlt; simpl.
  - apply Nat.ltb_lt in Hlt. split; [|done]. rewrite length_app. simpl.
    replace (cap c - length (buf c)) with (S (cap c - (length (buf c) + 1)))
      by lia.
    simpl. by rewrite <- app_assoc.
  - apply Nat.ltb_ge in Hlt. split; [|done].
    by replace (cap c - length (buf c)) with 0 by lia.
Qed.

Lemma broadcastAll_heap (msgs : list BroadcastMsg) (m : Manager)
    (ch : nat) (c : Chan) :
  hubOpen m = true → heap m !! ch = Some c →
  ∃ m', broadcastAll msgs m = Returns m' ∧
        hubOpen m' = true ∧
        subscribers m' = subscribers m ∧ robots m' = robots m ∧
        currentID m' = currentID m ∧
        heap m' !! ch
        = Some (if bool_decide (ch ∈ subscribers m)
                then {| buf := buf c
                               ++ take (cap c - length (buf c)) msgs;
                        cap := cap c; closed := closed c |}
                else c).
Proof.
  revert m c. induction msgs as [|msg rest IH]; intros m c Hopen Hc; simpl.
  - exists m. repeat (split; [done|]). rewrite Hc, take_nil, app_nil_r.
    destruct c. simpl. by destruct (bool_decide _).
  - destruct (HubSpec.Broadcast_returns msg m Hopen) as (h' & Hb & _ & Hh).
    destruct (RegistrySpec.hubOpen_Broadcast msg m Hopen)
      as (m1 & Hb1 & Ho1 & Hr1 & Hcur1 & _ & Hs1).
    rewrite Hb1. rewrite Hb in Hb1. injection Hb1 as <-.
    pose proof (Hh ch c Hc) as Hch.
    destruct (IH _ _ Ho1 Hch) as (m' & Hrun & Ho' & Hs' & Hr' & Hcur' & Hq).
    exists m'. split; [done|]. split; [done|].
    split; [by rewrite Hs'|]. split; [by rewrite Hr'|].
    split; [by rewrite Hcur'|]. rewrite Hq. simpl.
    destruct (bool_decide (ch ∈ subscribers m)); [|done].
    destruct (deliver_take msg rest c) as [Hbuf Hcap].
    rewrite Hcap, Hbuf. by rewrite HubSpec.closed_deliver.
Qed.

(** X19. A subscriber's queue is first-in first-out and drops the newest.
    After any sequence of broadcasts on a hub whose registered queues are
    open, a registered queue holds what it held, followed by the first of
    the new messages in their order, as many as its free capacity; the later
    ones are lost for that subscriber. No broadcast panics or blocks, and a
    queue that is not registered is unchanged. *)
Theorem broadcastAll_queue (msgs : list BroadcastMsg) (m : Manager)
    (ch : nat) (c : Chan) :
  hubOpen m = true → heap m !! ch = Some c →
  ∃ m', broadcastAll msgs m = Returns m' ∧
        subscribers m' = subscribers m ∧
        (ch ∈ subscribers m →
         heap m' !! ch
         = Some {| buf := buf c ++ take (cap c - length (buf c)) msgs;
                   cap := cap c; closed := closed c |}) ∧
        (ch ∉ subscribers m → heap m' !! ch = Some c).
Proof.
  intros Hopen Hc.
  destruct (broadcastAll_heap msgs m ch c Hopen Hc)
    as (m' & Hrun & _ & Hs & _ & _ & Hq).
  exists m'. split; [done|]. split; [done|]. split; intros Hin; rewrite Hq.
  - by rewrite bool_decide_eq_true_2.
  - by rewrite bool_decide_eq_false_2.
Qed.

(** Queue 1 of the busy hub has one free place: of two new events it takes
    the first. *)
Lemma broadcastAll_queue_witness :
  ∃ m' c1,
    broadcastAll [samples.statusMsg "2"; samples.statusMsg "3"]
      samples.busyHub = Returns m' ∧
    heap samples.busyHub !! 1 = Some c1 ∧
    length (buf c1) = 99 ∧
    heap m' !! 1
    = Some {| buf := buf c1 ++ [samples.statusMsg "2"]; cap := 100;
              closed := false |}.
Proof.
  destruct (heap samples.busyHub !! 1) as [c1|] eqn:Hc1;
    [|vm_compute in Hc1; discriminate].
  assert (Hlen : length (buf c1) = 99 ∧ cap c1 = 100 ∧ closed c1 = false)
    by (vm_compute in Hc1; injection Hc1 as <-; done).
  destruct Hlen as (Hlen & Hcap & Hcl).
  destruct (broadcastAll_queue [samples.statusMsg "2"; samples.statusMsg "3"]
              samples.busyHub 1 c1 eq_refl Hc1) as (m' & Hrun & _ & Hin & _).
  exists m', c1. split; [exact Hrun|]. split; [reflexivity|].
  split; [exact Hlen|]. rewrite Hin.
  - by rewrite Hlen, Hcap, Hcl.
  - vm_compute. set_solver.
Defined.

End FleetSpec.
